(** * PyRomano: Roman numerals and Roman measures

    A shallow embedding of [PyRomano.py] (classes [NumRom] and [MedRom])
    and the properties of its conversions.

    - Python strings are sequences of Unicode code points: [list N].
    - Python numbers are [int] (unbounded, [Z]) or [float] (binary64,
      Rocq's primitive floats), with Python's mixed arithmetic.
    - A raised exception is the [Raise] branch of [result]. *)

From Stdlib Require Import ZArith NArith List Bool Lia Floats Reals Lra.
From Stdlib Require String Ascii Uint63.
Import ListNotations String.StringSyntax.
Delimit Scope string_scope with string.

Set Warnings "-inexact-float".

(** ** Exceptions and results *)

(** A Python [str]: code points, in order. *)
Definition codepoint := N.
Definition str := list codepoint.

(** The messages with which the module raises [RomanError]; an f-string
    is kept as its constructor with the interpolated values. *)
Inductive message :=
| EntradaInvalida                                   (* "Entrada inválida: debe ser una cadena no vacía." *)
| SecuenciaInvalida (seq : str)                     (* f"Secuencia inválida encontrada: {seq}" *)
| FraccionesAlFinal                                 (* "Las fracciones deben estar al final del número romano." *)
| RomanoInvalido (roman : str)                      (* f"Número romano inválido: {roman}" *)
| FueraDeRango                                      (* "Número fuera de rango: debe estar entre 0 y 3999.5." *)
| UnidadDesconocida (unit : str) (validas : list str) (* f"Unidad desconocida: {unit}. Unidades válidas: {...}" *)
| UnidadesInvalidas (validas : list str)            (* f"Unidades inválidas. Unidades válidas: {...}" *)
| ValorNoNegativo.                                  (* "El valor debe ser un número no negativo." *)

(** [RomanError] is the module's own exception; the other three are the
    built-in exceptions that Python's arithmetic on [int] and [float]
    raises. *)
Inductive exn :=
| RomanError (msg : message)
| ValueError
| OverflowError
| ZeroDivisionError.

Inductive result (A : Type) :=
| Ok (a : A)
| Raise (e : exn).
Arguments Ok {A} a.
Arguments Raise {A} e.

Definition bind {A B} (r : result A) (k : A -> result B) : result B :=
  match r with
  | Ok a => k a
  | Raise e => Raise e
  end.

Notation "x <- r ;; k" := (bind r (fun x => k))
  (at level 61, r at next level, right associativity).
Notation "r ;;; k" := (bind r (fun _ => k))
  (at level 61, right associativity).

Definition raises {A} (r : result A) : bool :=
  match r with Ok _ => false | Raise _ => true end.

(** ** Strings *)

Module PyStr.

(** An ASCII literal as a [str]. *)
Fixpoint lit (s : String.string) : str :=
  match s with
  | String.EmptyString => []
  | String.String c s' => Ascii.N_of_ascii c :: lit s'
  end.
Arguments lit s%_string.

(** U+00B7 MIDDLE DOT, the uncia dot of the fraction glyphs. *)
Definition middot : codepoint := 183%N.

Definition str_eqb (a b : str) : bool :=
  if list_eq_dec N.eq_dec a b then true else false.

(** [s.startswith(p)] at offset 0. *)
Fixpoint prefixb (p s : str) : bool :=
  match p, s with
  | [], _ => true
  | _ :: _, [] => false
  | a :: p', b :: s' => N.eqb a b && prefixb p' s'
  end.

(** [roman.startswith(symbol, i)] *)
Definition startswith (roman symbol : str) (i : nat) : bool :=
  Nat.leb i (length roman) && prefixb symbol (skipn i roman).

(** [roman.endswith(symbol)] *)
Definition endswith (roman symbol : str) : bool :=
  Nat.leb (length symbol) (length roman)
  && str_eqb (skipn (length roman - length symbol) roman) symbol.

(** [seq in roman] *)
Fixpoint contains (seq roman : str) : bool :=
  prefixb seq roman
  || match roman with
     | [] => false
     | _ :: roman' => contains seq roman'
     end.

Definition is_ascii (s : str) : bool := forallb (fun c => N.ltb c 128) s.

Section Case.
(** Python's case mappings are those of the Unicode database.  The
    part of the tables that the module's own symbols live in is
    written out; the rest of the database is a parameter.

    [str.upper] maps every code point by the full upper-case mapping
    (a code point may become several).  [unicode_upper] is that
    mapping above U+00FF. *)
Variable unicode_upper : codepoint -> list codepoint.

(** [str.lower] is not code point by code point outside ASCII (final
    sigma); [unicode_lower] is [str.lower] on strings that are not
    pure ASCII. *)
Variable unicode_lower : str -> str.

Local Open Scope N_scope.

Definition upper_char (c : codepoint) : list codepoint :=
  if (97 <=? c) && (c <=? 122) then [c - 32]          (* a-z *)
  else if c <? 181 then [c]
  else if c =? 181 then [924]                         (* MICRO SIGN *)
  else if c <? 223 then [c]                           (* incl. U+00B7 *)
  else if c =? 223 then [83; 83]                      (* sharp s -> SS *)
  else if c =? 247 then [c]                           (* DIVISION SIGN *)
  else if c <? 255 then [c - 32]                      (* a-grave .. thorn *)
  else if c =? 255 then [376]                         (* y-diaeresis *)
  else unicode_upper c.

Definition upper (s : str) : str := flat_map upper_char s.

Definition lower_ascii (c : codepoint) : codepoint :=
  if (65 <=? c) && (c <=? 90) then c + 32 else c.

Definition lower (s : str) : str :=
  if is_ascii s then map lower_ascii s else unicode_lower s.

Local Close Scope N_scope.
End Case.

End PyStr.
Import PyStr.

(** ** Numbers *)

Inductive PyNum :=
| PInt (n : Z)
| PFloat (f : float).

Module PyNumOps.

(** The value of [n] rounded to the nearest binary64, ties to even;
    an infinity when [n] is beyond the finite range. *)
Definition float_of_Z (n : Z) : float :=
  SF2Prim (binary_normalize prec emax n 0%Z false).

(** Conversion of an [int] operand in mixed arithmetic:
    "OverflowError: int too large to convert to float". *)
Definition float_of_int (n : Z) : result float :=
  let f := float_of_Z n in
  if is_infinity f then Raise OverflowError else Ok f.

Definition as_float (x : PyNum) : result float :=
  match x with
  | PInt n => float_of_int n
  | PFloat f => Ok f
  end.

(** [n ? f], exact, as Python compares an [int] with a [float];
    [None] for a NaN. *)
Definition Z_compare_float (n : Z) (f : float) : option comparison :=
  match Prim2SF f with
  | S754_nan => None
  | S754_infinity s => Some (if s then Gt else Lt)
  | S754_zero _ => Some (n ?= 0)%Z
  | S754_finite s m e =>
      let v := if s then Zneg m else Zpos m in
      Some (if (0 <=? e)%Z then (n ?= v * 2 ^ e)%Z
            else (n * 2 ^ (- e) ?= v)%Z)
  end.

(** [x < y] *)
Definition lt (x y : PyNum) : bool :=
  match x, y with
  | PInt a, PInt b => (a <? b)%Z
  | PFloat a, PFloat b => (a <? b)%float
  | PInt a, PFloat b =>
      match Z_compare_float a b with Some Lt => true | _ => false end
  | PFloat a, PInt b =>
      match Z_compare_float b a with Some Gt => true | _ => false end
  end.

(** [x > y] *)
Definition gt (x y : PyNum) : bool := lt y x.

(** [0 <= x] *)
Definition nonneg (x : PyNum) : bool :=
  match x with
  | PInt n => (0 <=? n)%Z
  | PFloat f => (0 <=? f)%float
  end.

(** [x == y] *)
Definition eq (x y : PyNum) : bool :=
  match x, y with
  | PInt a, PInt b => (a =? b)%Z
  | PFloat a, PFloat b => (a =? b)%float
  | PInt a, PFloat b | PFloat b, PInt a =>
      match Z_compare_float a b with Some Eq => true | _ => false end
  end.

Definition mul (x y : PyNum) : result PyNum :=
  match x, y with
  | PInt a, PInt b => Ok (PInt (a * b))
  | _, _ => a <- as_float x ;; b <- as_float y ;; Ok (PFloat (a * b))
  end.

Definition add (x y : PyNum) : result PyNum :=
  match x, y with
  | PInt a, PInt b => Ok (PInt (a + b))
  | _, _ => a <- as_float x ;; b <- as_float y ;; Ok (PFloat (a + b))
  end.

Definition sub (x y : PyNum) : result PyNum :=
  match x, y with
  | PInt a, PInt b => Ok (PInt (a - b))
  | _, _ => a <- as_float x ;; b <- as_float y ;; Ok (PFloat (a - b))
  end.

(** [a / b] on two [int]s: the quotient correctly rounded to binary64. *)
Definition int_truediv (a b : Z) : result PyNum :=
  if (b =? 0)%Z then Raise ZeroDivisionError
  else
    let s := xorb (a <? 0)%Z (b <? 0)%Z in
    let q :=
      if (a =? 0)%Z then S754_zero s
      else
        let '(mz, ez, lz) :=
          SFdiv_core_binary prec emax (Z.abs a) 0%Z (Z.abs b) 0%Z in
        binary_round_aux prec emax s mz ez lz in
    match q with
    | S754_infinity _ => Raise OverflowError
    | _ => Ok (PFloat (SF2Prim q))
    end.

(** [x / y], true division. *)
Definition truediv (x y : PyNum) : result PyNum :=
  match x, y with
  | PInt a, PInt b => int_truediv a b
  | _, _ =>
      a <- as_float x ;; b <- as_float y ;;
      if (b =? 0)%float then Raise ZeroDivisionError
      else Ok (PFloat (a / b))
  end.

(** [abs(x)] *)
Definition abs (x : PyNum) : PyNum :=
  match x with
  | PInt n => PInt (Z.abs n)
  | PFloat f => PFloat (PrimFloat.abs f)
  end.

(** [int(x)]: truncation toward zero. *)
Definition int (x : PyNum) : result Z :=
  match x with
  | PInt n => Ok n
  | PFloat f =>
      match Prim2SF f with
      | S754_nan => Raise ValueError
      | S754_infinity _ => Raise OverflowError
      | S754_zero _ => Ok 0%Z
      | S754_finite s m e =>
          let t := if (0 <=? e)%Z then (Zpos m * 2 ^ e)%Z
                   else (Zpos m / 2 ^ (- e))%Z in
          Ok (if s then (- t)%Z else t)
      end
  end.

End PyNumOps.

(** ** class NumRom *)

Module NumRom.
Import PyNumOps.

Definition _valores_romanos : list (str * Z) :=
  [ (lit "M", 1000); (lit "CM", 900); (lit "D", 500); (lit "CD", 400);
    (lit "C", 100); (lit "XC", 90); (lit "L", 50); (lit "XL", 40);
    (lit "X", 10); (lit "IX", 9); (lit "V", 5); (lit "IV", 4);
    (lit "I", 1) ]%Z.

Definition _valores_fracciones : list (str * float) :=
  [ (lit "S", 6 / 12);
    ([middot], 1 / 12);
    ([middot; middot], 2 / 12);
    ([middot; middot; middot], 3 / 12);
    ([middot; middot; middot; middot], 4 / 12);
    ([middot; middot; middot; middot; middot], 5 / 12) ]%float.

Definition invalid_sequences : list str :=
  map lit ["IIII"; "VV"; "XXXX"; "LL"; "CCCC"; "DD"; "MMMM"]%string.

(** [for seq in invalid_sequences: if seq in roman: raise ...] *)
Fixpoint check_sequences (seqs : list str) (roman : str) : result unit :=
  match seqs with
  | [] => Ok tt
  | seq :: seqs' =>
      if contains seq roman
      then Raise (RomanError (SecuenciaInvalida seq))
      else check_sequences seqs' roman
  end.

(** [for i, char in enumerate(roman):
       if char in 'S·' and i < len(roman) - 6: raise ...]
    with [n = len(roman)] and [chars = roman[i:]]. *)
Fixpoint check_fractions (n i : Z) (chars : str) : result unit :=
  match chars with
  | [] => Ok tt
  | char :: chars' =>
      if contains [char] (lit "S" ++ [middot]) && (i <? n - 6)%Z
      then Raise (RomanError FraccionesAlFinal)
      else check_fractions n (i + 1)%Z chars'
  end.

(** [while i < len(roman) and roman.startswith(symbol, i):
       result += value; i += len(symbol)]
    on the state [(result, i)]. *)
Fixpoint consume (fuel : nat) (roman symbol : str) (value : Z)
    (st : Z * nat) : Z * nat :=
  match fuel with
  | O => st
  | S fuel' =>
      let '(result, i) := st in
      if Nat.ltb i (length roman) && startswith roman symbol i
      then consume fuel' roman symbol value
             ((result + value)%Z, i + length symbol)
      else st
  end.

(** [for symbol, value in NumRom._valores_romanos: while ...].  Every
    turn of a [while] advances [i] by a symbol's length and needs
    [i < len(roman)], so [len(roman)] turns are enough
    (lemma [consume_exit]). *)
Definition scan (roman : str) : Z * nat :=
  fold_left
    (fun st sv => consume (length roman) roman (fst sv) (snd sv) st)
    _valores_romanos (0%Z, 0).

(** [for symbol, value in NumRom._valores_fracciones:
       if roman.endswith(symbol): result += value; i += len(symbol); break] *)
Fixpoint fraction (roman : str) (fracs : list (str * float))
    (st : PyNum * nat) : result (PyNum * nat) :=
  match fracs with
  | [] => Ok st
  | (symbol, value) :: fracs' =>
      if endswith roman symbol
      then result <- add (fst st) (PFloat value) ;;
           Ok (result, snd st + length symbol)
      else fraction roman fracs' st
  end.

(** [while integer_part >= value: result += symbol; integer_part -= value]
    on the state [(result, integer_part)]. *)
Fixpoint emit (fuel : nat) (symbol : str) (value : Z)
    (st : str * Z) : str * Z :=
  match fuel with
  | O => st
  | S fuel' =>
      let '(result, integer_part) := st in
      if (integer_part >=? value)%Z
      then emit fuel' symbol value
             (result ++ symbol, (integer_part - value)%Z)
      else st
  end.

(** [for symbol, value in NumRom._valores_romanos: while ...].  Every
    turn takes at least 1 off [integer_part], so [integer_part] turns
    are enough (lemma [emit_exit]). *)
Definition digits (integer_part : Z) : str * Z :=
  fold_left
    (fun st sv => emit (Z.to_nat integer_part) (fst sv) (snd sv) st)
    _valores_romanos ([], integer_part).

(** [min(l, key=key)]: the first item with the least key. *)
Fixpoint min_from {A} (key : A -> result PyNum) (l : list A)
    (best : A) (kbest : PyNum) : result A :=
  match l with
  | [] => Ok best
  | x :: l' =>
      k <- key x ;;
      if lt k kbest then min_from key l' x k
      else min_from key l' best kbest
  end.

Definition py_min {A} (key : A -> result PyNum) (l : list A) : result A :=
  match l with
  | [] => Raise ValueError
  | x :: l' => k <- key x ;; min_from key l' x k
  end.

Definition is_empty (s : str) : bool :=
  match s with [] => true | _ => false end.

Definition a_romano (decimal : PyNum) : result str :=
  if lt decimal (PInt 0) || gt decimal (PFloat 3999.5)
  then Raise (RomanError FueraDeRango)
  else
    integer_part <- int decimal ;;
    fractional_part <- sub decimal (PInt integer_part) ;;
    let result := [] in
    let result :=
      if (integer_part >? 0)%Z then result ++ fst (digits integer_part)
      else result in
    result <-
      (if gt fractional_part (PInt 0)
       then
         closest_fraction <-
           py_min (fun x => d <- sub (PFloat (snd x)) fractional_part ;;
                            Ok (abs d))
                  _valores_fracciones ;;
         Ok (if gt (PFloat (snd closest_fraction)) (PFloat 0.01)
             then result ++ fst closest_fraction
             else result)
       else Ok result) ;;
    Ok (if is_empty result then lit "Nihil" else result).

Section WithUnicode.
Variable unicode_upper : codepoint -> list codepoint.

Definition _valida_romano (roman : str) : result unit :=
  let roman := upper unicode_upper roman in
  check_sequences invalid_sequences roman ;;;
  if existsb (fun f => contains (fst f) roman) _valores_fracciones
  then check_fractions (Z.of_nat (length roman)) 0 roman
  else Ok tt.

Definition a_decimal (roman : str) : result PyNum :=
  if is_empty roman then Raise (RomanError EntradaInvalida)
  else
    let roman := upper unicode_upper roman in
    _valida_romano roman ;;;
    let '(result, i) := scan roman in
    ri <- fraction roman _valores_fracciones (PInt result, i) ;;
    let '(result, i) := ri in
    if negb (Nat.eqb i (length roman))
    then Raise (RomanError (RomanoInvalido roman))
    else Ok result.
End WithUnicode.

End NumRom.

(** ** class MedRom *)

Module MedRom.
Import PyNumOps.

(** The dict [_medidas], in the order it is written: the order is
    what [list(MedRom._medidas.keys())] shows in the error messages.
    [185] and [1480] are Python [int]s, the other factors [float]s. *)
Definition _medidas : list (str * PyNum) :=
  [ (lit "pes", PFloat 0.296);
    (lit "passus", PFloat 1.48);
    (lit "stadium", PInt 185);
    (lit "mille_passus", PInt 1480);
    (lit "libra", PFloat 0.3289);
    (lit "uncia", PFloat (0.3289 / 12));
    (lit "amphora", PFloat 26.2);
    (lit "sextarius", PFloat 0.546) ].

(** [d[k]], and [k in d] when it is [Some]. *)
Fixpoint get (d : list (str * PyNum)) (k : str) : option PyNum :=
  match d with
  | [] => None
  | (k', v) :: d' => if str_eqb k k' then Some v else get d' k
  end.

Definition mem (k : str) (d : list (str * PyNum)) : bool :=
  match get d k with Some _ => true | None => false end.

(** [list(MedRom._medidas.keys())] *)
Definition unidades_disponibles : list str := map fst _medidas.

Section WithUnicode.
Variable unicode_lower : str -> str.

Definition a_modernas (value : PyNum) (unit : str) : result PyNum :=
  let unit := lower unicode_lower unit in
  match get _medidas unit with
  | None =>
      Raise (RomanError (UnidadDesconocida unit unidades_disponibles))
  | Some factor =>
      if lt value (PInt 0) then Raise (RomanError ValorNoNegativo)
      else mul value factor
  end.

Definition a_unidad_romana (value : PyNum) (unit : str) : result PyNum :=
  let unit := lower unicode_lower unit in
  match get _medidas unit with
  | None =>
      Raise (RomanError (UnidadDesconocida unit unidades_disponibles))
  | Some factor =>
      if lt value (PInt 0) then Raise (RomanError ValorNoNegativo)
      else truediv value factor
  end.

Definition conversion_unidades (value : PyNum) (from_unit to_unit : str)
    : result PyNum :=
  let from_unit := lower unicode_lower from_unit in
  let to_unit := lower unicode_lower to_unit in
  if negb (mem from_unit _medidas) || negb (mem to_unit _medidas)
  then Raise (RomanError (UnidadesInvalidas unidades_disponibles))
  else
    modern_value <- a_modernas value from_unit ;;
    a_unidad_romana modern_value to_unit.
End WithUnicode.

End MedRom.

(** ** def cli

    The [try] block of [cli], from the namespace that
    [parser.parse_args()] returns to what the process does. *)

Module Cli.
Import PyNumOps.

(** The namespace: [args.command] with the arguments its sub-parser
    declares ([type=float] makes [decimal] and [value] floats);
    [None_command] is [args.command is None], no sub-command given. *)
Inductive args :=
| None_command
| Command_a_decimal (roman : str)
| Command_a_romano (decimal : float)
| Command_conversion_unidades (value : float) (from_unit to_unit : str).

(** What is handed to [print]: a number or a string. *)
Inductive printed :=
| Number (x : PyNum)
| Text (s : str).

Inductive outcome :=
| Stdout (out : printed)       (* [print(...)], and [cli] returns *)
| Help                         (* [parser.print_help()] *)
| Stderr_exit_1 (msg : message) (* [print(f"Error: {e}", file=sys.stderr); sys.exit(1)] *)
| Traceback (e : exn).         (* an exception that [except RomanError] lets through *)

Section WithUnicode.
Variable unicode_upper : codepoint -> list codepoint.
Variable unicode_lower : str -> str.

Definition cli (args : args) : outcome :=
  let body : result (option printed) :=
    match args with
    | Command_a_decimal roman =>
        x <- NumRom.a_decimal unicode_upper roman ;; Ok (Some (Number x))
    | Command_a_romano decimal =>
        s <- NumRom.a_romano (PFloat decimal) ;; Ok (Some (Text s))
    | Command_conversion_unidades value from_unit to_unit =>
        if str_eqb (lower unicode_lower to_unit) (lit "modern")
        then x <- MedRom.a_modernas unicode_lower (PFloat value) from_unit ;;
             Ok (Some (Number x))
        else x <- MedRom.conversion_unidades unicode_lower (PFloat value)
                    from_unit to_unit ;;
             Ok (Some (Number x))
    | None_command => Ok None
    end in
  match body with
  | Ok (Some out) => Stdout out
  | Ok None => Help
  | Raise (RomanError msg) => Stderr_exit_1 msg
  | Raise e => Traceback e
  end.
End WithUnicode.

End Cli.

(** * Notions used in the properties *)

(** ** Instances of the Unicode parameters

    Used where a property is evaluated on a concrete input: the code
    points above U+00FF are taken caseless. *)

Definition caseless_upper (c : codepoint) : list codepoint := [c].
Definition caseless_lower (s : str) : str := s.

(** ** Numerals *)

(** The value of a one-letter symbol of the digit table (0 for any
    other character). *)
Definition char_value (c : codepoint) : Z :=
  match find (fun sv => str_eqb (fst sv) [c]) NumRom._valores_romanos with
  | Some sv => snd sv
  | None => 0
  end.

(** The values of the characters never increase from left to right. *)
Fixpoint descending (s : str) : bool :=
  match s with
  | a :: (b :: _) as s' => (char_value b <=? char_value a)%Z && descending s'
  | _ => true
  end.

(** [a_decimal(a_romano(n)) == n], with no exception on the way. *)
Definition roundtrip_check (unicode_upper : codepoint -> list codepoint)
    (n : Z) : bool :=
  match NumRom.a_romano (PInt n) with
  | Ok s =>
      match NumRom.a_decimal unicode_upper s with
      | Ok (PInt m) => (m =? n)%Z
      | _ => false
      end
  | Raise _ => false
  end.

(** ** Binary64 values

    The sign classes of a binary64 value in its specification form. *)

(** Zero of either sign, a positive finite value or [+inf]. *)
Definition SF_nonneg (x : spec_float) : bool :=
  match x with
  | S754_zero _ | S754_infinity false | S754_finite false _ _ => true
  | _ => false
  end.

(** A negative finite value or [-inf]. *)
Definition SF_negative (x : spec_float) : bool :=
  match x with
  | S754_infinity true | S754_finite true _ _ => true
  | _ => false
  end.

(** A positive finite value. *)
Definition SF_positive (x : spec_float) : bool :=
  match x with
  | S754_finite false _ _ => true
  | _ => false
  end.

(** ** Measures *)

(** What the proofs use of a conversion factor: it is positive, and in
    float arithmetic it is a positive finite float. *)
Definition positive_factor (factor : PyNum) : Prop :=
  PyNumOps.lt (PInt 0) factor = true
  /\ exists a, PyNumOps.as_float factor = Ok a /\ SF_positive (Prim2SF a) = true.

(** [unit.lower() in MedRom._medidas] *)
Definition known (unicode_lower : str -> str) (unit : str) : bool :=
  MedRom.mem (lower unicode_lower unit) MedRom._medidas.

Definition positive_factorb (factor : PyNum) : bool :=
  PyNumOps.lt (PInt 0) factor
  && match PyNumOps.as_float factor with
     | Ok a => SF_positive (Prim2SF a)
     | Raise _ => false
     end.



(** The three shapes a rounding to sign [sx] can take. *)
Definition rounded_to (sx : bool) (x : spec_float) : Prop :=
  x = S754_zero sx \/ x = S754_infinity sx \/ exists m e, x = S754_finite sx m e.

(** ** Binary64: rounding

    The rounding of [SpecFloat] works on a mantissa that was truncated
    and on the [location] of what was cut off.  For a value [N / D] the
    mantissa is the quotient and the location tells where the remainder
    lies with respect to the half of [D]. *)

Definition loc_of (r D : Z) : location :=
  if (r =? 0)%Z then loc_Exact else loc_Inexact (2 * r ?= D)%Z.

Record located (N D : Z) (mrs : shr_record) : Prop := {
  located_den : (0 < D)%Z;
  located_num : (0 <= N)%Z;
  located_m : shr_m mrs = (N / D)%Z;
  located_loc : loc_of_shr_record mrs = loc_of (N mod D) D
}.

(** The mantissa of a positive normal binary64 value: 53 bits. *)
Definition normal_mantissa (m : positive) : Prop :=
  (2 ^ 52 <= Zpos m < 2 ^ 53)%Z.





(** ** The measures on floats *)


(** A positive normal float whose exponent lies between [lo] and [hi]. *)
Definition normal_between (lo hi : Z) (f : float) : Prop :=
  exists m e,
    Prim2SF f = S754_finite false m e
    /\ normal_mantissa m /\ (lo <= e <= hi)%Z.

Definition float_zero (f : float) : Prop := exists s, Prim2SF f = S754_zero s.

(** The factor of a unit, as the float that enters float arithmetic. *)
Definition factor_of (unit : str) : float :=
  match MedRom.get MedRom._medidas unit with
  | Some factor =>
      match PyNumOps.as_float factor with
      | Ok a => a
      | Raise _ => 0%float
      end
  | None => 0%float
  end.

Definition normal_factorb (factor : PyNum) : bool :=
  match PyNumOps.as_float factor with
  | Ok a =>
      match Prim2SF a with
      | S754_finite false m e =>
          (2 ^ 52 <=? Zpos m)%Z && (Zpos m <? 2 ^ 53)%Z
          && (-58 <=? e)%Z && (e <=? -42)%Z
      | _ => false
      end
  | Raise _ => false
  end.

(** ** Numerals: letters and runs *)

(** The seven letters of the digit table. *)
Definition numeral_letter (c : codepoint) : bool :=
  existsb (N.eqb c) (lit "MDCLXVI").

(** Strings without a letter of the digit table: the fraction glyphs. *)
Definition no_letter (g : str) : bool :=
  forallb (fun c => negb (numeral_letter c)) g.

(** The entries of the digit table: letters only, and a value that is
    positive and at most 1000 a letter. *)
Definition digit_entry (sv : str * Z) : bool :=
  negb (NumRom.is_empty (fst sv))
  && forallb numeral_letter (fst sv)
  && (0 <? snd sv)%Z
  && (snd sv <=? 1000 * Z.of_nat (length (fst sv)))%Z.

(** What has been scanned so far: letters only, worth at most 1000 a
    letter. *)
Definition scanned (roman : str) (st : Z * nat) : Prop :=
  snd st <= length roman
  /\ forallb numeral_letter (firstn (snd st) roman) = true
  /\ (0 <= fst st <= 1000 * Z.of_nat (snd st))%Z.

(** [w * k]: the string [w] repeated [k] times. *)
Definition times (w : str) (k : nat) : str := concat (repeat w k).

(** No character is followed by itself. *)
Fixpoint alternating (r : str) : bool :=
  match r with
  | a :: (b :: _) as r' => negb (N.eqb a b) && alternating r'
  | _ => true
  end.

(** [counts] copies of each symbol, in the order of the table:
    [M * a + CM * b + D * c + ...]. *)
Fixpoint runs (table : list (str * Z)) (counts : list nat) : str :=
  match table, counts with
  | (symbol, _) :: table', n :: counts' => times symbol n ++ runs table' counts'
  | _, _ => []
  end.

(** The sum of the values of these copies. *)
Fixpoint runs_value (table : list (str * Z)) (counts : list nat) : Z :=
  match table, counts with
  | (_, value) :: table', n :: counts' =>
      (value * Z.of_nat n + runs_value table' counts')%Z
  | _, _ => 0%Z
  end.

(** The first two characters that a string of runs of [table] can
    start with. *)
Fixpoint starts (table : list (str * Z)) : list str :=
  match table with
  | [] => [[]]
  | (symbol, _) :: table' =>
      starts table'
      ++ (if Nat.leb 2 (length symbol) then [firstn 2 symbol]
          else (symbol ++ symbol)
               :: map (fun f => symbol ++ firstn 1 f) (starts table'))
  end.

(** No symbol can be read where the runs of the later symbols start:
    each loop of the scan stops at the end of its own run. *)
Fixpoint greedy (table : list (str * Z)) : bool :=
  match table with
  | [] => true
  | (symbol, _) :: table' =>
      forallb (fun f => negb (prefixb symbol f)) (starts table')
      && greedy table'
  end.

(** Symbols of one or two characters. *)
Definition short_symbols (table : list (str * Z)) : bool :=
  forallb (fun sv : str * Z =>
             Nat.leb 1 (length (fst sv)) && Nat.leb (length (fst sv)) 2)
          table.

(** ** Numerals: what [a_romano] writes and [a_decimal] reads back *)

(** The string [a_romano] returns for the integer part [k] when the
    fraction branch appends [glyph] (nothing when [glyph] is empty). *)
Definition numeral_of (k : Z) (glyph : str) : str :=
  let result := [] in
  let result :=
    if (k >? 0)%Z then result ++ fst (NumRom.digits k) else result in
  let result := result ++ glyph in
  if NumRom.is_empty result then lit "Nihil" else result.

(** No glyph, or a glyph of the fraction table. *)
Definition glyphs : list str := [] :: map fst NumRom._valores_fracciones.

(** Equality of two outcomes of [a_decimal], decided: numbers of the
    same type that are identical, or the same invalid-numeral error. *)
Definition result_eqb (r r' : result PyNum) : bool :=
  match r, r' with
  | Ok (PInt a), Ok (PInt b) => (a =? b)%Z
  | Ok (PFloat a), Ok (PFloat b) => PrimFloat.Leibniz.eqb a b
  | Raise (RomanError (RomanoInvalido a)), Raise (RomanError (RomanoInvalido b)) =>
      str_eqb a b
  | _, _ => false
  end.

(** What [a_decimal] makes of a numeral [s] that [a_romano] wrote for
    the integer part [k]: "Nihil" and the numerals that end in two dots
    or more are rejected, S adds a half, one dot a twelfth. *)
Definition read_back (unicode_upper : codepoint -> list codepoint)
    (k : Z) (s : str) : result PyNum :=
  if str_eqb s (lit "Nihil") || endswith s [middot; middot]
  then Raise (RomanError (RomanoInvalido (upper unicode_upper s)))
  else if endswith s (lit "S") then PyNumOps.add (PInt k) (PFloat (6 / 12))
  else if endswith s [middot] then PyNumOps.add (PInt k) (PFloat (1 / 12))
  else Ok (PInt k).

(** The check of [read_back] on the numerals of one integer part. *)
Definition numeral_check (unicode_upper : codepoint -> list codepoint)
    (k : Z) : bool :=
  forallb
    (fun glyph =>
       let s := numeral_of k glyph in
       str_eqb (upper unicode_upper (upper unicode_upper s))
               (upper unicode_upper s)
       && result_eqb (NumRom.a_decimal unicode_upper s)
                     (read_back unicode_upper k s))
    glyphs.

(** The digits of [k] are upper case and read back as [k]. *)
Definition digits_check (unicode_upper : codepoint -> list codepoint)
    (k : Z) : bool :=
  let s := fst (NumRom.digits k) in
  str_eqb (upper unicode_upper s) s
  && result_eqb (NumRom.a_decimal unicode_upper s) (Ok (PInt k)).

(** [a_decimal(a_romano(n + fraction)) == n + fraction], with no
    exception on the way. *)
Definition fraction_check (unicode_upper : codepoint -> list codepoint)
    (fraction : float) (n : Z) : bool :=
  let x := (PyNumOps.float_of_Z n + fraction)%float in
  match NumRom.a_romano (PFloat x) with
  | Ok s => result_eqb (NumRom.a_decimal unicode_upper s) (Ok (PFloat x))
  | Raise _ => false
  end.

(** The integers of the range as floats: exact. *)
Definition exact_float (k : Z) : bool :=
  match Prim2SF (PyNumOps.float_of_Z k) with
  | S754_finite false m e =>
      (emin <=? e)%Z && (e <=? 0)%Z && (Zpos m =? k * 2 ^ (- e))%Z
  | _ => false
  end.

(** * Properties *)

Import PyNumOps.

(** ** Numbers *)

Lemma float_of_int_cases n :
  float_of_int n = Raise OverflowError \/ float_of_int n = Ok (float_of_Z n).
Proof. unfold float_of_int. destruct (is_infinity _); auto. Qed.

(** ** Strings *)

Lemma prefixb_app p t : prefixb p (p ++ t) = true.
Proof.
  induction p as [|a p IH]; simpl; [reflexivity|].
  now rewrite N.eqb_refl, IH.
Qed.

Lemma prefixb_inv p s : prefixb p s = true -> exists t, s = p ++ t.
Proof.
  revert s; induction p as [|a p IH]; intros s H.
  - now exists s.
  - destruct s as [|b s]; simpl in H; [discriminate|].
    apply andb_true_iff in H as [Hab Hp].
    apply N.eqb_eq in Hab; subst b.
    destruct (IH _ Hp) as [t ->]. now exists t.
Qed.

Lemma contains_prefix q r : prefixb q r = true -> contains q r = true.
Proof. intros H. destruct r; simpl; rewrite H; reflexivity. Qed.

Lemma contains_app q a b : contains q (a ++ q ++ b) = true.
Proof.
  induction a as [|x a IH]; simpl.
  - apply contains_prefix, prefixb_app.
  - rewrite IH. apply orb_true_r.
Qed.

Lemma contains_inv q r :
  contains q r = true -> exists a b, r = a ++ q ++ b.
Proof.
  induction r as [|x r IH]; simpl; intros H.
  - rewrite orb_false_r in H. apply prefixb_inv in H as [t ->].
    now exists [], t.
  - apply orb_true_iff in H as [H|H].
    + apply prefixb_inv in H as [t ->]. now exists [], t.
    + destruct (IH H) as (a & b & ->). now exists (x :: a), b.
Qed.

Lemma last_app_r {A} (l l' : list A) (d : A) :
  l' <> [] -> last (l ++ l') d = last l' d.
Proof.
  intros H. induction l as [|a l IH]; [reflexivity|].
  simpl. destruct (l ++ l') eqn:E; [|exact IH].
  apply app_eq_nil in E as [_ ->]. congruence.
Qed.

Lemma str_eqb_eq a b : str_eqb a b = true <-> a = b.
Proof.
  unfold str_eqb. destruct (list_eq_dec N.eq_dec a b); split; congruence.
Qed.


Section UpperFacts.
Variable unicode_upper : codepoint -> list codepoint.
Local Abbreviation upper := (PyStr.upper unicode_upper).

Lemma upper_app a b : upper (a ++ b) = upper a ++ upper b.
Proof. apply flat_map_app. Qed.

(** The seven forbidden sequences are already upper case. *)
Lemma upper_invalid_sequence seq :
  In seq NumRom.invalid_sequences -> upper seq = seq.
Proof.
  intros H. repeat (destruct H as [<-|H]; [reflexivity|]). destruct H.
Qed.

Lemma contains_upper_twice seq s :
  In seq NumRom.invalid_sequences ->
  contains seq (upper s) = true -> contains seq (upper (upper s)) = true.
Proof.
  intros Hin H. apply contains_inv in H as (a & b & ->).
  rewrite !upper_app, (upper_invalid_sequence _ Hin).
  apply contains_app.
Qed.

End UpperFacts.

Lemma check_sequences_raises seqs seq roman :
  In seq seqs -> contains seq roman = true ->
  exists seq', In seq' seqs
    /\ NumRom.check_sequences seqs roman
       = Raise (RomanError (SecuenciaInvalida seq')).
Proof.
  induction seqs as [|x seqs IH]; intros Hin Hc; [destruct Hin|].
  simpl. destruct (contains x roman) eqn:Hx.
  - exists x. split; [now left | reflexivity].
  - destruct Hin as [->|Hin]; [congruence|].
    destruct (IH Hin Hc) as (seq' & Hin' & Heq).
    exists seq'. split; [now right | exact Heq].
Qed.

(** ** NumRom.a_decimal: forbidden sequences *)

(** C3. For each of the seven forbidden substrings, every string whose
    upper-cased form contains it makes [a_decimal] raise the
    invalid-sequence error (naming a forbidden substring it found) and
    return no value. *)
Theorem a_decimal_forbidden_sequence
    (unicode_upper : codepoint -> list codepoint) (seq s : str) :
  In seq NumRom.invalid_sequences ->
  contains seq (upper unicode_upper s) = true ->
  exists seq', In seq' NumRom.invalid_sequences
    /\ NumRom.a_decimal unicode_upper s
       = Raise (RomanError (SecuenciaInvalida seq')).
Proof.
  intros Hin Hc.
  assert (Hne : NumRom.is_empty s = false).
  { destruct s; [|reflexivity]. exfalso.
    repeat (destruct Hin as [<-|Hin]; [discriminate Hc|]). destruct Hin. }
  pose proof (contains_upper_twice unicode_upper _ _ Hin Hc) as Hc2.
  destruct (check_sequences_raises _ _ _ Hin Hc2) as (seq' & Hin' & Heq).
  exists seq'. split; [exact Hin'|].
  unfold NumRom.a_decimal, NumRom._valida_romano.
  rewrite Hne. cbv zeta. rewrite Heq. reflexivity.
Qed.

(** An instance: "xiiiiv", lower case, with the sequence in the middle. *)
Lemma a_decimal_forbidden_sequence_witness :
  exists seq', In seq' NumRom.invalid_sequences
    /\ NumRom.a_decimal caseless_upper (lit "xiiiiv")
       = Raise (RomanError (SecuenciaInvalida seq')).
Proof.
  apply (a_decimal_forbidden_sequence caseless_upper (lit "IIII")).
  - vm_compute. now left.
  - vm_compute. reflexivity.
Defined.

(** ** The [while] loops leave by their condition

    The two loops are modelled with a bound on their turns; with the
    bounds [scan] and [digits] give them, the loops stop because their
    condition is false, never because the bound is reached. *)

Lemma consume_exit roman symbol value fuel result i :
  symbol <> [] ->
  length roman - i <= fuel ->
  let '(_, i') := NumRom.consume fuel roman symbol value (result, i) in
  Nat.ltb i' (length roman) && startswith roman symbol i' = false.
Proof.
  intros Hs. revert result i.
  induction fuel as [|fuel IH]; intros result i Hf; simpl.
  - replace (Nat.ltb i (length roman)) with false; [reflexivity|].
    symmetry. apply Nat.ltb_ge. lia.
  - destruct (Nat.ltb i (length roman) && startswith roman symbol i) eqn:E.
    + apply IH. destruct symbol; [congruence|]. simpl. lia.
    + exact E.
Qed.


Lemma emit_exit symbol value fuel result integer_part :
  (0 < value)%Z ->
  (integer_part <= Z.of_nat fuel)%Z ->
  let '(_, rest) := NumRom.emit fuel symbol value (result, integer_part) in
  (rest < value)%Z.
Proof.
  intros Hv. revert result integer_part.
  induction fuel as [|fuel IH]; intros result integer_part Hf; simpl.
  - lia.
  - destruct (integer_part >=? value)%Z eqn:E.
    + apply IH. lia.
    + lia.
Qed.

Lemma emit_appends symbol value fuel st :
  exists t, fst (NumRom.emit fuel symbol value st) = fst st ++ t.
Proof.
  revert st. induction fuel as [|fuel IH]; intros [result n]; simpl.
  - exists []. now rewrite app_nil_r.
  - destruct (n >=? value)%Z.
    + destruct (IH (result ++ symbol, (n - value)%Z)) as [t Ht].
      rewrite Ht. simpl. exists (symbol ++ t). now rewrite app_assoc.
    + exists []. now rewrite app_nil_r.
Qed.

Lemma emit_fold_appends fuel table st :
  exists t,
    fst (fold_left (fun st sv => NumRom.emit fuel (fst sv) (snd sv) st) table st)
    = fst st ++ t.
Proof.
  revert st. induction table as [|[symbol value] table IH]; intros st; simpl.
  - exists []. now rewrite app_nil_r.
  - destruct (emit_appends symbol value fuel st) as [t1 H1].
    destruct (IH (NumRom.emit fuel symbol value st)) as [t2 H2].
    rewrite H2, H1. exists (t1 ++ t2). now rewrite app_assoc.
Qed.

(** Every [while] of [scan] leaves by its condition. *)
Lemma scan_while_exits roman symbol value result i :
  In (symbol, value) NumRom._valores_romanos ->
  let '(_, i') :=
    NumRom.consume (length roman) roman symbol value (result, i) in
  Nat.ltb i' (length roman) && startswith roman symbol i' = false.
Proof.
  intros Hin. apply consume_exit; [|lia].
  repeat (destruct Hin as [Hin|Hin]; [injection Hin as <- <-; discriminate|]).
  destruct Hin.
Qed.

Lemma emit_bounds symbol value fuel result integer_part :
  (0 < value)%Z -> (0 <= integer_part)%Z ->
  (0 <= snd (NumRom.emit fuel symbol value (result, integer_part))
   <= integer_part)%Z.
Proof.
  intros Hv. revert result integer_part.
  induction fuel as [|fuel IH]; intros result n Hn; cbn [NumRom.emit snd];
    [lia|].
  destruct (n >=? value)%Z eqn:E; cbn [snd]; [|lia].
  apply Z.geb_le in E.
  assert (Hn' : (0 <= n - value)%Z) by lia.
  specialize (IH (result ++ symbol) (n - value)%Z Hn').
  set (rest := snd _) in *. lia.
Qed.

Lemma emit_fold_bounds fuel table st :
  Forall (fun sv => 0 < snd sv)%Z table ->
  (0 <= snd st)%Z ->
  (0 <= snd (fold_left
               (fun st sv => NumRom.emit fuel (fst sv) (snd sv) st) table st)
   <= snd st)%Z.
Proof.
  intros Hpos. revert st.
  induction Hpos as [|[symbol value] table Hv Hpos IH]; intros [result k] Hk;
    cbn [fold_left fst snd] in *; [lia|].
  pose proof (emit_bounds symbol value fuel result k Hv Hk) as Hb.
  set (st := NumRom.emit fuel symbol value (result, k)) in *.
  specialize (IH st (proj1 Hb)). lia.
Qed.

(** The loops of [digits] use up the integer part: the last of them,
    for I, leaves by its condition [integer_part >= 1] being false. *)
Lemma digits_consumes n : (0 <= n)%Z -> snd (NumRom.digits n) = 0%Z.
Proof.
  intros Hn. unfold NumRom.digits.
  change NumRom._valores_romanos
    with (removelast NumRom._valores_romanos ++ [(lit "I", 1%Z)]).
  rewrite fold_left_app. cbn [fold_left fst snd].
  set (st := fold_left _ (removelast NumRom._valores_romanos) _).
  assert (Hst : (0 <= snd st <= n)%Z).
  { subst st. apply (emit_fold_bounds (Z.to_nat n)); [|simpl; lia].
    repeat constructor. }
  destruct st as [result k]. cbn [snd] in Hst.
  assert (H1 : (0 < 1)%Z) by lia.
  assert (Hfuel : (k <= Z.of_nat (Z.to_nat n))%Z) by lia.
  pose proof (emit_exit (lit "I") 1 (Z.to_nat n) result k H1 Hfuel) as He.
  pose proof (emit_bounds (lit "I") 1 (Z.to_nat n) result k H1 (proj1 Hst))
    as Hb.
  destruct (NumRom.emit (Z.to_nat n) (lit "I") 1 (result, k)) as [r' k'].
  cbn [snd] in *. lia.
Qed.

Lemma digits_unfold n :
  NumRom.digits n
  = fold_left
      (fun st sv => NumRom.emit (Z.to_nat n) (fst sv) (snd sv) st)
      (tl NumRom._valores_romanos)
      (NumRom.emit (Z.to_nat n) (lit "M") 1000 ([], n)).
Proof. reflexivity. Qed.

(** From 1000 on, the numeral starts with an M. *)
Lemma digits_thousands n :
  (1000 <= n)%Z -> exists t, fst (NumRom.digits n) = lit "M" ++ t.
Proof.
  intros Hn. rewrite digits_unfold.
  destruct (emit_fold_appends (Z.to_nat n) (tl NumRom._valores_romanos)
              (NumRom.emit (Z.to_nat n) (lit "M") 1000 ([], n))) as [t2 ->].
  destruct (Z.to_nat n) as [|fuel] eqn:Ef; [lia|].
  cbn [NumRom.emit].
  replace (n >=? 1000)%Z with true by (symmetry; apply Z.geb_le; lia).
  destruct (emit_appends (lit "M") 1000 fuel ([] ++ lit "M", (n - 1000)%Z))
    as [t1 ->].
  exists (t1 ++ t2). reflexivity.
Qed.

(** A check of every integer of a range, by evaluation. *)
Lemma forallb_range (P : Z -> bool) (lo n : nat) :
  forallb P (map Z.of_nat (seq lo n)) = true ->
  forall k, (Z.of_nat lo <= k < Z.of_nat (lo + n))%Z -> P k = true.
Proof.
  intros H k Hk. rewrite forallb_forall in H. apply H.
  apply in_map_iff. exists (Z.to_nat k). split; [lia|].
  apply in_seq. lia.
Qed.

(** ** NumRom: the round trip on integers *)

(** C1. For every integer n from 1 to 3999, [a_romano] gives a numeral
    and [a_decimal] of that numeral is exactly n; neither raises. *)
Theorem a_decimal_a_romano
    (unicode_upper : codepoint -> list codepoint) (n : Z) :
  (1 <= n <= 3999)%Z ->
  exists s, NumRom.a_romano (PInt n) = Ok s
    /\ NumRom.a_decimal unicode_upper s = Ok (PInt n).
Proof.
  intros Hn.
  assert (H : roundtrip_check unicode_upper n = true).
  { apply (forallb_range (roundtrip_check unicode_upper) 1 3999);
      [vm_compute; reflexivity | lia]. }
  unfold roundtrip_check in H.
  destruct (NumRom.a_romano (PInt n)) as [s|]; [|discriminate].
  exists s. split; [reflexivity|].
  destruct (NumRom.a_decimal unicode_upper s) as [[m|]|]; try discriminate.
  apply Z.eqb_eq in H. now subst.
Qed.

(** An instance: 1994. *)
Lemma a_decimal_a_romano_witness :
  exists s, NumRom.a_romano (PInt 1994) = Ok s
    /\ NumRom.a_decimal caseless_upper s = Ok (PInt 1994).
Proof. apply (a_decimal_a_romano caseless_upper 1994). lia. Defined.

(** ** NumRom.a_decimal: fraction glyphs *)

(** The scan never passes a dot: no symbol of the digit table has one. *)
Lemma prefixb_before_dot symbol w t :
  ~ In middot symbol ->
  prefixb symbol (w ++ middot :: t) = true -> length symbol <= length w.
Proof.
  revert w. induction symbol as [|a symbol IH]; intros w Hnin H; simpl; [lia|].
  destruct w as [|b w]; simpl in H; apply andb_true_iff in H as [Ha H].
  - apply N.eqb_eq in Ha. subst a. exfalso. apply Hnin. now left.
  - apply IH in H; [simpl; lia|]. intros Hc. apply Hnin. now right.
Qed.

Lemma consume_before_dot w t symbol value fuel st :
  ~ In middot symbol ->
  snd st <= length w ->
  snd (NumRom.consume fuel (w ++ middot :: t) symbol value st) <= length w.
Proof.
  intros Hnin. revert st.
  induction fuel as [|fuel IH]; intros [result i] Hi; cbn [NumRom.consume];
    [exact Hi|].
  destruct (Nat.ltb i _ && startswith _ symbol i) eqn:E; [|exact Hi].
  apply IH. cbn [snd] in *.
  apply andb_true_iff in E as [_ E]. unfold startswith in E.
  apply andb_true_iff in E as [_ E].
  rewrite skipn_app in E. replace (i - length w) with 0 in E by lia.
  cbn [skipn] in E. apply prefixb_before_dot in E; [|exact Hnin].
  rewrite length_skipn in E. lia.
Qed.

Lemma scan_before_dot w t :
  snd (NumRom.scan (w ++ middot :: t)) <= length w.
Proof.
  unfold NumRom.scan.
  assert (Hall : Forall (fun sv : str * Z => ~ In middot (fst sv))
                   NumRom._valores_romanos).
  { repeat constructor; cbn; intros H;
      repeat (destruct H as [H|H]; [discriminate H|]); exact H. }
  set (roman := w ++ middot :: t).
  assert (H0 : snd (0%Z, 0) <= length w) by (simpl; lia).
  revert H0. generalize (0%Z, 0).
  induction Hall as [|[symbol value] table Hs Hall IH]; intros st Hst;
    cbn [fold_left fst snd]; [exact Hst|].
  apply IH. now apply consume_before_dot.
Qed.

Lemma endswith_two_dots w :
  endswith (w ++ [middot; middot]) (lit "S") = false
  /\ endswith (w ++ [middot; middot]) [middot] = true.
Proof.
  unfold endswith. rewrite length_app. cbn [length lit].
  replace (length w + 2 - 1) with (length w + 1) by lia.
  rewrite skipn_app, skipn_all2 by lia.
  replace (length w + 1 - length w) with 1 by lia.
  replace (Nat.leb 1 (length w + 2)) with true
    by (symmetry; apply Nat.leb_le; lia).
  split; reflexivity.
Qed.

(** A numeral that ends in two dots or more is never read. *)
Lemma a_decimal_two_dots
    (unicode_upper : codepoint -> list codepoint) (s w : str) :
  upper unicode_upper s = w ++ [middot; middot] ->
  raises (NumRom.a_decimal unicode_upper s) = true.
Proof.
  intros E. unfold NumRom.a_decimal.
  destruct s as [|c s]; [reflexivity|]. cbn [NumRom.is_empty].
  rewrite E.
  destruct (NumRom._valida_romano unicode_upper _); [|reflexivity].
  cbn [bind].
  pose proof (scan_before_dot w [middot]) as Hi.
  destruct (NumRom.scan (w ++ [middot; middot])) as [result i].
  cbn [snd] in Hi.
  destruct (endswith_two_dots w) as [HS Hdot].
  unfold NumRom._valores_fracciones. cbn [NumRom.fraction].
  rewrite HS, Hdot. cbn [fst snd add as_float bind].
  destruct (float_of_int_cases result) as [-> | ->]; [reflexivity|].
  cbn [bind].
  replace (Nat.eqb (i + length [middot]) (length (w ++ [middot; middot])))
    with false; [reflexivity|].
  symmetry. apply Nat.eqb_neq. rewrite length_app. simpl. lia.
Qed.


(** The glyphs that are read: S, and one dot. *)
Lemma a_decimal_one_glyph (unicode_upper : codepoint -> list codepoint) :
  NumRom.a_decimal unicode_upper (lit "XIIS") = Ok (PFloat 12.5)
  /\ NumRom.a_decimal unicode_upper (lit "XII" ++ [middot])
     = Ok (PFloat (12 + 1 / 12)).
Proof. split; vm_compute; reflexivity. Qed.

(** C2 (a defect of the code). "XII" gives 12, equal to 12.0; but the
    glyph of 3/12 after "XII" is not read as 12.25: the fraction loop
    takes the first table entry the string ends with, and a string that
    ends in three dots ends in one dot, so 1/12 is added, one character
    is counted, and the numeral is rejected as invalid.  The same
    happens to every numeral that ends in two dots or more, although
    [a_romano] itself writes 12.25 as "XII" and three dots. *)
Theorem a_decimal_three_dots_rejected
    (unicode_upper : codepoint -> list codepoint) :
  NumRom.a_decimal unicode_upper (lit "XII") = Ok (PInt 12)
  /\ PyNumOps.eq (PInt 12) (PFloat 12) = true
  /\ NumRom.a_romano (PFloat 12.25)
     = Ok (lit "XII" ++ [middot; middot; middot])
  /\ NumRom.a_decimal unicode_upper (lit "XII" ++ [middot; middot; middot])
     = Raise (RomanError
                (RomanoInvalido (lit "XII" ++ [middot; middot; middot])))
  /\ (forall s w,
        upper unicode_upper s = w ++ [middot; middot] ->
        raises (NumRom.a_decimal unicode_upper s) = true).
Proof.
  split; [vm_compute; reflexivity|].
  split; [vm_compute; reflexivity|].
  split; [vm_compute; reflexivity|].
  split; [vm_compute; reflexivity|].
  apply a_decimal_two_dots.
Qed.

(** An instance: "vii" and five dots. *)
Lemma a_decimal_three_dots_rejected_witness :
  raises (NumRom.a_decimal caseless_upper
            (lit "vii" ++ [middot; middot; middot; middot; middot]))
  = true.
Proof.
  apply (proj2 (proj2 (proj2 (proj2
           (a_decimal_three_dots_rejected caseless_upper))))
           _ (lit "VII" ++ [middot; middot; middot])).
  vm_compute. reflexivity.
Defined.

(** ** NumRom.a_romano: range and listed points *)

(** C6. [a_romano(3999.5)] returns a numeral, "MMMCMXCIXS";
    [a_romano(3999.51)], and
    every number above 3999.5 or below 0, raises the out-of-range
    error. *)
Theorem a_romano_range :
  NumRom.a_romano (PFloat 3999.5) = Ok (lit "MMMCMXCIXS")
  /\ NumRom.a_romano (PFloat 3999.51) = Raise (RomanError FueraDeRango)
  /\ (forall decimal,
        gt decimal (PFloat 3999.5) = true \/ lt decimal (PInt 0) = true ->
        NumRom.a_romano decimal = Raise (RomanError FueraDeRango)).
Proof.
  split; [|split].
  - vm_compute. reflexivity.
  - vm_compute. reflexivity.
  - intros decimal H. unfold NumRom.a_romano.
    destruct H as [-> | ->]; [rewrite orb_true_r|]; reflexivity.
Qed.

(** Instances: the int 4000 and the float -0.5. *)
Lemma a_romano_range_witness :
  NumRom.a_romano (PInt 4000) = Raise (RomanError FueraDeRango)
  /\ NumRom.a_romano (PFloat (-0.5)) = Raise (RomanError FueraDeRango).
Proof.
  split.
  - apply (proj2 (proj2 a_romano_range) (PInt 4000)).
    left. vm_compute. reflexivity.
  - apply (proj2 (proj2 a_romano_range) (PFloat (-0.5))).
    right. vm_compute. reflexivity.
Defined.

(** C7. [a_romano] gives "Nihil" on 0, "IV" on 4, "IX" on 9, "XL" on 40
    and "MCMXCIV" on 1994. *)
Theorem a_romano_listed_points :
  NumRom.a_romano (PInt 0) = Ok (lit "Nihil")
  /\ NumRom.a_romano (PInt 4) = Ok (lit "IV")
  /\ NumRom.a_romano (PInt 9) = Ok (lit "IX")
  /\ NumRom.a_romano (PInt 40) = Ok (lit "XL")
  /\ NumRom.a_romano (PInt 1994) = Ok (lit "MCMXCIV").
Proof. repeat split; vm_compute; reflexivity. Qed.

(** ** NumRom: a malformed numeral that is accepted *)

Lemma min_from_In {A} (key : A -> result PyNum) l best kbest x :
  NumRom.min_from key l best kbest = Ok x -> x = best \/ In x l.
Proof.
  revert best kbest. induction l as [|y l IH]; intros best kbest H; simpl in H.
  - left. congruence.
  - destruct (key y) as [k|]; simpl in H; [|discriminate].
    destruct (lt k kbest); apply IH in H as [->|H]; auto using in_cons, in_eq.
Qed.

Lemma py_min_In {A} (key : A -> result PyNum) l x :
  NumRom.py_min key l = Ok x -> In x l.
Proof.
  destruct l as [|y l]; simpl; [discriminate|].
  destruct (key y) as [k|]; simpl; [|discriminate].
  intros H. apply min_from_In in H as [->|H]; auto using in_cons, in_eq.
Qed.

(** What [a_romano] returns: "Nihil", or the digits of a positive
    integer part (or nothing) followed by a fraction glyph (or
    nothing). *)
Lemma a_romano_shape decimal s :
  NumRom.a_romano decimal = Ok s ->
  s = lit "Nihil"
  \/ exists body glyph,
       s = body ++ glyph
       /\ (body = [] \/ exists k, (0 < k)%Z /\ body = fst (NumRom.digits k))
       /\ (glyph = [] \/ exists v, In (glyph, v) NumRom._valores_fracciones).
Proof.
  unfold NumRom.a_romano.
  destruct (lt decimal (PInt 0) || gt decimal (PFloat 3999.5)); [discriminate|].
  destruct (int decimal) as [k|]; [|discriminate]. cbn [bind].
  destruct (sub decimal (PInt k)) as [fp|]; [|discriminate]. cbn [bind].
  set (body := if (k >? 0)%Z then [] ++ fst (NumRom.digits k) else []).
  assert (Hbody : body = [] \/ exists k, (0 < k)%Z /\ body = fst (NumRom.digits k)).
  { subst body. destruct (k >? 0)%Z eqn:E; [right|now left].
    exists k. split; [lia|reflexivity]. }
  assert (Hend : forall r d : str,
            (if NumRom.is_empty r then d else r) = d
            \/ (if NumRom.is_empty r then d else r) = r).
  { intros r d. destruct (NumRom.is_empty r); auto. }
  assert (Hfin : forall r glyph,
            (glyph = [] \/ exists v, In (glyph, v) NumRom._valores_fracciones) ->
            r = body ++ glyph ->
            (if NumRom.is_empty r then lit "Nihil" else r) = lit "Nihil"
            \/ exists body glyph,
                 (if NumRom.is_empty r then lit "Nihil" else r) = body ++ glyph
                 /\ (body = [] \/ exists k, (0 < k)%Z
                                  /\ body = fst (NumRom.digits k))
                 /\ (glyph = [] \/ exists v,
                                   In (glyph, v) NumRom._valores_fracciones)).
  { intros r glyph Hg ->.
    destruct (Hend (body ++ glyph) (lit "Nihil")) as [-> | ->]; [now left|].
    right. exists body, glyph. auto. }
  destruct (gt fp (PInt 0)).
  - destruct (NumRom.py_min _ _) as [[glyph v]|] eqn:Emin; [|discriminate].
    apply py_min_In in Emin. cbn [bind fst snd].
    intros H. injection H as <-.
    match goal with
    | |- context [if ?c then body ++ glyph else body] => destruct c
    end.
    + apply (Hfin _ glyph); [eauto | reflexivity].
    + apply (Hfin _ []); [auto | now rewrite app_nil_r].
  - cbn [bind]. intros H. injection H as <-.
    apply (Hfin _ []); [auto | now rewrite app_nil_r].
Qed.

Lemma digits_not_IXI k : (0 < k)%Z -> fst (NumRom.digits k) <> lit "IXI".
Proof.
  intros Hk. destruct (Z_lt_le_dec k 1000) as [Hlt|Hge].
  - assert (H : negb (str_eqb (fst (NumRom.digits k)) (lit "IXI")) = true).
    { apply (forallb_range
               (fun k => negb (str_eqb (fst (NumRom.digits k)) (lit "IXI")))
               1 999); [vm_compute; reflexivity | lia]. }
    intros E. rewrite E in H. discriminate H.
  - destruct (digits_thousands k Hge) as [t ->]. discriminate.
Qed.

(** C9. "IXI" has its characters out of descending order (I, X, I) and
    [a_romano] returns it for no input, yet [a_decimal] accepts it: the
    table pass for IX takes the first two characters, the pass for I the
    third, and the result is 10. *)
Theorem a_decimal_accepts_IXI
    (unicode_upper : codepoint -> list codepoint) :
  NumRom.a_decimal unicode_upper (lit "IXI") = Ok (PInt 10)
  /\ descending (lit "IXI") = false
  /\ (forall decimal, NumRom.a_romano decimal <> Ok (lit "IXI")).
Proof.
  split; [vm_compute; reflexivity|].
  split; [vm_compute; reflexivity|].
  intros decimal H. apply a_romano_shape in H as [H|H]; [discriminate H|].
  destruct H as (body & glyph & E & Hbody & Hglyph).
  destruct Hglyph as [->|[v Hin]].
  - rewrite app_nil_r in E. subst body.
    destruct Hbody as [H|(k & Hk & H)]; [discriminate H|].
    symmetry in H. revert H. now apply digits_not_IXI.
  - assert (Hlast : last (body ++ glyph) 0%N = last glyph 0%N).
    { apply last_app_r.
      repeat (destruct Hin as [Hin|Hin]; [injection Hin as <- <-; discriminate|]).
      destruct Hin. }
    rewrite <- E in Hlast.
    repeat (destruct Hin as [Hin|Hin]; [injection Hin as <- <-; discriminate Hlast|]).
    destruct Hin.
Qed.

(** ** Binary64: signs

    What the rounding of [SpecFloat] does to a mantissa that is not
    negative: the result is a zero, a finite value or an infinity of the
    sign that was asked for, never a NaN. *)

Section Signs.
Local Open Scope Z_scope.

Lemma shr_1_nonneg mrs : 0 <= shr_m mrs -> 0 <= shr_m (shr_1 mrs).
Proof.
  destruct mrs as [m r s]. simpl.
  destruct m as [|[p|p|]|[p|p|]]; simpl; lia.
Qed.

Lemma iter_pos_invariant {A} (P : A -> Prop) (f : A -> A) :
  (forall x, P x -> P (f x)) ->
  forall n x, P x -> P (SpecFloat.iter_pos f n x).
Proof.
  intros Hf. induction n as [n IH|n IH|]; intros x Hx; simpl; auto.
Qed.

Lemma shr_nonneg mrs e n : 0 <= shr_m mrs -> 0 <= shr_m (fst (shr mrs e n)).
Proof.
  intros H. destruct n as [|p|p]; simpl; trivial.
  now apply (iter_pos_invariant (fun mrs => 0 <= shr_m mrs) shr_1 shr_1_nonneg).
Qed.

Lemma shr_record_of_loc_m m l : shr_m (shr_record_of_loc m l) = m.
Proof. destruct l as [|[]]; reflexivity. Qed.

Lemma shr_fexp_nonneg m e l :
  0 <= m -> 0 <= shr_m (fst (shr_fexp prec emax m e l)).
Proof.
  intros H. unfold shr_fexp. apply shr_nonneg.
  now rewrite shr_record_of_loc_m.
Qed.

Lemma round_nearest_even_nonneg m l : 0 <= m -> 0 <= round_nearest_even m l.
Proof.
  intros H. unfold round_nearest_even.
  destruct l as [|[]]; try destruct (Z.even m); lia.
Qed.

Lemma binary_round_aux_sign sx mx ex lx :
  0 <= mx -> rounded_to sx (binary_round_aux prec emax sx mx ex lx).
Proof.
  intros H. unfold binary_round_aux.
  pose proof (shr_fexp_nonneg mx ex lx H) as H1.
  destruct (shr_fexp prec emax mx ex lx) as [mrs' e']. simpl in H1.
  pose proof (shr_fexp_nonneg _ e' loc_Exact
                (round_nearest_even_nonneg _ (loc_of_shr_record mrs') H1)) as H2.
  destruct (shr_fexp prec emax _ e' loc_Exact) as [mrs'' e'']. simpl in H2.
  destruct (shr_m mrs'') as [|m|m]; [now left| |lia].
  destruct (e'' <=? emax - prec); [right; right; eauto | right; now left].
Qed.

Lemma binary_round_sign sx mx ex :
  rounded_to sx (binary_round prec emax sx mx ex).
Proof.
  unfold binary_round.
  destruct (shl_align mx ex _) as [mz ez].
  apply binary_round_aux_sign. lia.
Qed.

Lemma rounded_to_nonneg x : rounded_to false x -> SF_nonneg x = true.
Proof. intros [->|[->|(m & e & ->)]]; reflexivity. Qed.

Lemma binary_normalize_nonneg m e :
  0 <= m -> SF_nonneg (binary_normalize prec emax m e false) = true.
Proof.
  intros H. destruct m as [|m|m]; [reflexivity| |lia].
  apply rounded_to_nonneg, binary_round_sign.
Qed.

Lemma SFmul_nonneg x y :
  SF_nonneg x = true -> SF_positive y = true -> SF_nonneg (SF64mul x y) = true.
Proof.
  destruct y as [| | |[] my ey]; try discriminate. intros Hx _.
  destruct x as [sx|[]| |[] mx ex]; try discriminate; try reflexivity.
  apply rounded_to_nonneg. apply binary_round_aux_sign. lia.
Qed.

Lemma SFdiv_core_nonneg mx ex my ey :
  0 <= fst (fst (SFdiv_core_binary prec emax (Zpos mx) ex (Zpos my) ey)).
Proof.
  unfold SFdiv_core_binary.
  set (s := _ - _ - _).
  set (m' := match s with Z0 => _ | Zpos _ => _ | Zneg _ => _ end).
  assert (Hm : 0 <= m').
  { subst m'. destruct s; [lia| |lia]. apply Z.shiftl_nonneg. lia. }
  pose proof (Z.div_pos m' (Zpos my) Hm ltac:(lia)) as Hq.
  unfold Z.div in Hq.
  destruct (Z.div_eucl m' (Zpos my)) as [q r]. exact Hq.
Qed.

Lemma SFdiv_nonneg x y :
  SF_nonneg x = true -> SF_positive y = true -> SF_nonneg (SF64div x y) = true.
Proof.
  destruct y as [| | |[] my ey]; try discriminate. intros Hx _.
  destruct x as [sx|[]| |[] mx ex]; try discriminate; try reflexivity.
  unfold SF64div, SFdiv.
  pose proof (SFdiv_core_nonneg mx ex my ey) as Hq.
  destruct (SFdiv_core_binary prec emax (Zpos mx) ex (Zpos my) ey) as [[mz ez] lz].
  apply rounded_to_nonneg. apply binary_round_aux_sign. exact Hq.
Qed.

End Signs.

(** Python's [0 <= f] and [f < 0] on a float, read on its specification. *)
Lemma nonneg_float f : nonneg (PFloat f) = SF_nonneg (Prim2SF f).
Proof.
  unfold nonneg. rewrite leb_spec.
  change (Prim2SF 0) with (S754_zero false).
  destruct (Prim2SF f) as [[]|[]| |[] m e]; reflexivity.
Qed.

Lemma lt_zero_float f : lt (PFloat f) (PInt 0) = SF_negative (Prim2SF f).
Proof.
  unfold lt, Z_compare_float.
  destruct (Prim2SF f) as [[]|[]| |[] m e]; try reflexivity;
    cbv beta iota zeta; rewrite Z.mul_0_l;
    destruct (0 <=? e)%Z eqn:E; try reflexivity;
    apply Z.leb_le in E;
    assert (0 < 2 ^ e)%Z by (apply Z.pow_pos_nonneg; lia).
  - replace (0 ?= Z.neg m * 2 ^ e)%Z with Gt; [reflexivity|].
    symmetry. apply Z.compare_gt_iff. nia.
  - replace (0 ?= Z.pos m * 2 ^ e)%Z with Lt; [reflexivity|].
    symmetry. apply Z.compare_lt_iff. nia.
Qed.

Lemma not_negative_nonneg_or_nan x :
  SF_negative x = false -> SF_nonneg x = true \/ x = S754_nan.
Proof. destruct x as [[]|[]| |[] m e]; auto; discriminate. Qed.

Lemma SF2Prim_nonneg q :
  SF_nonneg q = true -> SF_nonneg (Prim2SF (SF2Prim q)) = true.
Proof.
  destruct q as [[]|[]| |[] m e]; try discriminate; try reflexivity.
  intros _. unfold SF2Prim. rewrite Z_ldexp_spec, of_uint63_spec.
  pose proof (Uint63.to_Z_bounded (Uint63.of_Z (Z.pos m))) as [Hm _].
  pose proof (binary_normalize_nonneg _ 0%Z Hm) as Hn.
  destruct (binary_normalize prec emax _ 0 false) as [[]|[]| |[] m' e'];
    try discriminate; try reflexivity.
  apply rounded_to_nonneg, binary_round_sign.
Qed.

Lemma float_of_Z_nonneg n :
  (0 <= n)%Z -> SF_nonneg (Prim2SF (float_of_Z n)) = true.
Proof.
  intros H. apply SF2Prim_nonneg. now apply binary_normalize_nonneg.
Qed.

Lemma SF_nonneg_not_negative x : SF_nonneg x = true -> SF_negative x = false.
Proof. destruct x as [[]|[]| |[] m e]; auto; discriminate. Qed.

Lemma positive_not_zero a :
  SF_positive (Prim2SF a) = true -> (a =? 0)%float = false.
Proof.
  rewrite FloatAxioms.eqb_spec. change (Prim2SF 0) with (S754_zero false).
  destruct (Prim2SF a) as [| | |[] m e]; try discriminate. reflexivity.
Qed.

(** ** MedRom: the unit table *)

Lemma get_In d unit factor :
  MedRom.get d unit = Some factor -> In (unit, factor) d.
Proof.
  induction d as [|[k v] d IH]; simpl; [discriminate|].
  destruct (str_eqb unit k) eqn:E.
  - apply str_eqb_eq in E as ->. intros H. injection H as ->. now left.
  - auto.
Qed.

Lemma positive_factorb_spec factor :
  positive_factorb factor = true -> positive_factor factor.
Proof.
  unfold positive_factorb, positive_factor. intros H.
  apply andb_true_iff in H as [H1 H2]. split; [exact H1|].
  destruct (as_float factor) as [a|]; [eauto|discriminate].
Qed.

Lemma _medidas_positive unit factor :
  MedRom.get MedRom._medidas unit = Some factor -> positive_factor factor.
Proof.
  intros H. apply get_In in H. apply positive_factorb_spec.
  assert (Hall : forallb (fun kv => positive_factorb (snd kv)) MedRom._medidas
                 = true) by (vm_compute; reflexivity).
  rewrite forallb_forall in Hall. exact (Hall _ H).
Qed.

Lemma mem_get unit :
  MedRom.mem unit MedRom._medidas = true ->
  exists factor, MedRom.get MedRom._medidas unit = Some factor.
Proof.
  unfold MedRom.mem. destruct (MedRom.get _ unit) as [f|]; [eauto|discriminate].
Qed.

(** ** MedRom: multiplication and division by a factor *)

Lemma lt_zero_int n : lt (PInt n) (PInt 0) = (n <? 0)%Z.
Proof. reflexivity. Qed.

Lemma positive_factor_int k : positive_factor (PInt k) -> (0 < k)%Z.
Proof. intros [H _]. now apply Z.ltb_lt. Qed.

Lemma mul_float_sign x a :
  SF_positive (Prim2SF a) = true ->
  (SF_negative (Prim2SF x) = false -> SF_negative (Prim2SF (x * a)) = false)
  /\ (SF_nonneg (Prim2SF x) = true -> SF_nonneg (Prim2SF (x * a)) = true).
Proof.
  intros Ha. rewrite mul_spec. split; intros Hx.
  - apply not_negative_nonneg_or_nan in Hx as [Hx| ->]; [|reflexivity].
    now apply SF_nonneg_not_negative, SFmul_nonneg.
  - now apply SFmul_nonneg.
Qed.

Lemma div_float_sign x a :
  SF_positive (Prim2SF a) = true ->
  (SF_negative (Prim2SF x) = false -> SF_negative (Prim2SF (x / a)) = false)
  /\ (SF_nonneg (Prim2SF x) = true -> SF_nonneg (Prim2SF (x / a)) = true).
Proof.
  intros Ha. rewrite div_spec. split; intros Hx.
  - apply not_negative_nonneg_or_nan in Hx as [Hx| ->]; [|reflexivity].
    now apply SF_nonneg_not_negative, SFdiv_nonneg.
  - now apply SFdiv_nonneg.
Qed.

(** [value * factor]: what comes out when the value is not negative. *)
Lemma mul_factor value factor :
  positive_factor factor ->
  lt value (PInt 0) = false ->
  match mul value factor with
  | Ok r => lt r (PInt 0) = false /\ (nonneg value = true -> nonneg r = true)
  | Raise e => e = OverflowError /\ exists n, value = PInt n
  end.
Proof.
  intros Hf Hv. pose proof Hf as (_ & a & Ha & Hpos).
  destruct value as [n|x].
  - rewrite lt_zero_int in Hv. apply Z.ltb_ge in Hv.
    destruct factor as [k|a'].
    + apply positive_factor_int in Hf. cbn [mul]. rewrite lt_zero_int.
      split; [apply Z.ltb_ge; nia | intros _; apply Z.leb_le; nia].
    + injection Ha as ->. cbn [mul bind as_float].
      destruct (float_of_int_cases n) as [-> | ->]; cbn [bind]; [eauto|].
      pose proof (float_of_Z_nonneg n Hv) as Hn.
      rewrite lt_zero_float, nonneg_float.
      destruct (mul_float_sign (float_of_Z n) a Hpos) as [_ H].
      split; [apply SF_nonneg_not_negative|intros _]; auto.
  - rewrite lt_zero_float in Hv.
    assert (E : mul (PFloat x) factor = Ok (PFloat (x * a))).
    { destruct factor; cbn [mul bind as_float] in *; rewrite ?Ha; try injection Ha as ->; reflexivity. }
    rewrite E, lt_zero_float, !nonneg_float.
    destruct (mul_float_sign x a Hpos); auto.
Qed.

Lemma int_truediv_cases n k :
  (0 <= n)%Z -> (0 < k)%Z ->
  int_truediv n k = Raise OverflowError
  \/ exists q, int_truediv n k = Ok (PFloat (SF2Prim q)) /\ SF_nonneg q = true.
Proof.
  intros Hn Hk. unfold int_truediv.
  replace (k =? 0)%Z with false by (symmetry; apply Z.eqb_neq; lia).
  replace (n <? 0)%Z with false by (symmetry; apply Z.ltb_ge; lia).
  replace (k <? 0)%Z with false by (symmetry; apply Z.ltb_ge; lia).
  cbn [xorb].
  set (q := if (n =? 0)%Z then _ else _).
  assert (Hq : SF_nonneg q = true).
  { subst q. destruct (n =? 0)%Z eqn:E; [reflexivity|].
    apply Z.eqb_neq in E.
    destruct (Z.abs n) as [|mx|mx] eqn:En; try lia.
    destruct (Z.abs k) as [|my|my] eqn:Ek; try lia.
    pose proof (SFdiv_core_nonneg mx 0%Z my 0%Z) as Hm.
    destruct (SFdiv_core_binary prec emax (Z.pos mx) 0 (Z.pos my) 0)
      as [[mz ez] lz].
    apply rounded_to_nonneg, binary_round_aux_sign. exact Hm. }
  destruct q as [sq|sq| |sq mq eq]; eauto.
Qed.

(** [value / factor]: what comes out when the value is not negative. *)
Lemma truediv_factor value factor :
  positive_factor factor ->
  lt value (PInt 0) = false ->
  match truediv value factor with
  | Ok r => nonneg value = true -> nonneg r = true
  | Raise e => e = OverflowError /\ exists n, value = PInt n
  end.
Proof.
  intros Hf Hv. pose proof Hf as (_ & a & Ha & Hpos).
  pose proof (positive_not_zero a Hpos) as Hz.
  destruct value as [n|x].
  - rewrite lt_zero_int in Hv. apply Z.ltb_ge in Hv.
    destruct factor as [k|a'].
    + apply positive_factor_int in Hf. cbn [truediv].
      destruct (int_truediv_cases n k Hv Hf) as [-> | (q & -> & Hq)]; [eauto|].
      intros _. rewrite nonneg_float. now apply SF2Prim_nonneg.
    + injection Ha as ->. cbn [truediv bind as_float].
      destruct (float_of_int_cases n) as [-> | ->]; cbn [bind]; [eauto|].
      rewrite Hz. intros _. rewrite nonneg_float.
      apply (div_float_sign (float_of_Z n) a Hpos).
      now apply float_of_Z_nonneg.
  - assert (E : truediv (PFloat x) factor = Ok (PFloat (x / a))).
    { destruct factor; cbn [truediv bind as_float] in *; rewrite ?Ha;
        try injection Ha as ->; cbn [bind]; rewrite Hz; reflexivity. }
    rewrite E, !nonneg_float. apply (div_float_sign x a Hpos).
Qed.


(** ** MedRom: the three operations *)

Section Measures.
Variable unicode_lower : str -> str.
Local Abbreviation lower := (PyStr.lower unicode_lower).
Local Abbreviation a_modernas := (MedRom.a_modernas unicode_lower).
Local Abbreviation a_unidad_romana := (MedRom.a_unidad_romana unicode_lower).
Local Abbreviation conversion_unidades :=
  (MedRom.conversion_unidades unicode_lower).

(** The keys of the table are lower-case ASCII: lowering one again
    changes nothing. *)
Lemma lower_known unit :
  MedRom.mem unit MedRom._medidas = true -> lower unit = unit.
Proof.
  intros H. apply mem_get in H as [factor H]. apply get_In in H.
  assert (Hall : forallb (fun kv => str_eqb (lower (fst kv)) (fst kv))
                   MedRom._medidas = true) by (vm_compute; reflexivity).
  rewrite forallb_forall in Hall. apply Hall in H. now apply str_eqb_eq in H.
Qed.

Lemma a_modernas_unknown value unit :
  known unicode_lower unit = false ->
  a_modernas value unit
  = Raise (RomanError (UnidadDesconocida (lower unit)
                         MedRom.unidades_disponibles)).
Proof.
  unfold known, MedRom.mem, MedRom.a_modernas.
  destruct (MedRom.get _ _); [discriminate|reflexivity].
Qed.

Lemma a_unidad_romana_unknown value unit :
  known unicode_lower unit = false ->
  a_unidad_romana value unit
  = Raise (RomanError (UnidadDesconocida (lower unit)
                         MedRom.unidades_disponibles)).
Proof.
  unfold known, MedRom.mem, MedRom.a_unidad_romana.
  destruct (MedRom.get _ _); [discriminate|reflexivity].
Qed.

Lemma a_modernas_known value unit :
  known unicode_lower unit = true ->
  exists factor, positive_factor factor
    /\ a_modernas value unit
       = if lt value (PInt 0) then Raise (RomanError ValorNoNegativo)
         else mul value factor.
Proof.
  intros H. apply mem_get in H as [factor H].
  exists factor. split; [now apply _medidas_positive in H|].
  unfold MedRom.a_modernas. now rewrite H.
Qed.

Lemma a_unidad_romana_known value unit :
  known unicode_lower unit = true ->
  exists factor, positive_factor factor
    /\ a_unidad_romana value unit
       = if lt value (PInt 0) then Raise (RomanError ValorNoNegativo)
         else truediv value factor.
Proof.
  intros H. apply mem_get in H as [factor H].
  exists factor. split; [now apply _medidas_positive in H|].
  unfold MedRom.a_unidad_romana. now rewrite H.
Qed.

Lemma conversion_unidades_known value from_unit to_unit :
  known unicode_lower from_unit = true -> known unicode_lower to_unit = true ->
  conversion_unidades value from_unit to_unit
  = (modern_value <- a_modernas value from_unit ;;
     a_unidad_romana modern_value to_unit).
Proof.
  intros Hf Ht. unfold MedRom.conversion_unidades.
  unfold known in Hf, Ht. rewrite Hf, Ht. cbn [negb orb].
  unfold MedRom.a_modernas, MedRom.a_unidad_romana.
  now rewrite (lower_known _ Hf), (lower_known _ Ht).
Qed.


Lemma a_unidad_romana_outcome value unit :
  known unicode_lower unit = true -> lt value (PInt 0) = false ->
  match a_unidad_romana value unit with
  | Ok r => nonneg value = true -> nonneg r = true
  | Raise e => e = OverflowError /\ exists n, value = PInt n
  end.
Proof.
  intros Hk Hv. destruct (a_unidad_romana_known value unit Hk) as (f & Hf & ->).
  rewrite Hv. now apply truediv_factor.
Qed.

Lemma conversion_unidades_outcome value from_unit to_unit :
  known unicode_lower from_unit = true -> known unicode_lower to_unit = true ->
  lt value (PInt 0) = false ->
  match conversion_unidades value from_unit to_unit with
  | Ok r => nonneg value = true -> nonneg r = true
  | Raise e => e = OverflowError /\ exists n, value = PInt n
  end.
Proof.
  intros Hf Ht Hv. rewrite conversion_unidades_known by assumption.
  destruct (a_modernas_known value from_unit Hf) as (f & Hfp & ->).
  rewrite Hv. pose proof (mul_factor value f Hfp Hv) as H1.
  destruct (mul value f) as [m|e] eqn:Em; cbn [bind]; [|exact H1].
  destruct H1 as [Hm Hnn].
  pose proof (a_unidad_romana_outcome m to_unit Ht Hm) as H2.
  destruct (a_unidad_romana m to_unit) as [r|e]; [tauto|].
  destruct H2 as [-> [k ->]]. split; [reflexivity|].
  (* the intermediate value is an int only if the value is *)
  destruct value as [n|x]; [eauto|]. exfalso.
  destruct Hfp as (_ & a & Ha & _).
  destruct f as [kf|af]; cbn [mul bind as_float] in Em, Ha;
    rewrite ?Ha in Em; discriminate Em.
Qed.

Lemma conversion_unidades_unknown value from_unit to_unit :
  known unicode_lower from_unit = false
  \/ known unicode_lower to_unit = false ->
  conversion_unidades value from_unit to_unit
  = Raise (RomanError (UnidadesInvalidas MedRom.unidades_disponibles)).
Proof.
  intros H. unfold MedRom.conversion_unidades. unfold known in H.
  destruct H as [-> | ->]; cbn [negb orb]; rewrite ?orb_true_r; reflexivity.
Qed.

Lemma a_modernas_negative value unit :
  known unicode_lower unit = true -> lt value (PInt 0) = true ->
  a_modernas value unit = Raise (RomanError ValorNoNegativo).
Proof.
  intros Hk Hv. destruct (a_modernas_known value unit Hk) as (f & _ & ->).
  now rewrite Hv.
Qed.


Lemma conversion_unidades_negative value from_unit to_unit :
  known unicode_lower from_unit = true ->
  known unicode_lower to_unit = true ->
  lt value (PInt 0) = true ->
  conversion_unidades value from_unit to_unit
  = Raise (RomanError ValorNoNegativo).
Proof.
  intros Hf Ht Hv. rewrite conversion_unidades_known by assumption.
  now rewrite a_modernas_negative.
Qed.

End Measures.







(** ** Binary64: the error of a rounding

    [binary_round_aux] on a value in the normal range returns a 53-bit
    mantissa within half a unit in the last place of the value. *)

Ltac float_lia := unfold SpecFloat.emin, prec, emax in *; lia.

Section Rounding.
Local Open Scope Z_scope.

Lemma digits2_pos_bounds p :
  2 ^ (Zpos (digits2_pos p) - 1) <= Zpos p < 2 ^ Zpos (digits2_pos p).
Proof.
  induction p as [p IH|p IH|]; cbn [digits2_pos]; rewrite ?Pos2Z.inj_succ.
  - replace (Z.succ (Zpos (digits2_pos p)) - 1) with (Z.succ (Zpos (digits2_pos p) - 1)) by lia.
    rewrite !Z.pow_succ_r by lia. lia.
  - replace (Z.succ (Zpos (digits2_pos p)) - 1) with (Z.succ (Zpos (digits2_pos p) - 1)) by lia.
    rewrite !Z.pow_succ_r by lia. lia.
  - simpl. lia.
Qed.

Lemma Zdigits2_bounds m :
  0 < m -> 2 ^ (Zdigits2 m - 1) <= m < 2 ^ Zdigits2 m.
Proof.
  destruct m as [|p|p]; try lia. intros _. apply digits2_pos_bounds.
Qed.


Lemma shr_1_spec m r s :
  0 <= m -> shr_1 (Build_shr_record m r s)
            = Build_shr_record (Z.div2 m) (Z.odd m) (r || s).
Proof. destruct m as [|[p|p|]|p]; try reflexivity; lia. Qed.

Lemma loc_of_record r s rho D :
  0 <= rho < D ->
  loc_of_shr_record (Build_shr_record 0 r s) = loc_of rho D ->
  (r || s = negb (rho =? 0))
  /\ (r = true -> D <= 2 * rho) /\ (r = false -> 2 * rho < D)
  /\ (s = false -> r = true -> 2 * rho = D).
Proof.
  unfold loc_of. intros Hr.
  destruct (Z.eqb_spec rho 0) as [E0|E0];
    destruct (Z.compare_spec (2 * rho) D); destruct r, s;
    cbn [loc_of_shr_record orb negb];
    intros E; try discriminate E; repeat split; intros;
      try reflexivity; try lia; try discriminate.
Qed.

Lemma loc_of_shr_record_m m m' r s :
  loc_of_shr_record (Build_shr_record m r s)
  = loc_of_shr_record (Build_shr_record m' r s).
Proof. reflexivity. Qed.

Lemma shr_1_located N D mrs : located N D mrs -> located N (2 * D) (shr_1 mrs).
Proof.
  intros [HD HN Hm Hl]. destruct mrs as [m r s]. simpl in Hm.
  pose proof (Z.div_mod N D ltac:(lia)) as Hdiv.
  pose proof (Z.mod_pos_bound N D HD) as Hrho.
  set (rho := N mod D) in *.
  assert (Hm0 : 0 <= m) by (subst m; apply Z.div_pos; lia).
  rewrite shr_1_spec by exact Hm0.
  rewrite (loc_of_shr_record_m m 0) in Hl.
  destruct (loc_of_record r s rho D Hrho Hl) as (Hrs & Hr1 & Hr0 & Hs).
  pose proof (Z.div2_odd m) as Hodd. rewrite Z.div2_div in *.
  set (q := m / 2) in *. set (b := Z.b2z (Z.odd m)) in *.
  assert (Hb : 0 <= b <= 1) by (subst b; destruct (Z.odd m); simpl; lia).
  assert (HN2 : N = (2 * D) * q + (b * D + rho)) by (rewrite Hdiv, <- Hm; nia).
  assert (Hrem : 0 <= b * D + rho < 2 * D) by nia.
  pose proof (Z.div_mod_unique (2 * D) (N / (2 * D)) q (N mod (2 * D)) (b * D + rho)) as U.
  destruct U as [Uq Ur].
  { left. apply Z.mod_pos_bound. lia. }
  { left. exact Hrem. }
  { rewrite <- Z.div_mod by lia. exact HN2. }
  constructor; try lia.
  - simpl. symmetry. exact Uq.
  - rewrite Ur. unfold loc_of. rewrite Hrs. subst b.
    destruct (Z.odd m); cbn [Z.b2z] in *;
      destruct (Z.eqb_spec rho 0) as [E0|E0];
      match goal with |- context [(?x =? 0)] => destruct (Z.eqb_spec x 0) end;
      try lia; cbn [loc_of_shr_record negb]; try reflexivity;
      f_equal; symmetry;
      first [ apply Z.compare_eq_iff; lia
            | apply Z.compare_gt_iff; lia
            | apply Z.compare_lt_iff; lia ].
Qed.

Lemma pow2_xI p : 2 ^ Zpos p~1 = 2 * 2 ^ Zpos p * 2 ^ Zpos p.
Proof.
  replace (Zpos p~1) with (Zpos p + Zpos p + 1) by lia.
  rewrite !Z.pow_add_r by lia. change (2 ^ 1) with 2. ring.
Qed.

Lemma pow2_xO p : 2 ^ Zpos p~0 = 2 ^ Zpos p * 2 ^ Zpos p.
Proof.
  replace (Zpos p~0) with (Zpos p + Zpos p) by lia.
  now rewrite Z.pow_add_r by lia.
Qed.

Lemma iter_pos_located N p : forall D mrs,
  located N D mrs -> located N (D * 2 ^ Zpos p) (SpecFloat.iter_pos shr_1 p mrs).
Proof.
  induction p as [p IH|p IH|]; intros D mrs H; cbn [SpecFloat.iter_pos].
  - apply shr_1_located in H. apply IH in H. apply IH in H.
    rewrite pow2_xI.
    now replace (D * (2 * 2 ^ Zpos p * 2 ^ Zpos p))
      with (2 * D * 2 ^ Zpos p * 2 ^ Zpos p) by ring.
  - apply IH in H. apply IH in H.
    rewrite pow2_xO. now rewrite Z.mul_assoc.
  - apply shr_1_located in H.
    now replace (D * 2 ^ 1) with (2 * D) by (change (2 ^ 1) with 2; ring).
Qed.

Lemma round_nearest_even_located N D mrs :
  located N D mrs ->
  let m' := round_nearest_even (shr_m mrs) (loc_of_shr_record mrs) in
  2 * Z.abs (m' * D - N) <= D /\ shr_m mrs <= m' <= shr_m mrs + 1.
Proof.
  intros [HD HN Hm Hl]. 
  pose proof (Z.div_mod N D ltac:(lia)) as Hdiv.
  pose proof (Z.mod_pos_bound N D HD) as Hrho.
  rewrite Hl, Hm. set (m := N / D) in *. set (rho := N mod D) in *.
  unfold loc_of, round_nearest_even.
  destruct (Z.eqb_spec rho 0) as [E0|E0].
  - cbv zeta. nia.
  - destruct (Z.compare_spec (2 * rho) D); cbv zeta; try destruct (Z.even m); nia.
Qed.

Lemma shr_located N D mrs e n :
  0 <= n -> located N D mrs ->
  located N (D * 2 ^ n) (fst (shr mrs e n)) /\ snd (shr mrs e n) = e + n.
Proof.
  intros Hn H. destruct n as [|p|p]; [| |lia]; cbn [shr fst snd].
  - split; [|lia]. now replace (D * 2 ^ 0) with D by (simpl; lia).
  - split; [|reflexivity]. now apply iter_pos_located.
Qed.


Lemma located_exact m : 0 <= m -> located m 1 (shr_record_of_loc m loc_Exact).
Proof.
  intros H. constructor; try lia.
  - simpl. now rewrite Z.div_1_r.
  - simpl. now rewrite Z.mod_1_r.
Qed.



End Rounding.

(** ** Binary64: relative error of a product and of a quotient *)

Section RelativeError.
Local Open Scope R_scope.












End RelativeError.

(** ** Floats in range *)

Section FloatsInRange.
Local Open Scope Z_scope.





Lemma normal_between_positive lo hi f :
  normal_between lo hi f -> SF_positive (Prim2SF f) = true.
Proof. intros (m & e & -> & _). reflexivity. Qed.









End FloatsInRange.

(** ** MedRom on floats: what is computed *)

Lemma normal_factorb_spec factor :
  normal_factorb factor = true ->
  exists a, as_float factor = Ok a /\ normal_between (-58) (-42) a.
Proof.
  unfold normal_factorb, normal_between, normal_mantissa.
  destruct (as_float factor) as [a|]; [|discriminate].
  destruct (Prim2SF a) as [| | |[] m e] eqn:E; try discriminate.
  intros H. repeat (apply andb_true_iff in H as [H ?]).
  exists a. split; [reflexivity|]. exists m, e.
  split; [exact E|]. lia.
Qed.

Lemma factor_of_get unit factor :
  MedRom.get MedRom._medidas unit = Some factor ->
  as_float factor = Ok (factor_of unit)
  /\ normal_between (-58) (-42) (factor_of unit).
Proof.
  intros H. unfold factor_of. rewrite H. apply get_In in H.
  assert (Hall : forallb (fun kv => normal_factorb (snd kv)) MedRom._medidas
                 = true) by (vm_compute; reflexivity).
  rewrite forallb_forall in Hall. apply Hall, normal_factorb_spec in H.
  cbn [snd] in H. destruct H as (a & -> & Ha). now split.
Qed.

Lemma mul_float value factor a :
  as_float factor = Ok a -> mul (PFloat value) factor = Ok (PFloat (value * a)).
Proof.
  intros Ha. destruct factor; cbn [mul bind as_float] in *;
    rewrite ?Ha; try injection Ha as ->; reflexivity.
Qed.

Lemma truediv_float value factor a :
  as_float factor = Ok a -> SF_positive (Prim2SF a) = true ->
  truediv (PFloat value) factor = Ok (PFloat (value / a)).
Proof.
  intros Ha Hpos. pose proof (positive_not_zero a Hpos) as Hz.
  destruct factor; cbn [truediv bind as_float] in *; rewrite ?Ha;
    try injection Ha as ->; cbn [bind]; rewrite Hz; reflexivity.
Qed.

Lemma not_negative_float lo hi value :
  float_zero value \/ normal_between lo hi value ->
  lt (PFloat value) (PInt 0) = false.
Proof.
  rewrite lt_zero_float. intros [[s ->]|(m & e & -> & _)]; reflexivity.
Qed.

Section MeasuresOnFloats.
Variable unicode_lower : str -> str.
Local Abbreviation lower := (PyStr.lower unicode_lower).

Lemma a_modernas_float value unit :
  known unicode_lower unit = true -> lt (PFloat value) (PInt 0) = false ->
  MedRom.a_modernas unicode_lower (PFloat value) unit
  = Ok (PFloat (value * factor_of (lower unit))).
Proof.
  intros Hk Hv. apply mem_get in Hk as [factor Hg].
  unfold MedRom.a_modernas. rewrite Hg, Hv.
  apply mul_float. now apply factor_of_get.
Qed.

Lemma a_unidad_romana_float value unit :
  known unicode_lower unit = true -> lt (PFloat value) (PInt 0) = false ->
  MedRom.a_unidad_romana unicode_lower (PFloat value) unit
  = Ok (PFloat (value / factor_of (lower unit))).
Proof.
  intros Hk Hv. apply mem_get in Hk as [factor Hg].
  unfold MedRom.a_unidad_romana. rewrite Hg, Hv.
  destruct (factor_of_get _ _ Hg) as [Ha Hn].
  apply truediv_float; [exact Ha|].
  now apply normal_between_positive in Hn.
Qed.

Lemma conversion_unidades_float value from_unit to_unit :
  known unicode_lower from_unit = true ->
  known unicode_lower to_unit = true ->
  lt (PFloat value) (PInt 0) = false ->
  MedRom.conversion_unidades unicode_lower (PFloat value) from_unit to_unit
  = Ok (PFloat (value * factor_of (lower from_unit)
                / factor_of (lower to_unit))).
Proof.
  intros Hf Ht Hv. rewrite conversion_unidades_known by assumption.
  rewrite a_modernas_float by assumption. cbn [bind].
  apply a_unidad_romana_float; [exact Ht|].
  rewrite lt_zero_float in *.
  apply mem_get in Hf as [factor Hg].
  destruct (factor_of_get _ _ Hg) as [_ Hn].
  apply normal_between_positive in Hn.
  now apply (mul_float_sign value _ Hn).
Qed.

End MeasuresOnFloats.

(** ** The round trips, in real numbers *)

Section RoundTrips.
Local Open Scope R_scope.





End RoundTrips.

(** ** MedRom: the round trips *)










(** * Further properties *)

(** ** NumRom.a_romano: the numbers it accepts *)

Lemma is_nan_spec d : is_nan d = true <-> Prim2SF d = S754_nan.
Proof.
  unfold is_nan. rewrite FloatAxioms.eqb_spec.
  destruct (Prim2SF d) as [[]|[]| |[] m e]; unfold SFeqb, SFcompare;
    rewrite ?Z.compare_refl, ?Pos.compare_cont_refl; cbn [negb CompOpp];
    split; congruence.
Qed.

(** A valid finite value has at most 53 bits. *)
Lemma valid_mantissa_bound s m e :
  valid_binary (S754_finite s m e) = true -> (Zpos m < 2 ^ 53 /\ emin <= e)%Z.
Proof.
  unfold valid_binary, bounded, canonical_mantissa. intros H.
  apply andb_true_iff in H as [H _]. apply Z.eqb_eq in H.
  pose proof (digits2_pos_bounds m) as [_ Hb].
  unfold fexp in H.
  assert (Hd : (Zpos (digits2_pos m) <= 53)%Z) by float_lia.
  split; [|float_lia].
  eapply Z.lt_le_trans; [exact Hb|].
  apply Z.pow_le_mono_r; lia.
Qed.

(** [decimal > 3999.5] on an int. *)
Lemma int_in_range_int n :
  lt (PInt n) (PInt 0) = false -> gt (PInt n) (PFloat 3999.5) = false ->
  (0 <= n <= 3999)%Z.
Proof.
  rewrite lt_zero_int. unfold gt, lt, Z_compare_float.
  change (Prim2SF 3999.5) with (S754_finite false 8794993510580224 (-41)).
  cbv beta iota zeta. change (0 <=? -41)%Z with false. cbv iota.
  intros H0 H1. apply Z.ltb_ge in H0.
  split; [exact H0|].
  change (- -41)%Z with 41%Z in H1.
  change (2 ^ 41)%Z with 2199023255552%Z in H1.
  destruct (Z.compare_spec (n * 2199023255552) 8794993510580224) as [E|E|E];
    try discriminate H1; lia.
Qed.

(** [int(decimal)] on a float that passes the range check. *)
Lemma int_in_range_float d k :
  lt (PFloat d) (PInt 0) = false -> gt (PFloat d) (PFloat 3999.5) = false ->
  int (PFloat d) = Ok k -> (0 <= k <= 3999)%Z.
Proof.
  rewrite lt_zero_float. unfold gt, lt. rewrite ltb_spec.
  change (Prim2SF 3999.5) with (S754_finite false 8794993510580224 (-41)).
  pose proof (Prim2SF_valid d) as Hv. unfold int.
  destruct (Prim2SF d) as [s|s| |s m e].
  - intros _ _ H. injection H as <-. lia.
  - intros _ _ H. discriminate H.
  - intros _ _ H. discriminate H.
  - destruct s; [intros H; discriminate H|]. intros _ H1 H. injection H as <-.
    apply valid_mantissa_bound in Hv as [Hm He].
    change (2 ^ 53)%Z with 9007199254740992%Z in Hm.
    unfold SFltb, SFcompare in H1.
    destruct (Z.compare_spec (-41) e) as [E|E|E]; [|discriminate H1|].
    + subst e. change (0 <=? -41)%Z with false. cbv iota.
      change (- -41)%Z with 41%Z.
      change (2 ^ 41)%Z with 2199023255552%Z.
      assert (Hle : (Zpos m <= 8794993510580224)%Z).
      { destruct (Pos.compare_cont Eq 8794993510580224 m) eqn:Ec.
        - apply Pos.compare_eq in Ec. subst m. apply Z.le_refl.
        - discriminate H1.
        - apply Pos.compare_gt_iff in Ec. apply Z.lt_le_incl. exact Ec. }
      split; [apply Z.div_pos; lia|].
      assert (Zpos m / 2199023255552 < 4000)%Z; [|lia].
      apply Z.div_lt_upper_bound; lia.
    + replace (0 <=? e)%Z with false by (symmetry; apply Z.leb_gt; lia).
      assert (H2 : (2 ^ 42 <= 2 ^ (- e))%Z) by (apply Z.pow_le_mono_r; lia).
      assert (H3 : (0 < 2 ^ (- e))%Z) by (apply Z.pow_pos_nonneg; lia).
      change (2 ^ 42)%Z with 4398046511104%Z in H2.
      split; [apply Z.div_pos; lia|].
      assert (Zpos m / 2 ^ (- e) < 4000)%Z; [|lia].
      apply Z.div_lt_upper_bound; [lia|].
      set (p := (2 ^ (- e))%Z) in *. clearbody p. clear - Hm H2. nia.
Qed.

Lemma int_in_range decimal k :
  lt decimal (PInt 0) = false -> gt decimal (PFloat 3999.5) = false ->
  int decimal = Ok k -> (0 <= k <= 3999)%Z.
Proof.
  destruct decimal as [n|d].
  - intros H0 H1 H. injection H as <-. now apply int_in_range_int.
  - apply int_in_range_float.
Qed.

(** [int(decimal)] is defined on every number that passes the range
    check, a NaN apart. *)
Lemma int_defined decimal :
  lt decimal (PInt 0) = false -> gt decimal (PFloat 3999.5) = false ->
  (forall d, decimal = PFloat d -> is_nan d = false) ->
  exists k, int decimal = Ok k.
Proof.
  destruct decimal as [n|d]; [intros; now exists n|].
  intros H0 H1 Hnan. specialize (Hnan d eq_refl).
  assert (Hn : Prim2SF d <> S754_nan).
  { intros E. apply is_nan_spec in E. congruence. }
  rewrite lt_zero_float in H0. unfold gt, lt in H1. rewrite ltb_spec in H1.
  change (Prim2SF 3999.5) with (S754_finite false 8794993510580224 (-41)) in H1.
  unfold int.
  destruct (Prim2SF d) as [s|[]| |s m e]; try discriminate; eauto.
  congruence.
Qed.

(** The integers of the range convert to float. *)
Lemma float_of_int_small k :
  (0 <= k <= 3999)%Z -> float_of_int k = Ok (float_of_Z k).
Proof.
  intros Hk. unfold float_of_int.
  assert (H : negb (is_infinity (float_of_Z k)) = true).
  { apply (forallb_range (fun k => negb (is_infinity (float_of_Z k))) 0 4000);
      [vm_compute; reflexivity | lia]. }
  apply negb_true_iff in H. now rewrite H.
Qed.

Lemma min_from_returns {A} (key : A -> result PyNum) l best kbest :
  (forall x, In x l -> exists k, key x = Ok k) ->
  exists x, NumRom.min_from key l best kbest = Ok x.
Proof.
  revert best kbest. induction l as [|y l IH]; intros best kbest Hkey; simpl.
  - now exists best.
  - destruct (Hkey y (in_eq _ _)) as [k ->]. cbn [bind].
    destruct (lt k kbest); apply IH; auto using in_cons.
Qed.

Lemma py_min_returns {A} (key : A -> result PyNum) l :
  l <> [] -> (forall x, In x l -> exists k, key x = Ok k) ->
  exists x, NumRom.py_min key l = Ok x /\ In x l.
Proof.
  intros Hl Hkey. destruct l as [|y l]; [congruence|].
  assert (H : exists x, NumRom.py_min key (y :: l) = Ok x).
  { simpl. destruct (Hkey y (in_eq _ _)) as [k ->]. cbn [bind].
    apply min_from_returns. auto using in_cons. }
  destruct H as [x H]. exists x. split; [exact H|].
  now apply py_min_In in H.
Qed.

Lemma glyph_In glyph v :
  In (glyph, v) NumRom._valores_fracciones -> In glyph glyphs.
Proof.
  intros H. right. change glyph with (fst (glyph, v)). now apply in_map.
Qed.

(** What [a_romano] returns on a number that passes the range check:
    the digits of its integer part, and a glyph or none. *)
Lemma a_romano_numeral decimal k :
  lt decimal (PInt 0) = false -> gt decimal (PFloat 3999.5) = false ->
  int decimal = Ok k ->
  exists glyph, In glyph glyphs
    /\ NumRom.a_romano decimal = Ok (numeral_of k glyph).
Proof.
  intros H0 H1 Hk. pose proof (int_in_range _ _ H0 H1 Hk) as Hr.
  unfold NumRom.a_romano. rewrite H0, H1, Hk. cbn [orb bind].
  assert (Hnone :
    Ok (if NumRom.is_empty (if (k >? 0)%Z then [] ++ fst (NumRom.digits k) else [])
        then lit "Nihil"
        else if (k >? 0)%Z then [] ++ fst (NumRom.digits k) else [])
    = Ok (numeral_of k [])).
  { unfold numeral_of. cbv zeta. now rewrite app_nil_r. }
  destruct decimal as [n|d].
  - injection Hk as ->. cbn [sub bind]. rewrite Z.sub_diag.
    change (gt (PInt 0) (PInt 0)) with false. cbv iota. cbn [bind].
    exists []. split; [now left | exact Hnone].
  - cbn [sub as_float bind]. rewrite (float_of_int_small k Hr). cbn [bind].
    destruct (gt (PFloat (d - float_of_Z k)) (PInt 0)).
    + match goal with
      | |- context [NumRom.py_min ?key ?l] =>
          destruct (py_min_returns key l) as ([glyph v] & -> & Hin)
      end.
      * discriminate.
      * intros x _. cbn [sub as_float bind]. eauto.
      * cbn [bind fst snd].
        destruct (gt (PFloat v) (PFloat 0.01)).
        -- exists glyph. split; [now apply glyph_In in Hin | reflexivity].
        -- exists []. split; [now left | exact Hnone].
    + cbn [bind]. exists []. split; [now left | exact Hnone].
Qed.

Lemma numeral_of_not_empty k glyph : numeral_of k glyph <> [].
Proof.
  unfold numeral_of. cbv zeta.
  destruct (_ ++ glyph) eqn:E; cbn [NumRom.is_empty]; discriminate.
Qed.

(** X1. [a_romano] returns a numeral, and never the empty string, for
    every number from 0 to 3999.5 that is not a NaN: [int] and [min]
    are defined on all of them.  A NaN passes the range check, both
    comparisons being false, and [int] raises [ValueError]. *)
Theorem a_romano_in_range :
  (forall decimal,
      lt decimal (PInt 0) = false -> gt decimal (PFloat 3999.5) = false ->
      (forall d, decimal = PFloat d -> is_nan d = false) ->
      exists s, NumRom.a_romano decimal = Ok s /\ s <> [])
  /\ (forall d, is_nan d = true -> NumRom.a_romano (PFloat d) = Raise ValueError).
Proof.
  split.
  - intros decimal H0 H1 Hnan.
    destruct (int_defined decimal H0 H1 Hnan) as [k Hk].
    destruct (a_romano_numeral decimal k H0 H1 Hk) as (glyph & _ & ->).
    eexists. split; [reflexivity | apply numeral_of_not_empty].
  - intros d Hd. apply is_nan_spec in Hd. unfold NumRom.a_romano.
    rewrite lt_zero_float. unfold gt, lt. rewrite ltb_spec, Hd.
    cbn [SF_negative SFltb SFcompare orb]. unfold int. now rewrite Hd.
Qed.

(** An instance: 0.25, and a NaN. *)
Lemma a_romano_in_range_witness :
  (exists s, NumRom.a_romano (PFloat 0.25) = Ok s /\ s <> [])
  /\ NumRom.a_romano (PFloat nan) = Raise ValueError.
Proof.
  split.
  - apply (proj1 a_romano_in_range (PFloat 0.25)).
    + vm_compute. reflexivity.
    + vm_compute. reflexivity.
    + intros d E. injection E as <-. vm_compute. reflexivity.
  - apply (proj2 a_romano_in_range nan). vm_compute. reflexivity.
Defined.

Lemma result_eqb_eq r r' : result_eqb r r' = true -> r = r'.
Proof.
  unfold result_eqb.
  destruct r as [[a|a]|[[]| | |]], r' as [[b|b]|[[]| | |]];
    try discriminate; intros H.
  - apply Z.eqb_eq in H. now subst.
  - apply Leibniz.eqb_spec in H. now subst.
  - apply str_eqb_eq in H. now subst.
Qed.

(** ** NumRom.a_decimal: the strings it accepts *)

Lemma endswith_app w symbol : endswith (w ++ symbol) symbol = true.
Proof.
  unfold endswith. rewrite length_app.
  replace (length w + length symbol - length symbol) with (length w) by lia.
  rewrite skipn_app, skipn_all, Nat.sub_diag. cbn [skipn app].
  replace (Nat.leb _ _) with true by (symmetry; apply Nat.leb_le; lia).
  apply str_eqb_eq. reflexivity.
Qed.

Lemma endswith_inv roman symbol :
  endswith roman symbol = true ->
  roman = firstn (length roman - length symbol) roman ++ symbol.
Proof.
  unfold endswith. intros H. apply andb_true_iff in H as [_ H].
  apply str_eqb_eq in H.
  rewrite <- (firstn_skipn (length roman - length symbol) roman) at 1.
  now rewrite H.
Qed.

(** A string that ends with [x :: symbol] ends with [symbol]. *)
Lemma endswith_tail roman x symbol :
  endswith roman (x :: symbol) = true -> endswith roman symbol = true.
Proof.
  intros H. apply endswith_inv in H. rewrite H.
  change (x :: symbol) with ([x] ++ symbol). rewrite app_assoc.
  apply endswith_app.
Qed.

(** The fraction loop: S, or else one dot, or else nothing; the
    entries of two dots and more are never reached. *)
Lemma fraction_cases roman st :
  NumRom.fraction roman NumRom._valores_fracciones st
  = if endswith roman (lit "S")
    then result <- add (fst st) (PFloat (6 / 12)) ;; Ok (result, snd st + 1)
    else if endswith roman [middot]
    then result <- add (fst st) (PFloat (1 / 12)) ;; Ok (result, snd st + 1)
    else Ok st.
Proof.
  unfold NumRom._valores_fracciones. cbn [NumRom.fraction].
  destruct (endswith roman (lit "S")); [reflexivity|].
  destruct (endswith roman [middot]) eqn:E1; [reflexivity|].
  assert (E2 : endswith roman [middot; middot] = false).
  { destruct (endswith roman [middot; middot]) eqn:E; [|reflexivity].
    apply endswith_tail in E. congruence. }
  assert (E3 : endswith roman [middot; middot; middot] = false).
  { destruct (endswith roman [middot; middot; middot]) eqn:E; [|reflexivity].
    apply endswith_tail in E. congruence. }
  assert (E4 : endswith roman [middot; middot; middot; middot] = false).
  { destruct (endswith roman [middot; middot; middot; middot]) eqn:E;
      [|reflexivity].
    apply endswith_tail in E. congruence. }
  assert (E5 : endswith roman [middot; middot; middot; middot; middot] = false).
  { destruct (endswith roman [middot; middot; middot; middot; middot]) eqn:E;
      [|reflexivity].
    apply endswith_tail in E. congruence. }
  now rewrite E2, E3, E4, E5.
Qed.


Lemma digit_entries :
  forallb digit_entry NumRom._valores_romanos = true.
Proof. vm_compute. reflexivity. Qed.

Lemma digit_entry_spec symbol value :
  digit_entry (symbol, value) = true ->
  symbol <> [] /\ forallb numeral_letter symbol = true
  /\ (0 < value <= 1000 * Z.of_nat (length symbol))%Z.
Proof.
  unfold digit_entry. cbn [fst snd]. intros H.
  repeat (apply andb_true_iff in H as [H ?]).
  split; [destruct symbol; [discriminate H | discriminate]|].
  split; [assumption|lia].
Qed.

Lemma startswith_firstn roman symbol i :
  startswith roman symbol i = true ->
  i + length symbol <= length roman
  /\ firstn (i + length symbol) roman = firstn i roman ++ symbol.
Proof.
  unfold startswith. intros H. apply andb_true_iff in H as [Hi H].
  apply Nat.leb_le in Hi. apply prefixb_inv in H as [t Ht].
  assert (Hlen : length (skipn i roman) = length symbol + length t)
    by (rewrite Ht; apply length_app).
  rewrite length_skipn in Hlen. split; [lia|].
  rewrite <- (firstn_skipn i roman) at 1. rewrite Ht.
  rewrite firstn_app, firstn_length_le by lia.
  replace (i + length symbol - i) with (length symbol) by lia.
  rewrite (firstn_all2 (firstn i roman)) by (rewrite firstn_length_le; lia).
  f_equal. rewrite firstn_app, Nat.sub_diag, firstn_all. cbn [firstn].
  apply app_nil_r.
Qed.


Lemma consume_scanned roman fuel symbol value st :
  digit_entry (symbol, value) = true ->
  scanned roman st ->
  scanned roman (NumRom.consume fuel roman symbol value st).
Proof.
  intros He. apply digit_entry_spec in He as (_ & Hs & Hv).
  revert st. induction fuel as [|fuel IH]; intros [result i] Hst;
    cbn [NumRom.consume]; [exact Hst|].
  destruct (Nat.ltb i (length roman) && startswith roman symbol i) eqn:E;
    [|exact Hst].
  apply andb_true_iff in E as [_ E].
  apply startswith_firstn in E as [Hlen Hf].
  apply IH. destruct Hst as (Hi & Hl & Hr). unfold scanned.
  cbn [fst snd] in *.
  split; [exact Hlen|]. split.
  - rewrite Hf, forallb_app, Hl, Hs. reflexivity.
  - lia.
Qed.

Lemma scan_scanned roman : scanned roman (NumRom.scan roman).
Proof.
  unfold NumRom.scan.
  pose proof digit_entries as Hall. rewrite forallb_forall in Hall.
  assert (H0 : scanned roman (0%Z, 0)).
  { unfold scanned. cbn [fst snd firstn forallb]. repeat split; lia. }
  revert H0. generalize (0%Z, 0).
  induction NumRom._valores_romanos as [|[symbol value] table IH];
    intros st Hst; cbn [fold_left fst snd]; [exact Hst|].
  apply IH.
  - intros x Hx. apply Hall. now right.
  - apply consume_scanned; [|exact Hst]. apply Hall. now left.
Qed.

(** What [a_decimal] has found when it returns or rejects the numeral
    at its last check. *)
Lemma a_decimal_unfold unicode_upper s :
  NumRom.a_decimal unicode_upper s
  = if NumRom.is_empty s then Raise (RomanError EntradaInvalida)
    else
      let roman := upper unicode_upper s in
      NumRom._valida_romano unicode_upper roman ;;;
      ri <- NumRom.fraction roman NumRom._valores_fracciones
              (PInt (fst (NumRom.scan roman)), snd (NumRom.scan roman)) ;;
      if negb (Nat.eqb (snd ri) (length roman))
      then Raise (RomanError (RomanoInvalido roman))
      else Ok (fst ri).
Proof.
  unfold NumRom.a_decimal. destruct (NumRom.is_empty s); [reflexivity|].
  cbv zeta. destruct (NumRom._valida_romano _ _); [|reflexivity].
  cbn [bind]. destruct (NumRom.scan _) as [result i]. cbn [fst snd].
  destruct (NumRom.fraction _ _ _) as [[r j]|]; reflexivity.
Qed.

Lemma add_int_float n f v :
  add (PInt n) (PFloat f) = Ok v -> v = PFloat (float_of_Z n + f).
Proof.
  cbn [add as_float bind].
  destruct (float_of_int_cases n) as [-> | ->]; cbn [bind]; congruence.
Qed.

Lemma forallb_letters_Forall body :
  forallb numeral_letter body = true ->
  Forall (fun c => numeral_letter c = true) body.
Proof. intros H. apply Forall_forall. now apply forallb_forall. Qed.

(** The validator raises its own two errors only. *)
Lemma check_sequences_outcome seqs roman :
  NumRom.check_sequences seqs roman = Ok tt
  \/ exists seq, NumRom.check_sequences seqs roman
                 = Raise (RomanError (SecuenciaInvalida seq)).
Proof.
  induction seqs as [|seq seqs IH]; simpl; [now left|].
  destruct (contains seq roman); [right; eauto | exact IH].
Qed.

Lemma check_fractions_outcome n i chars :
  NumRom.check_fractions n i chars = Ok tt
  \/ NumRom.check_fractions n i chars = Raise (RomanError FraccionesAlFinal).
Proof.
  revert i. induction chars as [|c chars IH]; intros i; simpl; [now left|].
  destruct (_ && _); [now right | apply IH].
Qed.

Lemma _valida_romano_outcome unicode_upper roman :
  NumRom._valida_romano unicode_upper roman = Ok tt
  \/ (exists seq, NumRom._valida_romano unicode_upper roman
                  = Raise (RomanError (SecuenciaInvalida seq)))
  \/ NumRom._valida_romano unicode_upper roman
     = Raise (RomanError FraccionesAlFinal).
Proof.
  unfold NumRom._valida_romano. cbv zeta.
  destruct (check_sequences_outcome NumRom.invalid_sequences (upper unicode_upper roman))
    as [-> | [seq ->]]; cbn [bind]; [|right; left; eauto].
  destruct (existsb _ _); [|now left].
  destruct (check_fractions_outcome (Z.of_nat (length (upper unicode_upper roman))) 0
              (upper unicode_upper roman)) as [-> | ->]; auto.
Qed.

(** ** NumRom.a_decimal: a fraction glyph after a numeral *)


Lemma letter_no_letter a c :
  numeral_letter a = true -> numeral_letter c = false -> N.eqb a c = false.
Proof.
  intros Ha Hc. destruct (N.eqb_spec a c) as [->|]; congruence.
Qed.

(** A symbol of letters matches at a place of [r ++ g] exactly when
    it matches in [r]. *)
Lemma prefixb_suffix symbol r g :
  symbol <> [] -> forallb numeral_letter symbol = true -> no_letter g = true ->
  prefixb symbol (r ++ g) = prefixb symbol r.
Proof.
  intros Hne Hs Hg. clear Hne.
  revert r. induction symbol as [|a symbol IH]; intros r; [reflexivity|].
  cbn [forallb] in Hs. apply andb_true_iff in Hs as [Ha Hs].
  destruct r as [|b r]; cbn [app prefixb].
  - destruct g as [|c g]; [reflexivity|].
    cbn [no_letter forallb] in Hg. apply andb_true_iff in Hg as [Hc _].
    apply negb_true_iff in Hc. now rewrite (letter_no_letter a c).
  - now rewrite IH.
Qed.

Lemma prefixb_nil symbol : symbol <> [] -> prefixb symbol [] = false.
Proof. destruct symbol; [congruence | reflexivity]. Qed.

Lemma contains_suffix seq r g :
  seq <> [] -> forallb numeral_letter seq = true -> no_letter g = true ->
  contains seq (r ++ g) = contains seq r.
Proof.
  intros Hne Hs Hg. induction r as [|b r IH].
  - cbn [app]. cbn [contains]. rewrite (prefixb_nil seq Hne). cbn [orb].
    clear - Hne Hs Hg. induction g as [|c g IH].
    + cbn [contains]. now rewrite (prefixb_nil seq Hne).
    + cbn [contains].
      rewrite <- (app_nil_l (c :: g)), (prefixb_suffix seq [] (c :: g)),
        (prefixb_nil seq Hne) by assumption.
      cbn [orb]. apply IH. cbn [no_letter forallb] in Hg.
      now apply andb_true_iff in Hg as [_ Hg].
  - cbn [app contains]. rewrite IH.
    change (b :: r ++ g) with ((b :: r) ++ g).
    now rewrite (prefixb_suffix seq (b :: r) g).
Qed.

Lemma invalid_sequences_letters seq :
  In seq NumRom.invalid_sequences ->
  seq <> [] /\ forallb numeral_letter seq = true.
Proof.
  intros H.
  repeat (destruct H as [<-|H]; [split; [discriminate | reflexivity]|]).
  destruct H.
Qed.

Lemma check_sequences_suffix seqs r g :
  (forall seq, In seq seqs -> seq <> [] /\ forallb numeral_letter seq = true) ->
  no_letter g = true ->
  NumRom.check_sequences seqs (r ++ g) = NumRom.check_sequences seqs r.
Proof.
  intros Hall Hg. induction seqs as [|seq seqs IH]; [reflexivity|].
  cbn [NumRom.check_sequences].
  destruct (Hall seq (in_eq _ _)) as [Hne Hs].
  rewrite (contains_suffix seq r g Hne Hs Hg), IH; [reflexivity|].
  intros x Hx. apply Hall. now right.
Qed.

(** The position check passes over letters, and passes for good from
    the sixth place before the end. *)
Lemma letter_not_fraction c :
  numeral_letter c = true -> contains [c] (lit "S" ++ [middot]) = false.
Proof.
  unfold numeral_letter. cbn [lit existsb]. intros H.
  repeat (apply orb_true_iff in H as [H|H];
          [apply N.eqb_eq in H; subst c; reflexivity|]).
  discriminate H.
Qed.

Lemma check_fractions_letters n i body rest :
  forallb numeral_letter body = true ->
  NumRom.check_fractions n i (body ++ rest)
  = NumRom.check_fractions n (i + Z.of_nat (length body)) rest.
Proof.
  revert i. induction body as [|c body IH]; intros i Hb.
  - cbn [app length]. now rewrite Z.add_0_r.
  - cbn [forallb] in Hb. apply andb_true_iff in Hb as [Hc Hb].
    cbn [app NumRom.check_fractions]. rewrite (letter_not_fraction c Hc).
    cbn [andb]. rewrite (IH _ Hb). f_equal. cbn [length]. lia.
Qed.

Lemma check_fractions_end n i rest :
  (n - 6 <= i)%Z -> NumRom.check_fractions n i rest = Ok tt.
Proof.
  revert i. induction rest as [|c rest IH]; intros i Hi; [reflexivity|].
  cbn [NumRom.check_fractions].
  replace (i <? n - 6)%Z with false by (symmetry; apply Z.ltb_ge; lia).
  rewrite andb_false_r. apply IH. lia.
Qed.

Section Suffix.
Variable unicode_upper : codepoint -> list codepoint.
Local Abbreviation upper := (PyStr.upper unicode_upper).
Local Abbreviation a_decimal := (NumRom.a_decimal unicode_upper).
Local Abbreviation _valida_romano := (NumRom._valida_romano unicode_upper).

Lemma upper_letter c : numeral_letter c = true -> upper [c] = [c].
Proof.
  unfold numeral_letter. cbn [lit existsb]. intros H.
  repeat (apply orb_true_iff in H as [H|H];
          [apply N.eqb_eq in H; subst c; reflexivity|]).
  discriminate H.
Qed.

Lemma upper_letters body : forallb numeral_letter body = true -> upper body = body.
Proof.
  induction body as [|c body IH]; [reflexivity|]. intros H.
  cbn [forallb] in H. apply andb_true_iff in H as [Hc Hb].
  change (c :: body) with ([c] ++ body).
  now rewrite upper_app, (upper_letter c Hc), (IH Hb).
Qed.

(** The validator passes a numeral of letters with a glyph of at most
    six characters after it, if it passes the letters. *)
Lemma _valida_romano_suffix body g :
  forallb numeral_letter body = true -> no_letter g = true ->
  upper g = g -> length g <= 6 ->
  NumRom.check_sequences NumRom.invalid_sequences body = Ok tt ->
  _valida_romano (body ++ g) = Ok tt.
Proof.
  intros Hb Hg Hu Hlen Hseq. unfold NumRom._valida_romano. cbv zeta.
  rewrite upper_app, (upper_letters body Hb), Hu.
  rewrite (check_sequences_suffix _ body g invalid_sequences_letters Hg), Hseq.
  cbn [bind]. destruct (existsb _ _); [|reflexivity].
  rewrite (check_fractions_letters _ _ body g Hb).
  apply check_fractions_end. rewrite length_app. lia.
Qed.

End Suffix.

(** The scan of [body ++ g] is the scan of [body]. *)
Lemma consume_suffix body g symbol value fuel fuel' result i :
  digit_entry (symbol, value) = true -> no_letter g = true ->
  i <= length body ->
  length body - i <= fuel -> length body - i <= fuel' ->
  NumRom.consume fuel' (body ++ g) symbol value (result, i)
  = NumRom.consume fuel body symbol value (result, i).
Proof.
  intros He Hg. apply digit_entry_spec in He as (Hne & Hs & _).
  assert (Hstop : forall f r,
            NumRom.consume f (body ++ g) symbol value (r, length body)
            = (r, length body)).
  { intros [|f] r; [reflexivity|]. cbn [NumRom.consume].
    unfold startswith. rewrite skipn_app, skipn_all, Nat.sub_diag.
    cbn [skipn app].
    rewrite <- (app_nil_l g), (prefixb_suffix symbol [] g Hne Hs Hg),
      (prefixb_nil symbol Hne).
    now rewrite !andb_false_r. }
  assert (Hstop' : forall f r,
            NumRom.consume f body symbol value (r, length body)
            = (r, length body)).
  { intros [|f] r; [reflexivity|]. cbn [NumRom.consume].
    now rewrite Nat.ltb_irrefl. }
  revert fuel' result i.
  induction fuel as [|fuel IH]; intros fuel' result i Hi Hf Hf'.
  - replace i with (length body) by lia. now rewrite Hstop.
  - destruct (Nat.eq_dec i (length body)) as [->|Hlt].
    + now rewrite Hstop, Hstop'.
    + destruct fuel' as [|fuel']; [lia|]. cbn [NumRom.consume].
      assert (E : startswith (body ++ g) symbol i = startswith body symbol i).
      { unfold startswith. rewrite skipn_app.
        replace (i - length body) with 0 by lia. cbn [skipn].
        rewrite (prefixb_suffix symbol _ g Hne Hs Hg), length_app.
        replace (Nat.leb i (length body + length g)) with true
          by (symmetry; apply Nat.leb_le; lia).
        replace (Nat.leb i (length body)) with true
          by (symmetry; apply Nat.leb_le; lia).
        reflexivity. }
      rewrite E, length_app.
      replace (Nat.ltb i (length body + length g)) with true
        by (symmetry; apply Nat.ltb_lt; lia).
      replace (Nat.ltb i (length body)) with true
        by (symmetry; apply Nat.ltb_lt; lia).
      cbn [andb]. destruct (startswith body symbol i) eqn:Es; [|reflexivity].
      apply startswith_firstn in Es as [Hlen _].
      assert (0 < length symbol) by (destruct symbol; [congruence|simpl; lia]).
      apply IH; lia.
Qed.

Lemma scan_suffix body g :
  no_letter g = true -> NumRom.scan (body ++ g) = NumRom.scan body.
Proof.
  intros Hg. unfold NumRom.scan.
  pose proof digit_entries as Hall. rewrite forallb_forall in Hall.
  assert (H0 : scanned body (0%Z, 0)).
  { unfold scanned. cbn [fst snd firstn forallb]. repeat split; lia. }
  revert H0. generalize (0%Z, 0).
  induction NumRom._valores_romanos as [|[symbol value] table IH];
    intros [result i] Hst; cbn [fold_left fst snd]; [reflexivity|].
  assert (He : digit_entry (symbol, value) = true) by (apply Hall; now left).
  pose proof Hst as (Hi & _). cbn [snd] in Hi.
  rewrite (consume_suffix body g symbol value (length body) (length (body ++ g)))
    by (try assumption; rewrite ?length_app; lia).
  pose proof (consume_scanned body (length body) symbol value _ He Hst) as Hst'.
  destruct (NumRom.consume _ body symbol value (result, i)) as [result' i'].
  apply IH; [|exact Hst'].
  intros x Hx. apply Hall. now right.
Qed.

Lemma endswith_last w c d : endswith (w ++ [c]) [d] = N.eqb c d.
Proof.
  unfold endswith. rewrite length_app. cbn [length].
  replace (length w + 1 - 1) with (length w) by lia.
  rewrite skipn_app, skipn_all, Nat.sub_diag. cbn [skipn app].
  replace (Nat.leb 1 (length w + 1)) with true
    by (symmetry; apply Nat.leb_le; lia).
  cbn [andb]. unfold str_eqb.
  destruct (list_eq_dec N.eq_dec [c] [d]) as [E|E], (N.eqb_spec c d);
    congruence.
Qed.

Section Glyph.
Variable unicode_upper : codepoint -> list codepoint.
Local Abbreviation upper := (PyStr.upper unicode_upper).
Local Abbreviation a_decimal := (NumRom.a_decimal unicode_upper).
Local Abbreviation _valida_romano := (NumRom._valida_romano unicode_upper).

(** What is known of a string on which [a_decimal] returns an int. *)
Lemma a_decimal_int p n :
  a_decimal p = Ok (PInt n) ->
  NumRom.is_empty p = false
  /\ forallb numeral_letter (upper p) = true
  /\ NumRom.check_sequences NumRom.invalid_sequences (upper p) = Ok tt
  /\ NumRom.scan (upper p) = (n, length (upper p)).
Proof.
  intros H. rewrite a_decimal_unfold in H.
  destruct (NumRom.is_empty p); [discriminate H|]. split; [reflexivity|].
  cbv zeta in H. set (roman := upper p) in *.
  destruct (_valida_romano roman) as [[]|] eqn:Ev; [|discriminate H].
  cbn [bind] in H.
  destruct (scan_scanned roman) as (Hi & Hl & Hn).
  destruct (NumRom.scan roman) as [n' i]. cbn [fst snd] in *.
  rewrite fraction_cases in H. cbn [fst snd] in H.
  destruct (endswith roman (lit "S")).
  { exfalso. revert H. cbn [bind].
    destruct (add (PInt n') (PFloat (6 / 12))) as [r|] eqn:Ea; [|discriminate].
    apply add_int_float in Ea. subst r. cbn [bind fst snd].
    destruct (negb _); discriminate. }
  destruct (endswith roman [middot]).
  { exfalso. revert H. cbn [bind].
    destruct (add (PInt n') (PFloat (1 / 12))) as [r|] eqn:Ea; [|discriminate].
    apply add_int_float in Ea. subst r. cbn [bind fst snd].
    destruct (negb _); discriminate. }
  cbn [bind fst snd] in H.
  destruct (Nat.eqb i (length roman)) eqn:E; cbn [negb] in H; [|discriminate H].
  injection H as ->. apply Nat.eqb_eq in E. subst i.
  rewrite firstn_all in Hl.
  split; [exact Hl|]. split; [|reflexivity].
  unfold NumRom._valida_romano in Ev. cbv zeta in Ev.
  rewrite (upper_letters unicode_upper roman Hl) in Ev.
  destruct (NumRom.check_sequences _ roman) as [[]|]; [reflexivity|discriminate Ev].
Qed.

(** [a_decimal] on [p ++ g], for a glyph [g], from what it does on [p]. *)
Lemma a_decimal_glyph p n g :
  a_decimal p = Ok (PInt n) ->
  no_letter g = true -> upper g = g -> length g <= 6 ->
  a_decimal (p ++ g)
  = (ri <- NumRom.fraction (upper p ++ g) NumRom._valores_fracciones
             (PInt n, length (upper p)) ;;
     if negb (Nat.eqb (snd ri) (length (upper p ++ g)))
     then Raise (RomanError (RomanoInvalido (upper p ++ g)))
     else Ok (fst ri)).
Proof.
  intros H Hg Hu Hlen. apply a_decimal_int in H as (Hne & Hl & Hseq & Hscan).
  rewrite a_decimal_unfold.
  replace (NumRom.is_empty (p ++ g)) with false
    by (destruct p; [discriminate Hne | reflexivity]).
  cbv zeta. rewrite upper_app, Hu.
  rewrite (_valida_romano_suffix unicode_upper _ g Hl Hg Hu Hlen Hseq).
  cbn [bind]. now rewrite (scan_suffix _ g Hg), Hscan.
Qed.

End Glyph.

(** S after a whole numeral adds a half. *)
Lemma a_decimal_glyph_S unicode_upper p n :
  NumRom.a_decimal unicode_upper p = Ok (PInt n) ->
  NumRom.a_decimal unicode_upper (p ++ lit "S")
  = add (PInt n) (PFloat (6 / 12)).
Proof.
  intros H.
  rewrite (a_decimal_glyph unicode_upper p n (lit "S") H)
    by (try reflexivity; simpl; lia).
  rewrite fraction_cases, endswith_app. cbn [fst snd].
  destruct (add _ _) as [r|]; [|reflexivity]. cbn [bind fst snd].
  rewrite length_app. cbn [length lit]. now rewrite Nat.eqb_refl.
Qed.

(** One dot after a whole numeral adds a twelfth. *)
Lemma a_decimal_glyph_dot unicode_upper p n :
  NumRom.a_decimal unicode_upper p = Ok (PInt n) ->
  NumRom.a_decimal unicode_upper (p ++ [middot])
  = add (PInt n) (PFloat (1 / 12)).
Proof.
  intros H.
  rewrite (a_decimal_glyph unicode_upper p n [middot] H)
    by (try reflexivity; simpl; lia).
  rewrite fraction_cases, endswith_app.
  change (lit "S") with [83%N]. rewrite endswith_last.
  change (N.eqb middot 83) with false. cbn [fst snd].
  destruct (add _ _) as [r|]; [|reflexivity]. cbn [bind fst snd].
  rewrite length_app. cbn [length]. now rewrite Nat.eqb_refl.
Qed.

(** Two dots or more after a whole numeral: one dot is read, and the
    numeral is rejected. *)
Lemma a_decimal_glyph_dots unicode_upper p n g v :
  NumRom.a_decimal unicode_upper p = Ok (PInt n) ->
  In (g, v) (skipn 2 NumRom._valores_fracciones) ->
  NumRom.a_decimal unicode_upper (p ++ g)
  = (add (PInt n) (PFloat (1 / 12)) ;;;
     Raise (RomanError (RomanoInvalido (upper unicode_upper p ++ g)))).
Proof.
  intros H Hin.
  assert (Hg : exists w, g = w ++ [middot; middot]
                         /\ no_letter g = true /\ upper unicode_upper g = g
                         /\ length g <= 6).
  { repeat (destruct Hin as [Hin|Hin];
            [injection Hin as <- _;
             (exists []; repeat split; simpl; lia)
             || (exists [middot]; repeat split; simpl; lia)
             || (exists [middot; middot]; repeat split; simpl; lia)
             || (exists [middot; middot; middot]; repeat split; simpl; lia)|]).
    destruct Hin. }
  destruct Hg as (w & Ew & Hg & Hu & Hlen).
  rewrite (a_decimal_glyph unicode_upper p n g H Hg Hu Hlen).
  rewrite fraction_cases. subst g.
  assert (E1 : endswith (upper unicode_upper p ++ w ++ [middot; middot])
                 (lit "S") = false).
  { change (w ++ [middot; middot]) with (w ++ [middot] ++ [middot]).
    rewrite !app_assoc. change (lit "S") with [83%N].
    now rewrite endswith_last. }
  assert (E2 : endswith (upper unicode_upper p ++ w ++ [middot; middot])
                 [middot] = true).
  { change (w ++ [middot; middot]) with (w ++ [middot] ++ [middot]).
    rewrite !app_assoc. apply endswith_app. }
  rewrite E1, E2. cbn [fst snd].
  destruct (add _ _) as [r|]; [|reflexivity]. cbn [bind fst snd].
  replace (Nat.eqb _ _) with false; [reflexivity|].
  symmetry. apply Nat.eqb_neq. rewrite !length_app. simpl. lia.
Qed.

(** X2. A fraction glyph after a whole numeral.  When [a_decimal]
    reads [p] as the integer [n], it reads [p] followed by S as
    [n + 6/12] and [p] followed by one dot as [n + 1/12], the sums
    that Python computes; [p] followed by a glyph of two dots or more
    is rejected as an invalid numeral, after 1/12 has been added. *)
Theorem a_decimal_fraction_glyph
    (unicode_upper : codepoint -> list codepoint) (p : str) (n : Z) :
  NumRom.a_decimal unicode_upper p = Ok (PInt n) ->
  NumRom.a_decimal unicode_upper (p ++ lit "S")
  = add (PInt n) (PFloat (6 / 12))
  /\ NumRom.a_decimal unicode_upper (p ++ [middot])
     = add (PInt n) (PFloat (1 / 12))
  /\ (forall g v,
        In (g, v) (skipn 2 NumRom._valores_fracciones) ->
        NumRom.a_decimal unicode_upper (p ++ g)
        = (add (PInt n) (PFloat (1 / 12)) ;;;
           Raise (RomanError (RomanoInvalido (upper unicode_upper p ++ g))))).
Proof.
  intros H. split; [now apply a_decimal_glyph_S|].
  split; [now apply a_decimal_glyph_dot|].
  intros g v Hin. now apply a_decimal_glyph_dots with (v := v).
Qed.

(** An instance: "xiv", read as 14. *)
Lemma a_decimal_fraction_glyph_witness :
  NumRom.a_decimal caseless_upper (lit "xiv" ++ lit "S")
  = add (PInt 14) (PFloat (6 / 12))
  /\ NumRom.a_decimal caseless_upper (lit "xiv" ++ [middot])
     = add (PInt 14) (PFloat (1 / 12))
  /\ (forall g v,
        In (g, v) (skipn 2 NumRom._valores_fracciones) ->
        NumRom.a_decimal caseless_upper (lit "xiv" ++ g)
        = (add (PInt 14) (PFloat (1 / 12)) ;;;
           Raise (RomanError
                    (RomanoInvalido (upper caseless_upper (lit "xiv") ++ g))))).
Proof.
  apply (a_decimal_fraction_glyph caseless_upper (lit "xiv") 14).
  vm_compute. reflexivity.
Defined.

(** ** NumRom.a_decimal: a fraction character before the end *)

Lemma check_sequences_passes seqs roman :
  NumRom.check_sequences seqs roman = Ok tt
  <-> (forall seq, In seq seqs -> contains seq roman = false).
Proof.
  induction seqs as [|x seqs IH]; cbn [NumRom.check_sequences].
  - split; [intros _ seq [] | reflexivity].
  - destruct (contains x roman) eqn:Ex.
    + split; [discriminate|]. intros H. specialize (H x (in_eq _ _)).
      congruence.
    + rewrite IH. split.
      * intros H seq [<-|Hin]; auto.
      * intros H seq Hin. apply H. now right.
Qed.

(** The position loop raises exactly when a character of 'S·' stands
    more than six places before the end. *)
Lemma check_fractions_raises n i chars :
  NumRom.check_fractions n i chars = Raise (RomanError FraccionesAlFinal)
  <-> exists j c,
        nth_error chars j = Some c
        /\ contains [c] (lit "S" ++ [middot]) = true
        /\ (i + Z.of_nat j < n - 6)%Z.
Proof.
  revert i. induction chars as [|x chars IH]; intros i;
    cbn [NumRom.check_fractions].
  - split; [discriminate|]. intros (j & c & H & _). destruct j; discriminate H.
  - destruct (contains [x] (lit "S" ++ [middot]) && (i <? n - 6)%Z) eqn:E.
    + split; [intros _|reflexivity].
      apply andb_true_iff in E as [Ex Ei]. apply Z.ltb_lt in Ei.
      exists 0, x. split; [reflexivity|]. split; [exact Ex|lia].
    + rewrite IH. split.
      * intros (j & c & Hj & Hc & Hi). exists (S j), c.
        split; [exact Hj|]. split; [exact Hc|lia].
      * intros (j & c & Hj & Hc & Hi). destruct j as [|j].
        -- injection Hj as ->. rewrite Hc in E. cbn [andb] in E.
           apply Z.ltb_ge in E. lia.
        -- exists j, c. split; [exact Hj|]. split; [exact Hc|lia].
Qed.

Lemma nth_error_contains (roman : str) j c :
  nth_error roman j = Some c -> contains [c] roman = true.
Proof.
  intros H. apply nth_error_split in H as (a & b & -> & _).
  apply (contains_app [c] a b).
Qed.

Lemma fraction_char_cases c :
  contains [c] (lit "S" ++ [middot]) = true -> c = 83%N \/ c = middot.
Proof.
  change (lit "S" ++ [middot]) with [83%N; middot].
  cbn [contains prefixb]. rewrite !andb_true_r, !orb_false_r.
  intros H. apply orb_true_iff in H as [H|H]; apply N.eqb_eq in H; auto.
Qed.

Lemma fraction_char_glyph c roman :
  contains [c] (lit "S" ++ [middot]) = true -> contains [c] roman = true ->
  existsb (fun f : str * float => contains (fst f) roman)
    NumRom._valores_fracciones = true.
Proof.
  intros Hc Hr. apply existsb_exists.
  apply fraction_char_cases in Hc as [-> | ->].
  - exists (lit "S", (6 / 12)%float). split; [now left | exact Hr].
  - exists ([middot], (1 / 12)%float). split; [right; now left | exact Hr].
Qed.

(** After the validator, [a_decimal] raises the invalid-numeral error
    or an [OverflowError], or returns. *)
Lemma a_decimal_after_validation unicode_upper s :
  NumRom.is_empty s = false ->
  NumRom._valida_romano unicode_upper (upper unicode_upper s) = Ok tt ->
  NumRom.a_decimal unicode_upper s <> Raise (RomanError FraccionesAlFinal).
Proof.
  intros Hne Hv. rewrite a_decimal_unfold, Hne. cbv zeta. rewrite Hv.
  cbn [bind]. rewrite fraction_cases. cbn [fst snd].
  assert (Hadd : forall f j,
            (ri <- (result <- add (PInt (fst (NumRom.scan (upper unicode_upper s))))
                               (PFloat f) ;; Ok (result, j)) ;;
             (if negb (Nat.eqb (snd ri) (length (upper unicode_upper s)))
              then Raise (RomanError (RomanoInvalido (upper unicode_upper s)))
              else Ok (fst ri)))
            <> Raise (RomanError FraccionesAlFinal)).
  { intros f j. cbn [add as_float bind].
    destruct (float_of_int_cases (fst (NumRom.scan (upper unicode_upper s))))
      as [-> | ->]; cbn [bind]; [discriminate|].
    destruct (negb _); discriminate. }
  destruct (endswith _ (lit "S")); [apply Hadd|].
  destruct (endswith _ [middot]); [apply Hadd|].
  cbn [bind]. destruct (negb _); discriminate.
Qed.

(** X3. The error on the position of the fractions, exactly.  For a
    string whose upper-cased form [u] does not change when it is
    upper-cased again, [a_decimal] raises it if and only if [u]
    contains no forbidden sequence and has an S or a dot at an index
    below [len(u) - 6]. *)
Theorem a_decimal_fraction_position
    (unicode_upper : codepoint -> list codepoint) (s u : str) :
  upper unicode_upper s = u -> upper unicode_upper u = u ->
  NumRom.a_decimal unicode_upper s = Raise (RomanError FraccionesAlFinal)
  <-> (forall seq, In seq NumRom.invalid_sequences -> contains seq u = false)
      /\ exists i c,
           nth_error u i = Some c
           /\ contains [c] (lit "S" ++ [middot]) = true
           /\ (Z.of_nat i < Z.of_nat (length u) - 6)%Z.
Proof.
  intros Hs Hu.
  assert (Hv : NumRom._valida_romano unicode_upper u
               = (NumRom.check_sequences NumRom.invalid_sequences u ;;;
                  if existsb (fun f : str * float => contains (fst f) u)
                       NumRom._valores_fracciones
                  then NumRom.check_fractions (Z.of_nat (length u)) 0 u
                  else Ok tt)).
  { unfold NumRom._valida_romano. cbv zeta. now rewrite Hu. }
  split.
  - intros H.
    assert (Hne : NumRom.is_empty s = false).
    { destruct s; [discriminate H | reflexivity]. }
    assert (Hr : NumRom._valida_romano unicode_upper u
                 = Raise (RomanError FraccionesAlFinal)).
    { clear Hv. destruct (NumRom._valida_romano unicode_upper u) as [[]|e] eqn:E.
      - exfalso. revert H. apply a_decimal_after_validation; [exact Hne|].
        now rewrite Hs.
      - rewrite a_decimal_unfold, Hne in H. cbv zeta in H.
        rewrite Hs, E in H. cbn [bind] in H. injection H as ->.
        reflexivity. }
    rewrite Hv in Hr.
    destruct (NumRom.check_sequences _ u) as [[]|e] eqn:Eseq.
    + split; [now apply check_sequences_passes|].
      cbn [bind] in Hr. destruct (existsb _ _); [|discriminate Hr].
      apply check_fractions_raises in Hr as (j & c & Hj & Hc & Hi).
      exists j, c. split; [exact Hj|]. split; [exact Hc|lia].
    + exfalso. cbn [bind] in Hr.
      destruct (check_sequences_outcome NumRom.invalid_sequences u)
        as [E|[seq E]]; rewrite E in Eseq; [discriminate Eseq|].
      injection Eseq as <-. discriminate Hr.
  - intros (Hseq & i & c & Hi & Hc & Hlt).
    assert (Hne : NumRom.is_empty s = false).
    { destruct s; [|reflexivity]. cbn in Hs. subst u.
      destruct i; discriminate Hi. }
    rewrite a_decimal_unfold, Hne. cbv zeta. rewrite Hs, Hv.
    apply check_sequences_passes in Hseq. rewrite Hseq. cbn [bind].
    rewrite (fraction_char_glyph c u Hc (nth_error_contains u i c Hi)).
    replace (NumRom.check_fractions _ 0 u)
      with (@Raise unit (RomanError FraccionesAlFinal)); [reflexivity|].
    symmetry. apply check_fractions_raises. exists i, c.
    split; [exact Hi|]. split; [exact Hc|lia].
Qed.

(** An instance: "sxvixvi", with its S seven places before the end. *)
Lemma a_decimal_fraction_position_witness :
  NumRom.a_decimal caseless_upper (lit "sxvixvi")
  = Raise (RomanError FraccionesAlFinal).
Proof.
  apply (proj2 (a_decimal_fraction_position caseless_upper
                  (lit "sxvixvi") (lit "SXVIXVI") eq_refl eq_refl)).
  split.
  - intros seq Hin.
    repeat (destruct Hin as [<-|Hin]; [reflexivity|]). destruct Hin.
  - exists 0, 83%N. repeat split.
Defined.

(** ** NumRom: reading back what [a_romano] writes *)

Section ReadBack.
Variable unicode_upper : codepoint -> list codepoint.
Local Abbreviation upper := (PyStr.upper unicode_upper).
Local Abbreviation a_decimal := (NumRom.a_decimal unicode_upper).
Local Abbreviation _valida_romano := (NumRom._valida_romano unicode_upper).

(** No glyph and no numeral: what [a_romano] writes for the integer
    part 0, evaluated. *)
Lemma numeral_check_zero : numeral_check unicode_upper 0 = true.
Proof. vm_compute. reflexivity. Qed.

(** The digits of every integer of the range read back as it, and are
    upper case. *)
Lemma digits_read k :
  (1 <= k <= 3999)%Z ->
  a_decimal (fst (NumRom.digits k)) = Ok (PInt k)
  /\ upper (fst (NumRom.digits k)) = fst (NumRom.digits k).
Proof.
  intros Hk.
  assert (H : digits_check unicode_upper k = true).
  { apply (forallb_range (digits_check unicode_upper) 1 3999);
      [vm_compute; reflexivity | lia]. }
  unfold digits_check in H. apply andb_true_iff in H as [H1 H2].
  apply str_eqb_eq in H1. apply result_eqb_eq in H2. now split.
Qed.

(** A suffix without letters, after letters: only the glyph counts. *)
Lemma endswith_suffix body g symbol :
  forallb numeral_letter body = true -> no_letter symbol = true ->
  endswith (body ++ g) symbol = endswith g symbol.
Proof.
  intros Hb Hs. unfold endswith. rewrite length_app.
  destruct (Nat.leb (length symbol) (length g)) eqn:E.
  - apply Nat.leb_le in E.
    replace (Nat.leb (length symbol) (length body + length g)) with true
      by (symmetry; apply Nat.leb_le; lia).
    rewrite skipn_app, skipn_all2 by lia.
    replace (length body + length g - length symbol - length body)
      with (length g - length symbol) by lia.
    reflexivity.
  - apply Nat.leb_gt in E. cbn [andb].
    destruct (Nat.leb (length symbol) (length body + length g)) eqn:E';
      [|reflexivity].
    apply Nat.leb_le in E'. cbn [andb].
    destruct (str_eqb _ symbol) eqn:Eq; [|reflexivity]. exfalso.
    apply str_eqb_eq in Eq. rewrite skipn_app in Eq.
    replace (length body + length g - length symbol - length body)
      with 0 in Eq by lia.
    cbn [skipn] in Eq.
    destruct (skipn (length body + length g - length symbol) body)
      as [|c rest] eqn:Ek.
    + apply (f_equal (@length _)) in Ek. rewrite length_skipn in Ek.
      cbn [length] in Ek. lia.
    + assert (Hc : In c body).
      { rewrite <- (firstn_skipn (length body + length g - length symbol) body).
        apply in_or_app. right. rewrite Ek. now left. }
      rewrite forallb_forall in Hb. apply Hb in Hc.
      subst symbol. cbn [app no_letter forallb] in Hs.
      apply andb_true_iff in Hs as [Hs _]. rewrite Hc in Hs. discriminate Hs.
Qed.

Lemma numeral_read k glyph :
  (0 <= k <= 3999)%Z -> In glyph glyphs ->
  upper (upper (numeral_of k glyph)) = upper (numeral_of k glyph)
  /\ a_decimal (numeral_of k glyph)
     = read_back unicode_upper k (numeral_of k glyph).
Proof.
  intros Hk Hg. destruct (Z.eq_dec k 0) as [->|Hk0].
  - pose proof numeral_check_zero as H.
    unfold numeral_check in H. rewrite forallb_forall in H.
    specialize (H glyph Hg). cbv zeta in H.
    apply andb_true_iff in H as [H1 H2].
    apply str_eqb_eq in H1. apply result_eqb_eq in H2. now split.
  - destruct (digits_read k) as [Hd Hu]; [lia|].
    pose proof (a_decimal_int unicode_upper _ _ Hd) as (Hne & Hl & _).
    rewrite Hu in Hl. set (p := fst (NumRom.digits k)) in *.
    assert (Es : numeral_of k glyph = p ++ glyph).
    { unfold numeral_of. cbv zeta.
      replace (k >? 0)%Z with true by (symmetry; apply Z.gtb_lt; lia).
      fold p. cbn [app].
      destruct p; [discriminate Hne | reflexivity]. }
    assert (Hglyph : no_letter glyph = true /\ upper glyph = glyph).
    { clear - Hg.
      repeat (destruct Hg as [<-|Hg]; [split; reflexivity|]). destruct Hg. }
    destruct Hglyph as [Hgl Hgu].
    assert (Eu : upper (p ++ glyph) = p ++ glyph)
      by now rewrite upper_app, Hu, Hgu.
    rewrite Es, !Eu. split; [reflexivity|].
    unfold read_back. rewrite Eu.
    replace (str_eqb (p ++ glyph) (lit "Nihil")) with false.
    2:{ symmetry. destruct (str_eqb _ _) eqn:E; [|reflexivity].
        apply str_eqb_eq in E. destruct p as [|c p']; [discriminate Hne|].
        injection E as -> _. discriminate Hl. }
    rewrite !(endswith_suffix p glyph) by (assumption || reflexivity).
    pose proof (a_decimal_glyph_S unicode_upper p k Hd) as HS.
    pose proof (a_decimal_glyph_dot unicode_upper p k Hd) as HD.
    pose proof (fun g v => a_decimal_glyph_dots unicode_upper p k g v Hd)
      as HDD.
    assert (Hadd : forall f, add (PInt k) (PFloat f)
                             = Ok (PFloat (float_of_Z k + f))).
    { intros f. cbn [add as_float bind].
      now rewrite (float_of_int_small k Hk). }
    destruct Hg as [<-|Hg]; [rewrite app_nil_r; exact Hd|].
    destruct Hg as [<-|Hg]; [exact HS|].
    destruct Hg as [<-|Hg]; [exact HD|].
    assert (Hdots : forall g v,
              In (g, v) (skipn 2 NumRom._valores_fracciones) ->
              a_decimal (p ++ g)
              = (if false || endswith g [middot; middot]
                 then Raise (RomanError (RomanoInvalido (p ++ g)))
                 else if endswith g (lit "S")
                      then add (PInt k) (PFloat (6 / 12))
                      else if endswith g [middot]
                           then add (PInt k) (PFloat (1 / 12))
                           else Ok (PInt k))).
    { intros g v Hin. rewrite (HDD g v Hin), Hadd, Hu. cbn [bind].
      repeat (destruct Hin as [Hin|Hin]; [injection Hin as <- _; reflexivity|]).
      destruct Hin. }
    destruct Hg as [<-|Hg]; [eapply Hdots; cbn; eauto|].
    destruct Hg as [<-|Hg]; [eapply Hdots; cbn; eauto|].
    destruct Hg as [<-|Hg]; [eapply Hdots; cbn; eauto|].
    destruct Hg as [<-|Hg]; [eapply Hdots; cbn; eauto 6|].
    destruct Hg.
Qed.

(** When [a_decimal] returns, or rejects the numeral as invalid, the
    validator has passed. *)
Lemma a_decimal_validated s :
  (exists v, a_decimal s = Ok v)
  \/ (exists roman, a_decimal s = Raise (RomanError (RomanoInvalido roman))) ->
  _valida_romano (upper s) = Ok tt.
Proof.
  unfold NumRom.a_decimal. destruct (NumRom.is_empty s).
  - intros [[v H]|[roman H]]; discriminate H.
  - cbv zeta.
    destruct (_valida_romano_outcome unicode_upper (upper s)) as [E | [[seq E] | E]];
      [intros _; exact E | |]; rewrite E; cbn [bind];
      intros [[v H]|[roman H]]; discriminate H.
Qed.

Lemma _valida_romano_upper s :
  upper (upper s) = upper s -> _valida_romano (upper s) = _valida_romano s.
Proof. intros E. unfold NumRom._valida_romano. cbv zeta. now rewrite E. Qed.

Lemma read_back_outcome k s :
  (exists v, read_back unicode_upper k s = Ok v)
  \/ (exists roman, read_back unicode_upper k s
                    = Raise (RomanError (RomanoInvalido roman)))
  \/ read_back unicode_upper k s = Raise OverflowError.
Proof.
  unfold read_back.
  destruct (_ || _); [right; left; eauto|].
  assert (Hadd : forall f,
            (exists v, add (PInt k) (PFloat f) = Ok v)
            \/ add (PInt k) (PFloat f) = Raise OverflowError).
  { intros f. cbn [add as_float bind].
    destruct (float_of_int_cases k) as [-> | ->]; cbn [bind]; eauto. }
  destruct (endswith s (lit "S")); [destruct (Hadd (6 / 12)%float); auto|].
  destruct (endswith s [middot]); [destruct (Hadd (1 / 12)%float); auto|].
  left. eauto.
Qed.

Lemma numeral_validated k glyph :
  (0 <= k <= 3999)%Z -> In glyph glyphs ->
  _valida_romano (numeral_of k glyph) = Ok tt.
Proof.
  intros Hk Hg. destruct (numeral_read k glyph Hk Hg) as [Hu Hd].
  rewrite <- (_valida_romano_upper _ Hu). apply a_decimal_validated.
  rewrite Hd.
  destruct (read_back_outcome k (numeral_of k glyph)) as [H|[H|H]]; auto.
  exfalso. revert H. unfold read_back.
  destruct (_ || _); [discriminate|].
  cbn [add as_float bind]. rewrite (float_of_int_small k Hk). cbn [bind].
  destruct (endswith _ (lit "S")); [discriminate|].
  destruct (endswith _ [middot]); discriminate.
Qed.

End ReadBack.

Lemma a_romano_returned decimal s :
  NumRom.a_romano decimal = Ok s ->
  exists k glyph,
    int decimal = Ok k /\ (0 <= k <= 3999)%Z /\ In glyph glyphs
    /\ s = numeral_of k glyph.
Proof.
  intros H.
  assert (H0 : lt decimal (PInt 0) = false /\ gt decimal (PFloat 3999.5) = false).
  { unfold NumRom.a_romano in H.
    destruct (lt decimal (PInt 0)); [discriminate H|].
    destruct (gt decimal (PFloat 3999.5)); [discriminate H|]. now split. }
  destruct H0 as [H0 H1].
  assert (Hk : exists k, int decimal = Ok k).
  { unfold NumRom.a_romano in H. rewrite H0, H1 in H. cbn [orb] in H.
    destruct (int decimal) as [k|]; [eauto | discriminate H]. }
  destruct Hk as [k Hk].
  destruct (a_romano_numeral decimal k H0 H1 Hk) as (glyph & Hg & E).
  exists k, glyph. split; [exact Hk|].
  split; [now apply (int_in_range decimal)|]. split; [exact Hg|].
  congruence.
Qed.

(** X4. Every numeral that [a_romano] returns passes [_valida_romano]. *)
Theorem a_romano_passes_valida_romano
    (unicode_upper : codepoint -> list codepoint) (decimal : PyNum) (s : str) :
  NumRom.a_romano decimal = Ok s ->
  NumRom._valida_romano unicode_upper s = Ok tt.
Proof.
  intros H. apply a_romano_returned in H as (k & glyph & _ & Hk & Hg & ->).
  now apply numeral_validated.
Qed.

(** An instance: the numeral of 12.25. *)
Lemma a_romano_passes_valida_romano_witness :
  NumRom._valida_romano caseless_upper
    (lit "XII" ++ [middot; middot; middot]) = Ok tt.
Proof.
  apply (a_romano_passes_valida_romano caseless_upper (PFloat 12.25)).
  vm_compute. reflexivity.
Defined.

(** X5. [a_decimal] on what [a_romano] returns, for every input of
    [a_romano]: with [k] the integer part of the input, "Nihil" and
    the numerals that end in two dots or more are rejected as invalid,
    a numeral that ends in S is read as [k + 6/12], one that ends in
    one dot as [k + 1/12], and a whole numeral as [k]. *)
Theorem a_decimal_of_a_romano
    (unicode_upper : codepoint -> list codepoint) (decimal : PyNum) (s : str) :
  NumRom.a_romano decimal = Ok s ->
  exists k, int decimal = Ok k
    /\ NumRom.a_decimal unicode_upper s = read_back unicode_upper k s.
Proof.
  intros H. apply a_romano_returned in H as (k & glyph & Hi & Hk & Hg & ->).
  exists k. split; [exact Hi|]. now apply numeral_read.
Qed.

(** An instance: 0.7, written as "S". *)
Lemma a_decimal_of_a_romano_witness :
  exists k, int (PFloat 0.7) = Ok k
    /\ NumRom.a_decimal caseless_upper (lit "S")
       = read_back caseless_upper k (lit "S").
Proof.
  apply (a_decimal_of_a_romano caseless_upper (PFloat 0.7)).
  vm_compute. reflexivity.
Defined.

(** ** NumRom: the round trip with S and with one dot *)

Lemma fraction_check_all unicode_upper glyph fraction n :
  In (glyph, fraction) (firstn 2 NumRom._valores_fracciones) ->
  (0 <= n <= 3999)%Z ->
  fraction_check unicode_upper fraction n = true.
Proof.
  intros Hin Hn.
  destruct Hin as [E|[E|[]]]; injection E as _ <-;
    match goal with
    | |- fraction_check ?u ?f n = true =>
        apply (forallb_range (fraction_check u f) 0 4000)
    end; try lia; vm_compute; reflexivity.
Qed.

(** X6. The round trip with a fraction.  For every integer n from 0 to
    3999, the floats [n + 6/12] and [n + 1/12] are written by
    [a_romano] and read back by [a_decimal] as the same float; nothing
    raises on the way. *)
Theorem a_decimal_a_romano_fraction
    (unicode_upper : codepoint -> list codepoint)
    (glyph : str) (fraction : float) (n : Z) :
  In (glyph, fraction) (firstn 2 NumRom._valores_fracciones) ->
  (0 <= n <= 3999)%Z ->
  exists x s,
    add (PInt n) (PFloat fraction) = Ok (PFloat x)
    /\ NumRom.a_romano (PFloat x) = Ok s
    /\ NumRom.a_decimal unicode_upper s = Ok (PFloat x).
Proof.
  intros Hin Hn.
  pose proof (fraction_check_all unicode_upper glyph fraction n Hin Hn) as H.
  unfold fraction_check in H. cbv zeta in H.
  exists (float_of_Z n + fraction)%float.
  destruct (NumRom.a_romano (PFloat (float_of_Z n + fraction))) as [s|] eqn:Er;
    [|discriminate H].
  exists s. apply result_eqb_eq in H.
  split; [|split; [reflexivity|exact H]].
  cbn [add as_float bind]. now rewrite (float_of_int_small n Hn).
Qed.

(** An instance: 1994 and a half. *)
Lemma a_decimal_a_romano_fraction_witness :
  exists x s,
    add (PInt 1994) (PFloat (6 / 12)) = Ok (PFloat x)
    /\ NumRom.a_romano (PFloat x) = Ok s
    /\ NumRom.a_decimal caseless_upper s = Ok (PFloat x).
Proof.
  apply (a_decimal_a_romano_fraction caseless_upper (lit "S")).
  - now left.
  - lia.
Defined.

(** ** NumRom.a_romano on integers: distinct numerals *)

Lemma a_romano_int n :
  (0 <= n <= 3999)%Z -> NumRom.a_romano (PInt n) = Ok (numeral_of n []).
Proof.
  intros Hn.
  assert (H0 : lt (PInt n) (PInt 0) = false)
    by (rewrite lt_zero_int; apply Z.ltb_ge; lia).
  assert (H1 : gt (PInt n) (PFloat 3999.5) = false).
  { unfold gt, lt, Z_compare_float.
    change (Prim2SF 3999.5) with (S754_finite false 8794993510580224 (-41)).
    cbv beta iota zeta. change (0 <=? -41)%Z with false. cbv iota.
    change (- -41)%Z with 41%Z. change (2 ^ 41)%Z with 2199023255552%Z.
    destruct (Z.compare_spec (n * 2199023255552) 8794993510580224) as [E|E|E];
      try reflexivity; lia. }
  unfold NumRom.a_romano. rewrite H0, H1. cbn [orb int bind sub].
  rewrite Z.sub_diag. change (gt (PInt 0) (PInt 0)) with false.
  cbv iota. cbn [bind]. unfold numeral_of. cbv zeta.
  now rewrite app_nil_r.
Qed.

Lemma numeral_of_digits k glyph :
  (1 <= k <= 3999)%Z -> numeral_of k glyph = fst (NumRom.digits k) ++ glyph.
Proof.
  intros Hk. destruct (digits_read caseless_upper k Hk) as [Hd _].
  apply a_decimal_int in Hd as (Hne & _).
  unfold numeral_of. cbv zeta.
  replace (k >? 0)%Z with true by (symmetry; apply Z.gtb_lt; lia).
  cbn [app]. destruct (fst (NumRom.digits k)); [discriminate Hne | reflexivity].
Qed.

(** X7. Two different integers from 0 to 3999 never get the same
    numeral. *)
Theorem a_romano_injective (n m : Z) :
  (0 <= n <= 3999)%Z -> (0 <= m <= 3999)%Z -> n <> m ->
  NumRom.a_romano (PInt n) <> NumRom.a_romano (PInt m).
Proof.
  intros Hn Hm Hne. rewrite (a_romano_int n Hn), (a_romano_int m Hm).
  intros E. injection E as E. apply Hne.
  assert (Hread : forall k, (1 <= k <= 3999)%Z ->
            NumRom.a_decimal caseless_upper (numeral_of k []) = Ok (PInt k)).
  { intros k Hk. rewrite (numeral_of_digits k [] Hk), app_nil_r.
    now apply digits_read. }
  assert (Hzero : NumRom.a_decimal caseless_upper (numeral_of 0 [])
                  = Raise (RomanError (RomanoInvalido (lit "NIHIL"))))
    by (vm_compute; reflexivity).
  destruct (Z.eq_dec n 0) as [->|Hn0], (Z.eq_dec m 0) as [->|Hm0];
    [reflexivity | | |].
  - rewrite E, Hread in Hzero by lia. discriminate Hzero.
  - rewrite <- E, Hread in Hzero by lia. discriminate Hzero.
  - pose proof (Hread n ltac:(lia)) as Rn. rewrite E, Hread in Rn by lia.
    congruence.
Qed.

(** An instance: 4 and 6. *)
Lemma a_romano_injective_witness :
  NumRom.a_romano (PInt 4) <> NumRom.a_romano (PInt 6).
Proof. apply (a_romano_injective 4 6); lia. Defined.

(** ** Upper and lower case of ASCII strings *)

Section AsciiCase.
Variable unicode_upper : codepoint -> list codepoint.
Variable unicode_lower : str -> str.
Local Abbreviation upper := (PyStr.upper unicode_upper).
Local Abbreviation lower := (PyStr.lower unicode_lower).

(** [str.upper] on an ASCII character: one character, ASCII, on which
    the case mappings do as on the character itself. *)
Lemma upper_char_ascii c :
  (c <? 128)%N = true ->
  exists c', upper_char unicode_upper c = [c']
    /\ (c' <? 128)%N = true
    /\ upper_char unicode_upper c' = [c']
    /\ lower_ascii c' = lower_ascii c
    /\ upper_char unicode_upper (lower_ascii c) = [c']
    /\ (lower_ascii c <? 128)%N = true
    /\ lower_ascii (lower_ascii c) = lower_ascii c.
Proof.
  intros Hc. apply N.ltb_lt in Hc. unfold upper_char, lower_ascii.
  destruct (N.leb_spec 97 c), (N.leb_spec c 122), (N.leb_spec 65 c),
    (N.leb_spec c 90); cbn [andb]; try lia.
  all: eexists; split; [try reflexivity|].
  all: repeat match goal with
         | |- context [N.leb ?a ?b] => destruct (N.leb_spec a b); try lia
         | |- context [N.ltb ?a ?b] => destruct (N.ltb_spec a b); try lia
         | |- context [N.eqb ?a ?b] => destruct (N.eqb_spec a b); try lia
         end; cbn [andb].
  all: repeat split; try reflexivity; try (f_equal; lia).
Qed.

Lemma upper_cons c s : upper (c :: s) = upper_char unicode_upper c ++ upper s.
Proof. reflexivity. Qed.

Lemma ascii_case_chars s :
  is_ascii s = true ->
  upper (upper s) = upper s
  /\ upper (map lower_ascii s) = upper s
  /\ is_ascii (upper s) = true
  /\ map lower_ascii (upper s) = map lower_ascii s
  /\ is_ascii (map lower_ascii s) = true
  /\ map lower_ascii (map lower_ascii s) = map lower_ascii s
  /\ NumRom.is_empty (upper s) = NumRom.is_empty s.
Proof.
  induction s as [|c s IH]; intros Hs; [repeat split|].
  cbn [is_ascii forallb] in Hs. apply andb_true_iff in Hs as [Hc Hs].
  destruct (IH Hs) as (I1 & I2 & I3 & I4 & I5 & I6 & _).
  destruct (upper_char_ascii c Hc) as (c' & E1 & E2 & E3 & E4 & E5 & E6 & E7).
  cbn [map]. rewrite !upper_cons, E1, E5. cbn [app map].
  rewrite upper_cons, E3. cbn [app]. unfold is_ascii in *. cbn [forallb].
  rewrite I1, I2, I3, I4, I5, I6, E2, E4, E6, E7. repeat split.
Qed.

Lemma ascii_case s :
  is_ascii s = true ->
  upper (upper s) = upper s
  /\ upper (lower s) = upper s
  /\ lower (upper s) = lower s
  /\ lower (lower s) = lower s
  /\ NumRom.is_empty (upper s) = NumRom.is_empty s
  /\ NumRom.is_empty (lower s) = NumRom.is_empty s.
Proof.
  intros Hs.
  destruct (ascii_case_chars s Hs) as (H1 & H2 & H3 & H4 & H5 & H6 & H7).
  unfold PyStr.lower. rewrite H3, Hs, H5.
  repeat split; try assumption. now destruct s.
Qed.

End AsciiCase.

(** X8. [a_decimal] ignores the case of an ASCII string: its outcome,
    value or exception, is the same on the string, on its lower-cased
    form and on its upper-cased form. *)
Theorem a_decimal_ignores_case
    (unicode_upper : codepoint -> list codepoint)
    (unicode_lower : str -> str) (s : str) :
  is_ascii s = true ->
  NumRom.a_decimal unicode_upper (lower unicode_lower s)
  = NumRom.a_decimal unicode_upper s
  /\ NumRom.a_decimal unicode_upper (upper unicode_upper s)
     = NumRom.a_decimal unicode_upper s.
Proof.
  intros Hs.
  destruct (ascii_case unicode_upper unicode_lower s Hs)
    as (H1 & H2 & _ & _ & H5 & H6).
  unfold NumRom.a_decimal. now rewrite H1, H2, H5, H6.
Qed.

(** An instance: "McmXciv". *)
Lemma a_decimal_ignores_case_witness :
  NumRom.a_decimal caseless_upper (lower caseless_lower (lit "McmXciv"))
  = NumRom.a_decimal caseless_upper (lit "McmXciv")
  /\ NumRom.a_decimal caseless_upper (upper caseless_upper (lit "McmXciv"))
     = NumRom.a_decimal caseless_upper (lit "McmXciv").
Proof.
  apply (a_decimal_ignores_case caseless_upper caseless_lower (lit "McmXciv")).
  reflexivity.
Defined.

(** X9. The three measurement operations ignore the case of ASCII unit
    names: the outcome with the names upper-cased is the outcome with
    the names as they are. *)
Theorem measures_ignore_case
    (unicode_upper : codepoint -> list codepoint)
    (unicode_lower : str -> str) (value : PyNum) (unit to_unit : str) :
  is_ascii unit = true -> is_ascii to_unit = true ->
  MedRom.a_modernas unicode_lower value (upper unicode_upper unit)
  = MedRom.a_modernas unicode_lower value unit
  /\ MedRom.a_unidad_romana unicode_lower value (upper unicode_upper unit)
     = MedRom.a_unidad_romana unicode_lower value unit
  /\ MedRom.conversion_unidades unicode_lower value
       (upper unicode_upper unit) (upper unicode_upper to_unit)
     = MedRom.conversion_unidades unicode_lower value unit to_unit.
Proof.
  intros Hu Ht.
  destruct (ascii_case unicode_upper unicode_lower unit Hu)
    as (_ & _ & H3 & _).
  destruct (ascii_case unicode_upper unicode_lower to_unit Ht)
    as (_ & _ & H3' & _).
  unfold MedRom.a_modernas, MedRom.a_unidad_romana, MedRom.conversion_unidades.
  now rewrite H3, H3'.
Qed.

(** An instance: "Stadium" and "pes". *)
Lemma measures_ignore_case_witness :
  MedRom.a_modernas caseless_lower (PInt 2) (upper caseless_upper (lit "Stadium"))
  = MedRom.a_modernas caseless_lower (PInt 2) (lit "Stadium")
  /\ MedRom.a_unidad_romana caseless_lower (PInt 2)
       (upper caseless_upper (lit "Stadium"))
     = MedRom.a_unidad_romana caseless_lower (PInt 2) (lit "Stadium")
  /\ MedRom.conversion_unidades caseless_lower (PInt 2)
       (upper caseless_upper (lit "Stadium")) (upper caseless_upper (lit "pes"))
     = MedRom.conversion_unidades caseless_lower (PInt 2)
         (lit "Stadium") (lit "pes").
Proof.
  apply (measures_ignore_case caseless_upper caseless_lower (PInt 2)
           (lit "Stadium") (lit "pes")); reflexivity.
Defined.

(** ** MedRom: the units listed and the units accepted *)

Lemma mem_keys d unit :
  MedRom.mem unit d = true <-> In unit (map fst d).
Proof.
  unfold MedRom.mem. induction d as [|[k v] d IH]; cbn [MedRom.get map fst].
  - split; [discriminate | intros []].
  - destruct (str_eqb unit k) eqn:E.
    + apply str_eqb_eq in E. subst k. split; [now left | reflexivity].
    + rewrite IH. split; [now right|]. intros [Hk|H]; [|exact H].
      subst k. cbn [fst] in E.
      assert (str_eqb unit unit = true) by now apply str_eqb_eq.
      congruence.
Qed.

(** X10. [unidades_disponibles] lists every unit once, and lists the
    units that [a_modernas] and [a_unidad_romana] accept: with a name
    that, lower-cased, is in the list they return a float for every
    float that is not negative; with any other name they raise the
    unknown-unit error, which carries the lower-cased name and this
    list, whatever the value. *)
Theorem unidades_disponibles_accepted
    (unicode_lower : str -> str) (unit : str) :
  NoDup MedRom.unidades_disponibles
  /\ (In (lower unicode_lower unit) MedRom.unidades_disponibles ->
      forall v, lt (PFloat v) (PInt 0) = false ->
        (exists r, MedRom.a_modernas unicode_lower (PFloat v) unit
                   = Ok (PFloat r))
        /\ (exists r, MedRom.a_unidad_romana unicode_lower (PFloat v) unit
                      = Ok (PFloat r)))
  /\ (~ In (lower unicode_lower unit) MedRom.unidades_disponibles ->
      forall value,
        MedRom.a_modernas unicode_lower value unit
        = Raise (RomanError (UnidadDesconocida (lower unicode_lower unit)
                               MedRom.unidades_disponibles))
        /\ MedRom.a_unidad_romana unicode_lower value unit
           = Raise (RomanError (UnidadDesconocida (lower unicode_lower unit)
                                  MedRom.unidades_disponibles))).
Proof.
  split; [|split].
  - unfold MedRom.unidades_disponibles, MedRom._medidas. cbn [map fst].
    repeat constructor; cbn [In]; intros H;
      repeat (destruct H as [H|H]; [discriminate H|]); exact H.
  - intros Hin v Hv.
    assert (Hk : known unicode_lower unit = true) by now apply mem_keys.
    split; eexists;
      [now apply a_modernas_float | now apply a_unidad_romana_float].
  - intros Hin value.
    assert (Hk : known unicode_lower unit = false).
    { destruct (known unicode_lower unit) eqn:E; [|reflexivity].
      exfalso. apply Hin. now apply mem_keys. }
    split; [now apply a_modernas_unknown | now apply a_unidad_romana_unknown].
Qed.

(** An instance: "Amphora" is accepted, "modern" is not. *)
Lemma unidades_disponibles_accepted_witness :
  (exists r, MedRom.a_modernas caseless_lower (PFloat 2.5) (lit "Amphora")
             = Ok (PFloat r))
  /\ MedRom.a_modernas caseless_lower (PFloat 2.5) (lit "modern")
     = Raise (RomanError (UnidadDesconocida (lit "modern")
                            MedRom.unidades_disponibles)).
Proof.
  split.
  - apply (proj1 (proj2 (unidades_disponibles_accepted caseless_lower
                           (lit "Amphora")))); [|reflexivity].
    vm_compute. auto 10.
  - apply (proj2 (proj2 (unidades_disponibles_accepted caseless_lower
                           (lit "modern")))).
    vm_compute. intros H.
    repeat (destruct H as [H|H]; [discriminate H|]). exact H.
Defined.

(** ** MedRom.conversion_unidades as the composition *)

(** X11. With two known units [conversion_unidades] is [a_modernas]
    followed by [a_unidad_romana], errors included; and it raises its
    own invalid-units error exactly when one of the two units is
    unknown.  The unknown-unit error of the two operations it calls
    never comes out of it. *)
Theorem conversion_unidades_composes
    (unicode_lower : str -> str) (value : PyNum) (from_unit to_unit : str) :
  (known unicode_lower from_unit = true ->
   known unicode_lower to_unit = true ->
   MedRom.conversion_unidades unicode_lower value from_unit to_unit
   = (modern_value <- MedRom.a_modernas unicode_lower value from_unit ;;
      MedRom.a_unidad_romana unicode_lower modern_value to_unit))
  /\ (MedRom.conversion_unidades unicode_lower value from_unit to_unit
      = Raise (RomanError (UnidadesInvalidas MedRom.unidades_disponibles))
      <-> known unicode_lower from_unit = false
          \/ known unicode_lower to_unit = false)
  /\ (forall unit units,
        MedRom.conversion_unidades unicode_lower value from_unit to_unit
        <> Raise (RomanError (UnidadDesconocida unit units))).
Proof.
  assert (Hknown : known unicode_lower from_unit = true ->
                   known unicode_lower to_unit = true ->
                   forall msg,
                     MedRom.conversion_unidades unicode_lower value
                       from_unit to_unit = Raise (RomanError msg) ->
                     msg = ValorNoNegativo).
  { intros Hf Ht msg H. destruct (lt value (PInt 0)) eqn:Hv.
    - rewrite conversion_unidades_negative in H by assumption. congruence.
    - pose proof (conversion_unidades_outcome unicode_lower value from_unit
                    to_unit Hf Ht Hv) as Ho.
      rewrite H in Ho. destruct Ho as [Ho _]. discriminate Ho. }
  split; [apply conversion_unidades_known|]. split.
  - split; [|apply conversion_unidades_unknown].
    intros H.
    destruct (known unicode_lower from_unit) eqn:Hf; [|now left].
    destruct (known unicode_lower to_unit) eqn:Ht; [|now right].
    exfalso. specialize (Hknown eq_refl eq_refl _ H). discriminate Hknown.
  - intros unit units H.
    destruct (known unicode_lower from_unit) eqn:Hf;
      [destruct (known unicode_lower to_unit) eqn:Ht|].
    + specialize (Hknown eq_refl eq_refl _ H). discriminate Hknown.
    + rewrite conversion_unidades_unknown in H by now right. discriminate H.
    + rewrite conversion_unidades_unknown in H by now left. discriminate H.
Qed.

(** An instance: 3 "Passus" in "PES". *)
Lemma conversion_unidades_composes_witness :
  MedRom.conversion_unidades caseless_lower (PInt 3)
    (lit "Passus") (lit "PES")
  = (modern_value <- MedRom.a_modernas caseless_lower (PInt 3) (lit "Passus") ;;
     MedRom.a_unidad_romana caseless_lower modern_value (lit "PES")).
Proof.
  apply (proj1 (conversion_unidades_composes caseless_lower (PInt 3)
                  (lit "Passus") (lit "PES"))); reflexivity.
Defined.

(** ** cli *)

Section CommandLine.
Variable unicode_upper : codepoint -> list codepoint.
Variable unicode_lower : str -> str.
Local Abbreviation cli := (Cli.cli unicode_upper unicode_lower).

(** On a float the measures raise [RomanError] or return a float. *)
Lemma a_modernas_on_float value unit :
  (exists x, MedRom.a_modernas unicode_lower (PFloat value) unit
             = Ok (PFloat x))
  \/ (exists msg, MedRom.a_modernas unicode_lower (PFloat value) unit
                  = Raise (RomanError msg)).
Proof.
  destruct (known unicode_lower unit) eqn:Hk.
  - destruct (lt (PFloat value) (PInt 0)) eqn:Hv.
    + right. rewrite a_modernas_negative by assumption. eauto.
    + left. rewrite a_modernas_float by assumption. eauto.
  - right. rewrite a_modernas_unknown by assumption. eauto.
Qed.

Lemma conversion_unidades_on_float value from_unit to_unit :
  (exists x, MedRom.conversion_unidades unicode_lower (PFloat value)
               from_unit to_unit = Ok (PFloat x))
  \/ (exists msg, MedRom.conversion_unidades unicode_lower (PFloat value)
                    from_unit to_unit = Raise (RomanError msg)).
Proof.
  destruct (known unicode_lower from_unit) eqn:Hf;
    [destruct (known unicode_lower to_unit) eqn:Ht|].
  - destruct (lt (PFloat value) (PInt 0)) eqn:Hv.
    + right. rewrite conversion_unidades_negative by assumption. eauto.
    + left. rewrite conversion_unidades_float by assumption. eauto.
  - right. rewrite conversion_unidades_unknown by auto. eauto.
  - right. rewrite conversion_unidades_unknown by auto. eauto.
Qed.

End CommandLine.

(** X12. The command conversion_unidades of [cli] prints a float, or
    writes a [RomanError] to stderr and exits with status 1: no other
    exception escapes.  "modern", in any case, is not a unit of the
    table; as the target unit it selects [a_modernas], and the command
    prints [value * factor] for a known source unit and a value that
    is not negative. *)
Theorem cli_conversion_unidades
    (unicode_upper : codepoint -> list codepoint)
    (unicode_lower : str -> str)
    (value : float) (from_unit to_unit : str) :
  ((exists x,
      Cli.cli unicode_upper unicode_lower
        (Cli.Command_conversion_unidades value from_unit to_unit)
      = Cli.Stdout (Cli.Number (PFloat x)))
   \/ (exists msg,
         Cli.cli unicode_upper unicode_lower
           (Cli.Command_conversion_unidades value from_unit to_unit)
         = Cli.Stderr_exit_1 msg))
  /\ (lower unicode_lower to_unit = lit "modern" ->
      known unicode_lower to_unit = false
      /\ (known unicode_lower from_unit = true ->
          lt (PFloat value) (PInt 0) = false ->
          Cli.cli unicode_upper unicode_lower
            (Cli.Command_conversion_unidades value from_unit to_unit)
          = Cli.Stdout
              (Cli.Number
                 (PFloat (value * factor_of (lower unicode_lower from_unit)))))).
Proof.
  split.
  - unfold Cli.cli. destruct (str_eqb _ (lit "modern")).
    + destruct (a_modernas_on_float unicode_lower value from_unit)
        as [[x ->]|[msg ->]]; cbn [bind]; eauto.
    + destruct (conversion_unidades_on_float unicode_lower value from_unit
                  to_unit) as [[x ->]|[msg ->]]; cbn [bind]; eauto.
  - intros Hm. split; [unfold known; now rewrite Hm|].
    intros Hk Hv. unfold Cli.cli. rewrite Hm.
    replace (str_eqb (lit "modern") (lit "modern")) with true
      by (symmetry; now apply str_eqb_eq).
    now rewrite a_modernas_float by assumption.
Qed.

(** An instance: 2.5 pes modern. *)
Lemma cli_conversion_unidades_witness :
  Cli.cli caseless_upper caseless_lower
    (Cli.Command_conversion_unidades 2.5 (lit "pes") (lit "Modern"))
  = Cli.Stdout
      (Cli.Number (PFloat (2.5 * factor_of (lower caseless_lower (lit "pes"))))).
Proof.
  apply (proj2 (cli_conversion_unidades caseless_upper caseless_lower
                  2.5%float (lit "pes") (lit "Modern"))); reflexivity.
Defined.

(** X13. The command a_romano of [cli].  The argument is parsed by
    [float], which accepts "nan": on a NaN the [ValueError] of [int]
    is not a [RomanError] and escapes the [try].  On every other float
    the command prints a numeral that is not empty, or writes the
    out-of-range error to stderr and exits with status 1. *)
Theorem cli_a_romano
    (unicode_upper : codepoint -> list codepoint)
    (unicode_lower : str -> str) (decimal : float) :
  (is_nan decimal = true ->
   Cli.cli unicode_upper unicode_lower (Cli.Command_a_romano decimal)
   = Cli.Traceback ValueError)
  /\ (is_nan decimal = false ->
      (exists s,
         Cli.cli unicode_upper unicode_lower (Cli.Command_a_romano decimal)
         = Cli.Stdout (Cli.Text s) /\ s <> [])
      \/ Cli.cli unicode_upper unicode_lower (Cli.Command_a_romano decimal)
         = Cli.Stderr_exit_1 FueraDeRango).
Proof.
  split.
  - intros Hd. apply is_nan_spec in Hd. unfold Cli.cli, NumRom.a_romano.
    rewrite lt_zero_float. unfold gt, lt. rewrite ltb_spec, Hd.
    cbn [SF_negative SFltb SFcompare orb]. unfold int. now rewrite Hd.
  - intros Hd. unfold Cli.cli.
    destruct (lt (PFloat decimal) (PInt 0)) eqn:H0.
    { right. unfold NumRom.a_romano. now rewrite H0. }
    destruct (gt (PFloat decimal) (PFloat 3999.5)) eqn:H1.
    { right. unfold NumRom.a_romano. now rewrite H0, H1. }
    left.
    destruct (int_defined (PFloat decimal) H0 H1) as [k Hk].
    { intros d E. injection E as <-. exact Hd. }
    destruct (a_romano_numeral (PFloat decimal) k H0 H1 Hk) as (glyph & _ & ->).
    cbn [bind]. eexists. split; [reflexivity | apply numeral_of_not_empty].
Qed.

(** An instance: nan, and 12.25. *)
Lemma cli_a_romano_witness :
  Cli.cli caseless_upper caseless_lower (Cli.Command_a_romano nan)
  = Cli.Traceback ValueError
  /\ ((exists s,
         Cli.cli caseless_upper caseless_lower (Cli.Command_a_romano 12.25)
         = Cli.Stdout (Cli.Text s) /\ s <> [])
      \/ Cli.cli caseless_upper caseless_lower (Cli.Command_a_romano 12.25)
         = Cli.Stderr_exit_1 FueraDeRango).
Proof.
  split.
  - apply (proj1 (cli_a_romano caseless_upper caseless_lower nan)).
    reflexivity.
  - apply (proj2 (cli_a_romano caseless_upper caseless_lower 12.25%float)).
    reflexivity.
Defined.

(** ** Binary64: a difference that is not zero is not rounded to zero *)

Section Difference.
Local Open Scope Z_scope.

Lemma shl_align_spec mx ex ez :
  ez <= ex ->
  Zpos (fst (shl_align mx ex ez)) = Zpos mx * 2 ^ (ex - ez)
  /\ snd (shl_align mx ex ez) = ez.
Proof.
  intros H. unfold shl_align.
  destruct (ez - ex) as [|d|d] eqn:E; try lia; cbn [fst snd].
  - replace (ex - ez) with 0 by lia. split; lia.
  - split; [|reflexivity].
    change (Pos.iter xO mx d) with (shift_pos d mx).
    rewrite shift_pos_correct. replace (ex - ez) with (Zpos d) by lia.
    change (Z.pow_pos 2 d) with (2 ^ Zpos d). ring.
Qed.

Lemma shl_align_exponent mx ex ez :
  emin <= ex -> emin <= ez -> emin <= snd (shl_align mx ex ez).
Proof.
  intros H1 H2. unfold shl_align. destruct (ez - ex); cbn [snd]; assumption.
Qed.

(** A shift to the working precision keeps a positive mantissa
    positive. *)
Lemma shr_fexp_positive m e :
  0 < m -> emin <= e ->
  located m (2 ^ (snd (shr_fexp prec emax m e loc_Exact) - e))
    (fst (shr_fexp prec emax m e loc_Exact))
  /\ 0 < shr_m (fst (shr_fexp prec emax m e loc_Exact))
  /\ emin <= snd (shr_fexp prec emax m e loc_Exact).
Proof.
  intros Hm He. unfold shr_fexp.
  pose proof (located_exact m ltac:(lia)) as Hloc.
  pose proof (Zdigits2_bounds m Hm) as Hb.
  set (d := Zdigits2 m) in *.
  destruct (Z_le_gt_dec (fexp prec emax (d + e) - e) 0) as [Hn|Hn].
  - assert (E : shr (shr_record_of_loc m loc_Exact) e
                  (fexp prec emax (d + e) - e)
                = (shr_record_of_loc m loc_Exact, e)).
    { unfold shr. destruct (fexp prec emax (d + e) - e); try reflexivity. lia. }
    rewrite E. cbn [fst snd]. rewrite Z.sub_diag.
    change (2 ^ 0) with 1. split; [exact Hloc|]. split; [|exact He].
    cbn [shr_record_of_loc shr_m]. exact Hm.
  - assert (Hf : fexp prec emax (d + e) = d + e - prec).
    { unfold fexp in *. lia. }
    rewrite Hf in *.
    set (n := d + e - prec - e) in *.
    assert (Hn' : n = d - 53) by (subst n; float_lia).
    destruct (shr_located m 1 _ e n ltac:(lia) Hloc) as [Hloc1 He1].
    rewrite He1. replace (e + n - e) with n by lia.
    rewrite Z.mul_1_l in Hloc1. split; [exact Hloc1|]. split; [|lia].
    destruct Hloc1 as [_ _ Hm1 _]. rewrite Hm1.
    assert (Hp : 0 < 2 ^ n) by (apply Z.pow_pos_nonneg; lia).
    assert (E1 : 2 ^ (d - 1) = 2 ^ n * 2 ^ 52).
    { rewrite <- Z.pow_add_r by lia. f_equal. lia. }
    assert (2 ^ 52 <= m / 2 ^ n); [|lia].
    apply Z.div_le_lower_bound; lia.
Qed.

(** Rounding an integer multiple of [2 ^ e], [e] not below [emin]:
    never zero. *)
Lemma binary_round_aux_not_zero sx m e :
  0 < m -> emin <= e ->
  binary_round_aux prec emax sx m e loc_Exact = S754_infinity sx
  \/ exists m' e', binary_round_aux prec emax sx m e loc_Exact
                   = S754_finite sx m' e'.
Proof.
  intros Hm He. unfold binary_round_aux.
  destruct (shr_fexp_positive m e Hm He) as (Hloc & Hpos & He').
  destruct (shr_fexp prec emax m e loc_Exact) as [mrs' e'].
  cbn [fst snd] in *.
  pose proof (round_nearest_even_located _ _ _ Hloc) as [_ Hr].
  cbv zeta in Hr.
  set (m1 := round_nearest_even (shr_m mrs') (loc_of_shr_record mrs')) in *.
  destruct (shr_fexp_positive m1 e' ltac:(lia) He') as (_ & Hpos2 & _).
  destruct (shr_fexp prec emax m1 e' loc_Exact) as [mrs'' e''].
  cbn [fst snd] in *.
  destruct (shr_m mrs'') as [|p|p]; try lia.
  destruct (e'' <=? emax - prec); [right; eauto | now left].
Qed.

Lemma binary_normalize_positive m e :
  0 < m -> emin <= e ->
  binary_normalize prec emax m e false = S754_infinity false
  \/ exists m' e', binary_normalize prec emax m e false
                   = S754_finite false m' e'.
Proof.
  intros Hm He. destruct m as [|p|p]; try lia.
  cbn [binary_normalize]. unfold binary_round.
  pose proof (shl_align_exponent p e
                (fexp prec emax (Zpos (digits2_pos p) + e)) He) as Hz.
  destruct (shl_align p e _) as [mz ez]. cbn [snd] in Hz.
  apply binary_round_aux_not_zero; [lia|]. apply Hz.
  unfold fexp. lia.
Qed.

(** [x - y] on positive finite values: a zero when they are equal,
    positive when [x] is the larger. *)
Lemma SFsub_sign mx ex my ey :
  emin <= ex -> emin <= ey ->
  Zpos my * 2 ^ (ey - Z.min ex ey) <= Zpos mx * 2 ^ (ex - Z.min ex ey) ->
  let r := SF64sub (S754_finite false mx ex) (S754_finite false my ey) in
  if Zpos my * 2 ^ (ey - Z.min ex ey) =? Zpos mx * 2 ^ (ex - Z.min ex ey)
  then r = S754_zero false
  else r = S754_infinity false \/ exists m e, r = S754_finite false m e.
Proof.
  intros Hex Hey Hle. cbv zeta. unfold SF64sub, SFsub. cbn [cond_Zopp].
  destruct (shl_align_spec mx ex (Z.min ex ey) ltac:(lia)) as [-> _].
  destruct (shl_align_spec my ey (Z.min ex ey) ltac:(lia)) as [-> _].
  set (X := Zpos mx * 2 ^ (ex - Z.min ex ey)) in *.
  set (Y := Zpos my * 2 ^ (ey - Z.min ex ey)) in *.
  destruct (Z.eqb_spec Y X) as [E|E].
  - rewrite E, Z.sub_diag. reflexivity.
  - apply binary_normalize_positive; lia.
Qed.

End Difference.

(** ** NumRom.a_romano: the fraction glyph *)

(** [decimal > 0] on a float. *)
Lemma gt_zero_float f :
  gt (PFloat f) (PInt 0)
  = match Prim2SF f with
    | S754_infinity false | S754_finite false _ _ => true
    | _ => false
    end.
Proof.
  unfold gt, lt, Z_compare_float.
  destruct (Prim2SF f) as [[]|[]| |[] m e]; try reflexivity;
    cbv beta iota zeta; rewrite ?Z.mul_0_l;
    destruct (0 <=? e)%Z eqn:E; try reflexivity;
    apply Z.leb_le in E;
    assert (0 < 2 ^ e)%Z by (apply Z.pow_pos_nonneg; lia).
  - replace (0 ?= Z.neg m * 2 ^ e)%Z with Gt; [reflexivity|].
    symmetry. apply Z.compare_gt_iff. nia.
  - replace (0 ?= Z.pos m * 2 ^ e)%Z with Lt; [reflexivity|].
    symmetry. apply Z.compare_lt_iff. nia.
Qed.


Lemma float_of_Z_exact k :
  (1 <= k <= 3999)%Z ->
  exists m e,
    Prim2SF (float_of_Z k) = S754_finite false m e
    /\ (emin <= e <= 0)%Z /\ Zpos m = (k * 2 ^ (- e))%Z.
Proof.
  intros Hk.
  assert (H : exact_float k = true).
  { apply (forallb_range exact_float 1 3999); [vm_compute; reflexivity | lia]. }
  unfold exact_float in H.
  destruct (Prim2SF (float_of_Z k)) as [| | |[] m e]; try discriminate H.
  apply andb_true_iff in H as [H H3]. apply andb_true_iff in H as [H1 H2].
  exists m, e. split; [reflexivity|]. lia.
Qed.

(** A float that passes the range check is a zero, or finite and
    positive with a negative exponent. *)
Lemma float_in_range d k :
  lt (PFloat d) (PInt 0) = false -> gt (PFloat d) (PFloat 3999.5) = false ->
  int (PFloat d) = Ok k ->
  (exists s, Prim2SF d = S754_zero s /\ k = 0%Z)
  \/ (exists m e, Prim2SF d = S754_finite false m e
        /\ (emin <= e < 0)%Z /\ k = (Zpos m / 2 ^ (- e))%Z).
Proof.
  rewrite lt_zero_float. unfold gt, lt. rewrite ltb_spec.
  change (Prim2SF 3999.5) with (S754_finite false 8794993510580224 (-41)).
  pose proof (Prim2SF_valid d) as Hv. unfold int.
  destruct (Prim2SF d) as [s|s| |s m e].
  - intros _ _ H. injection H as <-. left. eauto.
  - intros _ _ H. discriminate H.
  - intros _ _ H. discriminate H.
  - destruct s; [intros H; discriminate H|]. intros _ H1 H.
    apply valid_mantissa_bound in Hv as [_ He].
    assert (Hneg : (e < 0)%Z).
    { unfold SFltb, SFcompare in H1.
      destruct (Z.compare_spec (-41) e) as [E|E|E]; try discriminate H1; lia. }
    replace (0 <=? e)%Z with false in H by (symmetry; apply Z.leb_gt; lia).
    injection H as <-. right. exists m, e. repeat split; lia.
Qed.

(** The fractional part is positive exactly when the float is not its
    integer part. *)
Lemma fractional_part_positive d k :
  lt (PFloat d) (PInt 0) = false -> gt (PFloat d) (PFloat 3999.5) = false ->
  int (PFloat d) = Ok k ->
  gt (PFloat (d - float_of_Z k)) (PInt 0) = negb (eq (PFloat d) (PInt k)).
Proof.
  intros H0 H1 Hk. pose proof (int_in_range _ _ H0 H1 Hk) as Hr.
  rewrite gt_zero_float, sub_spec. unfold eq, Z_compare_float.
  destruct (float_in_range d k H0 H1 Hk)
    as [(s & -> & ->) | (m & e & -> & He & Ek)].
  - change (Prim2SF (float_of_Z 0)) with (S754_zero false).
    destruct s; reflexivity.
  - replace (0 <=? e)%Z with false by (symmetry; apply Z.leb_gt; lia).
    assert (Hp : (0 < 2 ^ (- e))%Z) by (apply Z.pow_pos_nonneg; lia).
    pose proof (Z.div_mod (Zpos m) (2 ^ (- e)) ltac:(lia)) as Hdiv.
    pose proof (Z.mod_pos_bound (Zpos m) (2 ^ (- e)) Hp) as Hmod.
    rewrite <- Ek in Hdiv.
    destruct (Z.eq_dec k 0) as [->|Hk0].
    + change (Prim2SF (float_of_Z 0)) with (S754_zero false).
      cbn [SF64sub SFsub]. rewrite Z.mul_0_l.
      replace (0 ?= Zpos m)%Z with Lt; reflexivity.
    + destruct (float_of_Z_exact k ltac:(lia)) as (mk & ek & -> & Hek & Emk).
      pose proof (SFsub_sign m e mk ek ltac:(lia) ltac:(lia)) as Hs.
      set (ez := Z.min e ek) in *.
      assert (Ea : (2 ^ (- e) * 2 ^ (e - ez) = 2 ^ (- ez))%Z).
      { rewrite <- Z.pow_add_r by lia. f_equal. lia. }
      assert (Eb : (2 ^ (- ek) * 2 ^ (ek - ez) = 2 ^ (- ez))%Z).
      { rewrite <- Z.pow_add_r by lia. f_equal. lia. }
      assert (Hq : (0 < 2 ^ (e - ez))%Z) by (apply Z.pow_pos_nonneg; lia).
      set (P := (2 ^ (- e))%Z) in *. set (A := (2 ^ (e - ez))%Z) in *.
      set (rho := (Zpos m mod P)%Z) in *.
      assert (EY : (Zpos mk * 2 ^ (ek - ez) = k * P * A)%Z).
      { rewrite Emk, <- Z.mul_assoc, Eb, <- Ea. ring. }
      assert (EX : (Zpos m * A = k * P * A + rho * A)%Z).
      { rewrite Hdiv. ring. }
      rewrite EY in Hs. fold A in Hs. rewrite EX in Hs.
      specialize (Hs ltac:(nia)). cbv zeta in Hs.
      destruct (Z.eq_dec rho 0) as [E0|E0].
      * rewrite E0, Z.mul_0_l, Z.add_0_r, Z.eqb_refl in Hs. rewrite Hs.
        replace (k * P ?= Zpos m)%Z with Eq; [reflexivity|].
        symmetry. apply Z.compare_eq_iff. lia.
      * replace (k * P * A =? k * P * A + rho * A)%Z with false in Hs
          by (symmetry; apply Z.eqb_neq; nia).
        replace (k * P ?= Zpos m)%Z with Lt
          by (symmetry; apply Z.compare_lt_iff; lia).
        destruct Hs as [-> | (m' & e' & ->)]; reflexivity.
Qed.

(** Every glyph of the table is worth more than 0.01: the closest one
    is always appended. *)
Lemma glyph_appended :
  forallb (fun f : str * float => gt (PFloat (snd f)) (PFloat 0.01))
    NumRom._valores_fracciones = true.
Proof. vm_compute. reflexivity. Qed.

Lemma a_romano_float d k :
  lt (PFloat d) (PInt 0) = false -> gt (PFloat d) (PFloat 3999.5) = false ->
  int (PFloat d) = Ok k ->
  if eq (PFloat d) (PInt k)
  then NumRom.a_romano (PFloat d) = Ok (numeral_of k [])
  else exists glyph v,
         In (glyph, v) NumRom._valores_fracciones
         /\ NumRom.a_romano (PFloat d) = Ok (numeral_of k glyph).
Proof.
  intros H0 H1 Hk. pose proof (int_in_range _ _ H0 H1 Hk) as Hr.
  pose proof (fractional_part_positive d k H0 H1 Hk) as Hf.
  unfold NumRom.a_romano. rewrite H0, H1, Hk. cbn [orb bind].
  cbn [sub as_float bind]. rewrite (float_of_int_small k Hr). cbn [bind].
  rewrite Hf. destruct (eq (PFloat d) (PInt k)); cbn [negb].
  - cbn [bind]. unfold numeral_of. cbv zeta. now rewrite app_nil_r.
  - match goal with
    | |- context [NumRom.py_min ?key ?l] =>
        destruct (py_min_returns key l) as ([glyph v] & -> & Hin)
    end.
    + discriminate.
    + intros x _. cbn [sub as_float bind]. eauto.
    + cbn [bind fst snd]. exists glyph, v. split; [exact Hin|].
      pose proof glyph_appended as Hg. rewrite forallb_forall in Hg.
      specialize (Hg _ Hin). cbn [snd] in Hg. now rewrite Hg.
Qed.

Lemma numeral_of_glyph k glyph v :
  In (glyph, v) NumRom._valores_fracciones ->
  numeral_of k glyph
  = (if (k >? 0)%Z then fst (NumRom.digits k) else []) ++ glyph.
Proof.
  intros Hin. unfold numeral_of. cbv zeta. cbn [app].
  assert (Hg : glyph <> []).
  { intros ->.
    repeat (destruct Hin as [Hin|Hin]; [discriminate Hin|]). destruct Hin. }
  destruct (_ ++ glyph) as [|c r] eqn:E; [|reflexivity].
  apply app_eq_nil in E as [_ E]. congruence.
Qed.

Lemma glyph_not_nihil glyph v body :
  In (glyph, v) NumRom._valores_fracciones -> body ++ glyph <> lit "Nihil".
Proof.
  intros Hin E.
  assert (Hl : last (body ++ glyph) 0%N = last glyph 0%N).
  { apply last_app_r. intros ->.
    repeat (destruct Hin as [Hin|Hin]; [discriminate Hin|]). destruct Hin. }
  rewrite E in Hl.
  repeat (destruct Hin as [Hin|Hin]; [injection Hin as <- _; discriminate Hl|]).
  destruct Hin.
Qed.

(** The digits of an integer of the range: letters, one at least. *)
Lemma digits_letters k :
  (1 <= k <= 3999)%Z ->
  exists c p, fst (NumRom.digits k) = c :: p /\ numeral_letter c = true.
Proof.
  intros Hk. destruct (digits_read caseless_upper k Hk) as [Hd Hu].
  apply a_decimal_int in Hd as (Hne & Hl & _). rewrite Hu in Hl.
  destruct (fst (NumRom.digits k)) as [|c p]; [discriminate Hne|].
  exists c, p. split; [reflexivity|].
  cbn [forallb] in Hl. now apply andb_true_iff in Hl as [Hl _].
Qed.

Lemma numeral_of_nihil k :
  (0 <= k <= 3999)%Z -> numeral_of k [] = lit "Nihil" -> k = 0%Z.
Proof.
  intros Hk E. destruct (Z.eq_dec k 0) as [|Hk0]; [assumption|exfalso].
  rewrite (numeral_of_digits k []), app_nil_r in E by lia.
  destruct (digits_letters k ltac:(lia)) as (c & p & Ep & Hc).
  rewrite Ep in E. injection E as -> _. discriminate Hc.
Qed.

(** X14. [a_romano] returns "Nihil" exactly on the numbers equal to
    zero: [0], [0.0] and [-0.0]. *)
Theorem a_romano_nihil (decimal : PyNum) :
  NumRom.a_romano decimal = Ok (lit "Nihil")
  <-> eq decimal (PInt 0) = true.
Proof.
  split.
  - intros H.
    assert (H0 : lt decimal (PInt 0) = false
                 /\ gt decimal (PFloat 3999.5) = false).
    { unfold NumRom.a_romano in H.
      destruct (lt decimal (PInt 0)); [discriminate H|].
      destruct (gt decimal (PFloat 3999.5)); [discriminate H|]. now split. }
    destruct H0 as [H0 H1].
    destruct decimal as [n|d].
    + pose proof (int_in_range_int n H0 H1) as Hn.
      rewrite (a_romano_int n Hn) in H. injection H as H.
      apply numeral_of_nihil in H; [|exact Hn]. subst n. reflexivity.
    + assert (Hk : exists k, int (PFloat d) = Ok k).
      { unfold NumRom.a_romano in H. rewrite H0, H1 in H. cbn [orb] in H.
        destruct (int (PFloat d)) as [k|]; [eauto | discriminate H]. }
      destruct Hk as [k Hk].
      pose proof (int_in_range _ _ H0 H1 Hk) as Hr.
      pose proof (a_romano_float d k H0 H1 Hk) as Hf.
      destruct (eq (PFloat d) (PInt k)) eqn:E.
      * rewrite Hf in H. injection H as H.
        apply numeral_of_nihil in H; [|exact Hr]. now subst k.
      * exfalso. destruct Hf as (glyph & v & Hin & Hf).
        rewrite Hf, (numeral_of_glyph k glyph v Hin) in H. injection H as H.
        revert H. now apply (glyph_not_nihil glyph v).
  - destruct decimal as [n|d]; intros H.
    + cbn [eq] in H. apply Z.eqb_eq in H. subst n. reflexivity.
    + assert (Hz : exists s, Prim2SF d = S754_zero s).
      { unfold eq, Z_compare_float in H.
        destruct (Prim2SF d) as [s|s| |s m e].
        - eauto.
        - destruct s; discriminate H.
        - discriminate H.
        - exfalso. destruct (0 <=? e)%Z eqn:Ee.
          + apply Z.leb_le in Ee.
            assert (Hp : (0 < 2 ^ e)%Z) by (apply Z.pow_pos_nonneg; lia).
            destruct (Z.compare_spec 0
                        ((if s then Z.neg m else Z.pos m) * 2 ^ e))
              as [E|E|E]; try discriminate H.
            destruct s; nia.
          + rewrite Z.mul_0_l in H. destruct s; discriminate H. }
      destruct Hz as [s Hz].
      assert (H0 : lt (PFloat d) (PInt 0) = false)
        by (rewrite lt_zero_float, Hz; reflexivity).
      assert (H1 : gt (PFloat d) (PFloat 3999.5) = false).
      { unfold gt, lt. rewrite ltb_spec, Hz. reflexivity. }
      assert (Hk : int (PFloat d) = Ok 0%Z) by (unfold int; now rewrite Hz).
      pose proof (a_romano_float d 0 H0 H1 Hk) as Hf. rewrite H in Hf.
      exact Hf.
Qed.

(** An instance: -0.0. *)
Lemma a_romano_nihil_witness :
  NumRom.a_romano (PFloat neg_zero) = Ok (lit "Nihil").
Proof. apply (proj2 (a_romano_nihil (PFloat neg_zero))). reflexivity. Defined.

(** X15. For a float in range with integer part [k]: when the float
    equals [k], [a_romano] returns what it returns on the [int] [k];
    when it does not, the numeral is the digits of [k] followed by a
    glyph of the fraction table, however small the fractional part is
    (the test [closest_fraction[1] > 0.01] never fails). *)
Theorem a_romano_fraction_glyph (d : float) (k : Z) :
  lt (PFloat d) (PInt 0) = false -> gt (PFloat d) (PFloat 3999.5) = false ->
  int (PFloat d) = Ok k ->
  (eq (PFloat d) (PInt k) = true ->
   NumRom.a_romano (PFloat d) = NumRom.a_romano (PInt k))
  /\ (eq (PFloat d) (PInt k) = false ->
      exists glyph v,
        In (glyph, v) NumRom._valores_fracciones
        /\ NumRom.a_romano (PFloat d)
           = Ok ((if (k >? 0)%Z then fst (NumRom.digits k) else []) ++ glyph)).
Proof.
  intros H0 H1 Hk. pose proof (int_in_range _ _ H0 H1 Hk) as Hr.
  pose proof (a_romano_float d k H0 H1 Hk) as Hf.
  split; intros E; rewrite E in Hf.
  - now rewrite (a_romano_int k Hr).
  - destruct Hf as (glyph & v & Hin & Hf). exists glyph, v.
    split; [exact Hin|]. now rewrite Hf, (numeral_of_glyph k glyph v Hin).
Qed.

(** An instance: 1e-320, a subnormal float. *)
Lemma a_romano_fraction_glyph_witness :
  exists glyph v,
    In (glyph, v) NumRom._valores_fracciones
    /\ NumRom.a_romano (PFloat 1e-320) = Ok ([] ++ glyph).
Proof.
  apply (proj2 (a_romano_fraction_glyph 1e-320%float 0 eq_refl eq_refl eq_refl)).
  reflexivity.
Defined.

(** ** NumRom.a_decimal: a subtractive pair, repeated *)

Lemma times_S w k : times w (S k) = w ++ times w k.
Proof. reflexivity. Qed.

Lemma length_times_CM k : length (times (lit "CM") k) = 2 * k.
Proof.
  induction k as [|k IH]; [reflexivity|].
  rewrite times_S, length_app, IH. cbn [length lit]. lia.
Qed.

Lemma letters_times_CM k : forallb numeral_letter (times (lit "CM") k) = true.
Proof.
  induction k as [|k IH]; [reflexivity|].
  rewrite times_S, forallb_app, IH. reflexivity.
Qed.

Lemma alternating_times_CM k :
  alternating (times (lit "CM") k) = true
  /\ alternating (77%N :: times (lit "CM") k) = true.
Proof.
  induction k as [|k [IH1 IH2]]; [split; reflexivity|].
  rewrite times_S. change (lit "CM" ++ times (lit "CM") k)
    with (67%N :: 77%N :: times (lit "CM") k).
  cbn [alternating] in *. split.
  - change (N.eqb 67 77) with false. cbn [negb andb]. exact IH2.
  - change (N.eqb 77 67) with false. change (N.eqb 67 77) with false.
    cbn [negb andb]. exact IH2.
Qed.

(** A sequence that starts with a doubled character is not in an
    alternating string. *)
Lemma contains_doubled a seq r :
  alternating r = true -> contains (a :: a :: seq) r = false.
Proof.
  induction r as [|x r IH]; intros Hr; [reflexivity|].
  cbn [contains]. rewrite IH.
  - rewrite orb_false_r. cbn [prefixb].
    destruct r as [|y r]; [now rewrite andb_false_r|].
    cbn [alternating] in Hr. apply andb_true_iff in Hr as [Hxy _].
    apply negb_true_iff in Hxy. cbn [prefixb].
    destruct (N.eqb_spec a x) as [->|]; [|reflexivity].
    now rewrite Hxy.
  - destruct r as [|y r]; [reflexivity|].
    cbn [alternating] in Hr. now apply andb_true_iff in Hr as [_ Hr].
Qed.

Lemma skipn_times_CM j k :
  j <= k -> skipn (2 * j) (times (lit "CM") k) = times (lit "CM") (k - j).
Proof.
  revert k. induction j as [|j IH]; intros k Hj.
  - now rewrite Nat.sub_0_r.
  - destruct k as [|k]; [lia|].
    replace (2 * S j) with (S (S (2 * j))) by lia.
    rewrite times_S. cbn [lit app skipn]. rewrite IH by lia.
    reflexivity.
Qed.

(** The pass for CM takes the whole string. *)
Lemma consume_CM k fuel result j :
  j <= k -> k - j <= fuel ->
  NumRom.consume fuel (times (lit "CM") k) (lit "CM") 900 (result, 2 * j)
  = ((result + 900 * Z.of_nat (k - j))%Z, 2 * k).
Proof.
  revert result j. induction fuel as [|fuel IH]; intros result j Hj Hf.
  - replace (k - j) with 0 by lia. replace j with k by lia.
    cbn [NumRom.consume]. now rewrite Z.mul_0_r, Z.add_0_r.
  - cbn [NumRom.consume]. rewrite length_times_CM.
    destruct (Nat.eq_dec j k) as [->|Hne].
    + rewrite Nat.ltb_irrefl, Nat.sub_diag. cbn [andb].
      now rewrite Z.mul_0_r, Z.add_0_r.
    + replace (Nat.ltb (2 * j) (2 * k)) with true
        by (symmetry; apply Nat.ltb_lt; lia).
      assert (Es : startswith (times (lit "CM") k) (lit "CM") (2 * j) = true).
      { unfold startswith. rewrite length_times_CM, skipn_times_CM by lia.
        replace (Nat.leb (2 * j) (2 * k)) with true
          by (symmetry; apply Nat.leb_le; lia).
        destruct (k - j) as [|n] eqn:E; [lia|].
        rewrite times_S. apply prefixb_app. }
      rewrite Es. cbn [andb length lit].
      replace (2 * j + 2) with (2 * S j) by lia.
      rewrite IH by lia. f_equal.
      replace (k - j) with (S (k - S j)) by lia. lia.
Qed.

Lemma consume_at_end fuel roman symbol value result i :
  i = length roman ->
  NumRom.consume fuel roman symbol value (result, i) = (result, i).
Proof.
  intros ->. destruct fuel; [reflexivity|]. cbn [NumRom.consume].
  now rewrite Nat.ltb_irrefl.
Qed.

Lemma scan_times_CM k :
  1 <= k ->
  NumRom.scan (times (lit "CM") k) = ((900 * Z.of_nat k)%Z, 2 * k).
Proof.
  intros Hk. unfold NumRom.scan, NumRom._valores_romanos.
  cbn [fold_left fst snd].
  assert (E1 : NumRom.consume (length (times (lit "CM") k))
                 (times (lit "CM") k) (lit "M") 1000 (0%Z, 0) = (0%Z, 0)).
  { destruct k as [|k]; [lia|]. rewrite times_S.
    destruct (length _); reflexivity. }
  rewrite E1.
  change (0%Z, 0) with (0%Z, 2 * 0).
  rewrite (consume_CM k _ 0 0) by (rewrite ?length_times_CM; lia).
  rewrite Nat.sub_0_r, Z.add_0_l.
  now rewrite !consume_at_end by (symmetry; apply length_times_CM).
Qed.

Lemma gt_3999_5 n :
  (4000 <= n)%Z -> gt (PInt n) (PFloat 3999.5) = true.
Proof.
  intros Hn. unfold gt, lt, Z_compare_float.
  change (Prim2SF 3999.5) with (S754_finite false 8794993510580224 (-41)).
  cbv beta iota zeta. change (0 <=? -41)%Z with false. cbv iota.
  change (- -41)%Z with 41%Z. change (2 ^ 41)%Z with 2199023255552%Z.
  destruct (Z.compare_spec (n * 2199023255552) 8794993510580224) as [E|E|E];
    try reflexivity; lia.
Qed.

(** X16. [a_decimal] reads "CM" repeated k times as [900 * k], for
    every k from 1 on: the values it returns have no upper bound, and
    from k = 5 on they are values that [a_romano] rejects as out of
    range. *)
Theorem a_decimal_repeated_CM
    (unicode_upper : codepoint -> list codepoint) (k : nat) :
  1 <= k ->
  NumRom.a_decimal unicode_upper (times (lit "CM") k)
  = Ok (PInt (900 * Z.of_nat k))
  /\ (5 <= k ->
      NumRom.a_romano (PInt (900 * Z.of_nat k))
      = Raise (RomanError FueraDeRango)).
Proof.
  intros Hk. split.
  - set (r := times (lit "CM") k).
    pose proof (letters_times_CM k) as Hl. fold r in Hl.
    assert (Hseq : NumRom.check_sequences NumRom.invalid_sequences r = Ok tt).
    { apply check_sequences_passes. intros seq Hin.
      destruct (alternating_times_CM k) as [Ha _]. fold r in Ha.
      repeat (destruct Hin as [<-|Hin]; [now apply contains_doubled|]).
      destruct Hin. }
    assert (Hv : NumRom._valida_romano unicode_upper r = Ok tt).
    { rewrite <- (app_nil_r r).
      apply _valida_romano_suffix; try reflexivity; try assumption.
      simpl. lia. }
    rewrite a_decimal_unfold.
    replace (NumRom.is_empty r) with false
      by (subst r; destruct k; [lia | reflexivity]).
    cbv zeta. rewrite (upper_letters unicode_upper r Hl), Hv. cbn [bind].
    assert (Hend : forall symbol,
              no_letter symbol = true -> symbol <> [] ->
              endswith r symbol = false).
    { intros symbol Hs Hne. rewrite <- (app_nil_r r).
      rewrite (endswith_suffix r [] symbol Hl Hs).
      destruct symbol; [congruence | reflexivity]. }
    rewrite fraction_cases, !Hend by (reflexivity || discriminate).
    subst r. rewrite (scan_times_CM k Hk). cbn [bind fst snd].
    now rewrite length_times_CM, Nat.eqb_refl.
  - intros H5. unfold NumRom.a_romano.
    rewrite gt_3999_5 by lia. now rewrite orb_true_r.
Qed.

(** An instance: "CMCMCMCMCM" is read as 4500. *)
Lemma a_decimal_repeated_CM_witness :
  NumRom.a_decimal caseless_upper (lit "CMCMCMCMCM") = Ok (PInt 4500)
  /\ NumRom.a_romano (PInt 4500) = Raise (RomanError FueraDeRango).
Proof.
  destruct (a_decimal_repeated_CM caseless_upper 5) as [H1 H2]; [lia|].
  split; [exact H1 | apply H2; lia].
Defined.

(** ** NumRom.a_decimal: the whole numerals, exactly *)

Lemma length_times w k : length (times w k) = k * length w.
Proof.
  induction k as [|k IH]; [reflexivity|].
  rewrite times_S, length_app, IH. lia.
Qed.

(** One loop of the scan reads a run of its symbol. *)
Lemma consume_run roman symbol value fuel result i :
  i <= length roman ->
  exists n,
    NumRom.consume fuel roman symbol value (result, i)
    = ((result + value * Z.of_nat n)%Z, i + n * length symbol)
    /\ firstn (i + n * length symbol) roman = firstn i roman ++ times symbol n
    /\ i + n * length symbol <= length roman.
Proof.
  revert result i. induction fuel as [|fuel IH]; intros result i Hi.
  - exists 0. cbn [NumRom.consume times repeat concat].
    rewrite Z.mul_0_r, Z.add_0_r, Nat.add_0_r, app_nil_r. auto.
  - cbn [NumRom.consume].
    destruct (Nat.ltb i (length roman) && startswith roman symbol i) eqn:E.
    + apply andb_true_iff in E as [_ E].
      apply startswith_firstn in E as [Hlen Hf].
      destruct (IH (result + value)%Z (i + length symbol) Hlen)
        as (n & -> & Hn & Hb).
      exists (S n). split; [f_equal; lia|].
      replace (i + S n * length symbol)
        with (i + length symbol + n * length symbol) by lia.
      split; [|exact Hb].
      now rewrite Hn, Hf, times_S, app_assoc.
    + exists 0. cbn [times repeat concat].
      rewrite Z.mul_0_r, Z.add_0_r, Nat.add_0_r, app_nil_r. auto.
Qed.

(** What the scan has read is a string of runs, and its result their
    value. *)
Lemma fold_consume_runs roman fuel table st :
  snd st <= length roman ->
  let st' := fold_left
               (fun st sv => NumRom.consume fuel roman (fst sv) (snd sv) st)
               table st in
  exists counts,
    length counts = length table
    /\ firstn (snd st') roman = firstn (snd st) roman ++ runs table counts
    /\ fst st' = (fst st + runs_value table counts)%Z
    /\ snd st' <= length roman.
Proof.
  revert st. induction table as [|[symbol value] table IH];
    intros [result i] Hi; cbn [fold_left fst snd] in *.
  - exists []. cbn [runs runs_value length].
    rewrite app_nil_r, Z.add_0_r. auto.
  - destruct (consume_run roman symbol value fuel result i Hi)
      as (n & -> & Hn & Hb).
    destruct (IH ((result + value * Z.of_nat n)%Z, i + n * length symbol) Hb)
      as (counts & Hlen & Hf & Hv & Hb').
    cbn [fst snd] in *.
    exists (n :: counts). cbn [runs runs_value length].
    split; [now rewrite Hlen|]. split; [|split; [lia | exact Hb']].
    now rewrite Hf, Hn, app_assoc.
Qed.

(** The first two characters of a string of runs. *)
Lemma starts_nil table : In [] (starts table).
Proof.
  induction table as [|[symbol value] table IH]; cbn [starts];
    [now left | apply in_or_app; now left].
Qed.

Lemma firstn_1_firstn_2 (r : str) : firstn 1 r = firstn 1 (firstn 2 r).
Proof. now destruct r as [|a [|b r]]. Qed.

Lemma starts_runs table counts :
  short_symbols table = true ->
  In (firstn 2 (runs table counts)) (starts table).
Proof.
  revert counts. induction table as [|[symbol value] table IH];
    intros counts Hs; [now left|].
  cbn [short_symbols forallb fst] in Hs.
  apply andb_true_iff in Hs as [Hlen Hs].
  apply andb_true_iff in Hlen as [H1 H2].
  apply Nat.leb_le in H1, H2. fold (short_symbols table) in Hs.
  destruct counts as [|n counts]; [apply starts_nil|].
  cbn [runs starts]. apply in_or_app.
  destruct n as [|n]; [left; now apply IH|]. right.
  rewrite times_S, <- app_assoc.
  destruct symbol as [|a [|b [|c symbol]]]; cbn [length] in *; try lia.
  - (* one character *)
    cbn [Nat.leb app]. destruct n as [|n].
    + right. cbn [times repeat concat app].
      change (firstn 2 (a :: runs table counts))
        with (a :: firstn 1 (runs table counts)).
      rewrite firstn_1_firstn_2.
      apply (in_map (fun f => a :: firstn 1 f)). now apply IH.
    + left. reflexivity.
  - (* two characters *)
    cbn [Nat.leb]. left. reflexivity.
Qed.

Lemma prefixb_firstn_2 symbol r :
  length symbol <= 2 -> prefixb symbol r = prefixb symbol (firstn 2 r).
Proof.
  intros H. destruct symbol as [|a [|b [|c symbol]]]; cbn [length] in H;
    try lia; destruct r as [|x [|y r]]; reflexivity.
Qed.

(** A loop of the scan reads a whole run when what follows the run
    does not start with the symbol. *)
Lemma consume_whole_run pre symbol value n rest fuel result :
  symbol <> [] -> prefixb symbol rest = false -> n <= fuel ->
  NumRom.consume fuel (pre ++ times symbol n ++ rest) symbol value
    (result, length pre)
  = ((result + value * Z.of_nat n)%Z, length (pre ++ times symbol n)).
Proof.
  intros Hne Hrest. revert pre n result.
  induction fuel as [|fuel IH]; intros pre n result Hn.
  - replace n with 0 by lia. cbn [NumRom.consume times repeat concat].
    now rewrite app_nil_r, Z.mul_0_r, Z.add_0_r.
  - cbn [NumRom.consume]. unfold startswith.
    rewrite skipn_app, skipn_all, Nat.sub_diag. cbn [skipn app].
    destruct n as [|n].
    + cbn [times repeat concat app]. rewrite Hrest, !andb_false_r.
      now rewrite app_nil_r, Z.mul_0_r, Z.add_0_r.
    + rewrite times_S, <- app_assoc, prefixb_app.
      rewrite !length_app.
      assert (0 < length symbol) by (destruct symbol; [congruence|simpl; lia]).
      replace (Nat.ltb _ _) with true by (symmetry; apply Nat.ltb_lt; lia).
      replace (Nat.leb _ _) with true by (symmetry; apply Nat.leb_le; lia).
      cbn [andb].
      replace (pre ++ symbol ++ times symbol n ++ rest)
        with ((pre ++ symbol) ++ times symbol n ++ rest)
        by now rewrite <- app_assoc.
      rewrite <- (length_app pre symbol), IH by lia.
      f_equal; [lia|]. rewrite !length_app. lia.
Qed.

Lemma fold_consume_whole table :
  short_symbols table = true -> greedy table = true ->
  forall counts pre fuel result,
    length counts = length table ->
    length (runs table counts) <= fuel ->
    fold_left
      (fun st sv =>
         NumRom.consume fuel (pre ++ runs table counts) (fst sv) (snd sv) st)
      table (result, length pre)
    = ((result + runs_value table counts)%Z,
       length (pre ++ runs table counts)).
Proof.
  induction table as [|[symbol value] table IH];
    intros Hs Hg counts pre fuel result Hlen Hfuel.
  - destruct counts; [|discriminate Hlen]. cbn [fold_left runs runs_value].
    now rewrite app_nil_r, Z.add_0_r.
  - destruct counts as [|n counts]; [discriminate Hlen|].
    cbn [short_symbols forallb fst] in Hs.
    apply andb_true_iff in Hs as [Hsym Hs]. fold (short_symbols table) in Hs.
    apply andb_true_iff in Hsym as [H1 H2]. apply Nat.leb_le in H1, H2.
    cbn [greedy] in Hg. apply andb_true_iff in Hg as [Hstop Hg].
    cbn [fold_left runs runs_value fst snd length] in *.
    rewrite length_app, length_times in Hfuel.
    assert (Hrest : prefixb symbol (runs table counts) = false).
    { rewrite prefixb_firstn_2 by exact H2.
      rewrite forallb_forall in Hstop.
      apply negb_true_iff, Hstop, starts_runs, Hs. }
    rewrite consume_whole_run; [|destruct symbol; [simpl in H1; lia|discriminate]
                                |exact Hrest|nia].
    replace (pre ++ times symbol n ++ runs table counts)
      with ((pre ++ times symbol n) ++ runs table counts)
      by now rewrite <- app_assoc.
    rewrite IH; try assumption; try lia.
    f_equal. lia.
Qed.

Lemma digit_table_greedy :
  short_symbols NumRom._valores_romanos = true
  /\ greedy NumRom._valores_romanos = true.
Proof. split; vm_compute; reflexivity. Qed.

(** The scan reads a string of runs to its end and gives its value. *)
Lemma scan_runs_value counts :
  length counts = length NumRom._valores_romanos ->
  NumRom.scan (runs NumRom._valores_romanos counts)
  = (runs_value NumRom._valores_romanos counts,
     length (runs NumRom._valores_romanos counts)).
Proof.
  intros Hlen. destruct digit_table_greedy as [Hs Hg].
  exact (fold_consume_whole _ Hs Hg counts [] _ 0%Z Hlen (Nat.le_refl _)).
Qed.

(** The scan reads a string to its end exactly when the string is a
    string of runs of the table. *)
Lemma scan_runs body :
  snd (NumRom.scan body) = length body
  <-> exists counts,
        length counts = length NumRom._valores_romanos
        /\ body = runs NumRom._valores_romanos counts.
Proof.
  split.
  - intros H.
    destruct (fold_consume_runs body (length body) NumRom._valores_romanos
                (0%Z, 0) ltac:(simpl; lia)) as (counts & Hlen & Hf & _).
    fold (NumRom.scan body) in Hf. rewrite H, firstn_all in Hf.
    exists counts. split; [exact Hlen | exact Hf].
  - intros (counts & Hlen & ->). now rewrite scan_runs_value.
Qed.

Lemma runs_letters table counts :
  forallb digit_entry table = true ->
  forallb numeral_letter (runs table counts) = true.
Proof.
  revert counts. induction table as [|[symbol value] table IH];
    intros counts Ht; [reflexivity|].
  cbn [forallb] in Ht. apply andb_true_iff in Ht as [He Ht].
  apply digit_entry_spec in He as (_ & Hs & _).
  destruct counts as [|n counts]; [reflexivity|].
  cbn [runs]. rewrite forallb_app, (IH _ Ht), andb_true_r.
  induction n as [|n IHn]; [reflexivity|].
  now rewrite times_S, forallb_app, Hs, IHn.
Qed.

(** X17. The whole numerals, exactly.  [a_decimal] returns the integer
    [n] on [s] if and only if [s] is not empty and its upper-cased form
    is a string of runs of the symbols of the digit table in the order
    of the table (M's, then CM's, D's, CD's, C's, XC's, L's, XL's, X's,
    IX's, V's, IV's, I's; [counts] gives the length of each run, 0
    included) that contains no forbidden sequence; [n] is the sum of
    the values of the symbols. *)
Theorem a_decimal_whole_numerals
    (unicode_upper : codepoint -> list codepoint) (s : str) (n : Z) :
  NumRom.a_decimal unicode_upper s = Ok (PInt n)
  <-> s <> []
      /\ exists counts,
           length counts = length NumRom._valores_romanos
           /\ upper unicode_upper s = runs NumRom._valores_romanos counts
           /\ n = runs_value NumRom._valores_romanos counts
           /\ forall seq, In seq NumRom.invalid_sequences ->
                          contains seq (upper unicode_upper s) = false.
Proof.
  split.
  - intros H. apply a_decimal_int in H as (Hne & Hl & Hseq & Hscan).
    split; [intros ->; discriminate Hne|].
    assert (Hend : snd (NumRom.scan (upper unicode_upper s))
                   = length (upper unicode_upper s)) by now rewrite Hscan.
    apply scan_runs in Hend as (counts & Hlen & E).
    exists counts. split; [exact Hlen|]. split; [exact E|].
    split; [|now apply check_sequences_passes].
    rewrite E, (scan_runs_value counts Hlen) in Hscan.
    injection Hscan as Hn. now symmetry.
  - intros (Hne & counts & Hlen & E & -> & Hseq).
    assert (Hl : forallb numeral_letter (upper unicode_upper s) = true).
    { rewrite E. apply runs_letters, digit_entries. }
    apply check_sequences_passes in Hseq.
    assert (Hv : NumRom._valida_romano unicode_upper (upper unicode_upper s)
                 = Ok tt).
    { rewrite <- (app_nil_r (upper unicode_upper s)).
      apply _valida_romano_suffix; try reflexivity; try assumption.
      simpl. lia. }
    rewrite a_decimal_unfold.
    replace (NumRom.is_empty s) with false
      by (destruct s; [congruence | reflexivity]).
    cbv zeta. rewrite Hv. cbn [bind].
    assert (Hend : forall symbol,
              no_letter symbol = true -> symbol <> [] ->
              endswith (upper unicode_upper s) symbol = false).
    { intros symbol Hs Hn. rewrite <- (app_nil_r (upper unicode_upper s)).
      rewrite (endswith_suffix _ [] symbol Hl Hs).
      destruct symbol; [congruence | reflexivity]. }
    rewrite fraction_cases, !Hend by (reflexivity || discriminate).
    rewrite E, (scan_runs_value counts Hlen). cbn [bind fst snd].
    now rewrite Nat.eqb_refl.
Qed.

(** An instance: "mcmxciv", with one M, one CM, one XC and one IV. *)
Lemma a_decimal_whole_numerals_witness :
  NumRom.a_decimal caseless_upper (lit "mcmxciv") = Ok (PInt 1994).
Proof.
  apply (a_decimal_whole_numerals caseless_upper (lit "mcmxciv") 1994).
  split; [discriminate|].
  exists [1; 1; 0; 0; 0; 1; 0; 0; 0; 0; 0; 1; 0].
  split; [reflexivity|]. split; [reflexivity|]. split; [reflexivity|].
  intros seq Hin.
  repeat (destruct Hin as [<-|Hin]; [reflexivity|]). destruct Hin.
Defined.

(** ** NumRom.a_decimal: every string it accepts *)

(** An accepted numeral: letters that the scan reads to their end, with
    no forbidden sequence, and S or one dot after them or nothing. *)
Lemma a_decimal_scanned
    (unicode_upper : codepoint -> list codepoint) (s : str) (v : PyNum) :
  NumRom.a_decimal unicode_upper s = Ok v ->
  exists body n,
    Forall (fun c => numeral_letter c = true) body
    /\ NumRom.scan body = (n, length body)
    /\ NumRom.check_sequences NumRom.invalid_sequences body = Ok tt
    /\ ((upper unicode_upper s = body /\ v = PInt n)
        \/ (upper unicode_upper s = body ++ lit "S"
            /\ v = PFloat (float_of_Z n + 6 / 12))
        \/ (upper unicode_upper s = body ++ [middot]
            /\ v = PFloat (float_of_Z n + 1 / 12))).
Proof.
  intros H. rewrite a_decimal_unfold in H.
  destruct (NumRom.is_empty s); [discriminate H|].
  cbv zeta in H. set (roman := upper unicode_upper s) in *.
  destruct (NumRom._valida_romano _ _) as [[]|] eqn:Ev; [|discriminate H].
  cbn [bind] in H.
  destruct (scan_scanned roman) as (Hi & Hl & Hn).
  destruct (NumRom.scan roman) as [n i] eqn:Escan. cbn [fst snd] in *.
  rewrite fraction_cases in H. cbn [fst snd] in H.
  exists (firstn i roman), n.
  split; [now apply forallb_letters_Forall|].
  rewrite firstn_length_le by exact Hi.
  assert (Hglyph : forall c,
            numeral_letter c = false -> roman = firstn i roman ++ [c] ->
            NumRom.scan (firstn i roman) = (n, i)).
  { intros c Hc E. rewrite <- Escan, E at 1.
    symmetry. rewrite <- E. rewrite E at 1. apply scan_suffix.
    cbn [no_letter forallb]. now rewrite Hc. }
  assert (Hseq : forall g,
            no_letter g = true -> upper unicode_upper g = g ->
            roman = firstn i roman ++ g ->
            NumRom.check_sequences NumRom.invalid_sequences (firstn i roman)
            = Ok tt).
  { intros g Hg Hu E. unfold NumRom._valida_romano in Ev. cbv zeta in Ev.
    rewrite E, upper_app, (upper_letters unicode_upper _ Hl), Hu in Ev.
    rewrite (check_sequences_suffix _ _ g invalid_sequences_letters Hg) in Ev.
    destruct (NumRom.check_sequences _ _) as [[]|]; [reflexivity|].
    discriminate Ev. }
  destruct (endswith roman (lit "S")) eqn:ES;
    [|destruct (endswith roman [middot]) eqn:ED].
  - destruct (add _ _) as [r|] eqn:Ea; [|discriminate H].
    cbn [bind fst snd] in H.
    destruct (Nat.eqb (i + 1) (length roman)) eqn:E; cbn [negb] in H;
      [|discriminate H].
    injection H as <-. apply Nat.eqb_eq in E.
    apply endswith_inv in ES. cbn [length lit] in ES.
    replace (length roman - 1) with i in ES by lia.
    split; [now apply (Hglyph 83%N)|].
    split; [now apply (Hseq (lit "S"))|].
    right. left. split; [exact ES | now apply add_int_float].
  - destruct (add _ _) as [r|] eqn:Ea; [|discriminate H].
    cbn [bind fst snd] in H.
    destruct (Nat.eqb (i + 1) (length roman)) eqn:E; cbn [negb] in H;
      [|discriminate H].
    injection H as <-. apply Nat.eqb_eq in E.
    apply endswith_inv in ED. cbn [length] in ED.
    replace (length roman - 1) with i in ED by lia.
    split; [now apply (Hglyph middot)|].
    split; [now apply (Hseq [middot])|].
    right. right. split; [exact ED | now apply add_int_float].
  - cbn [bind fst snd] in H.
    destruct (Nat.eqb i (length roman)) eqn:E; cbn [negb] in H;
      [|discriminate H].
    injection H as <-. apply Nat.eqb_eq in E.
    assert (Hs : NumRom.check_sequences NumRom.invalid_sequences
                   (firstn i roman) = Ok tt).
    { apply (Hseq []); [reflexivity | reflexivity |].
      now rewrite app_nil_r, E, firstn_all. }
    subst i. rewrite firstn_all in *.
    split; [exact Escan|]. split; [exact Hs|].
    left. now split.
Qed.

(** X18. Every string that [a_decimal] accepts is, upper-cased, a
    string of runs of the symbols of the digit table, in the order of
    the table and without a forbidden sequence, followed by nothing,
    by S or by one dot; the value returned is the sum of the values of
    the symbols as an [int], or that sum as a float plus 6/12, or plus
    1/12. *)
Theorem a_decimal_accepted
    (unicode_upper : codepoint -> list codepoint) (s : str) (v : PyNum) :
  NumRom.a_decimal unicode_upper s = Ok v ->
  exists counts,
    length counts = length NumRom._valores_romanos
    /\ (forall seq, In seq NumRom.invalid_sequences ->
          contains seq (runs NumRom._valores_romanos counts) = false)
    /\ ((upper unicode_upper s = runs NumRom._valores_romanos counts
         /\ v = PInt (runs_value NumRom._valores_romanos counts))
        \/ (upper unicode_upper s
            = runs NumRom._valores_romanos counts ++ lit "S"
            /\ v = PFloat (float_of_Z (runs_value NumRom._valores_romanos counts)
                           + 6 / 12))
        \/ (upper unicode_upper s
            = runs NumRom._valores_romanos counts ++ [middot]
            /\ v = PFloat (float_of_Z (runs_value NumRom._valores_romanos counts)
                           + 1 / 12))).
Proof.
  intros H.
  destruct (a_decimal_scanned unicode_upper s v H)
    as (body & n & _ & Hscan & Hseq & Hv).
  assert (Hend : snd (NumRom.scan body) = length body) by now rewrite Hscan.
  apply scan_runs in Hend as (counts & Hlen & ->).
  rewrite (scan_runs_value counts Hlen) in Hscan. injection Hscan as <-.
  exists counts. split; [exact Hlen|].
  split; [now apply check_sequences_passes | exact Hv].
Qed.

(** An instance: "xivs", read as 14.5. *)
Lemma a_decimal_accepted_witness :
  exists counts,
    length counts = length NumRom._valores_romanos
    /\ (forall seq, In seq NumRom.invalid_sequences ->
          contains seq (runs NumRom._valores_romanos counts) = false)
    /\ ((upper caseless_upper (lit "xivs")
         = runs NumRom._valores_romanos counts
         /\ PFloat 14.5 = PInt (runs_value NumRom._valores_romanos counts))
        \/ (upper caseless_upper (lit "xivs")
            = runs NumRom._valores_romanos counts ++ lit "S"
            /\ PFloat 14.5
               = PFloat (float_of_Z (runs_value NumRom._valores_romanos counts)
                         + 6 / 12))
        \/ (upper caseless_upper (lit "xivs")
            = runs NumRom._valores_romanos counts ++ [middot]
            /\ PFloat 14.5
               = PFloat (float_of_Z (runs_value NumRom._valores_romanos counts)
                         + 1 / 12))).
Proof.
  apply (a_decimal_accepted caseless_upper (lit "xivs") (PFloat 14.5)).
  vm_compute. reflexivity.
Defined.

(** ** NumRom.a_decimal: the errors *)


(** After the validator: the value, the invalid-numeral error, or the
    overflow of the integer value when a fraction is added to it. *)
Lemma a_decimal_validated_outcome unicode_upper s :
  NumRom.is_empty s = false ->
  NumRom._valida_romano unicode_upper (upper unicode_upper s) = Ok tt ->
  (exists v, NumRom.a_decimal unicode_upper s = Ok v)
  \/ NumRom.a_decimal unicode_upper s
     = Raise (RomanError (RomanoInvalido (upper unicode_upper s)))
  \/ (NumRom.a_decimal unicode_upper s = Raise OverflowError
      /\ float_of_int (fst (NumRom.scan (upper unicode_upper s)))
         = Raise OverflowError).
Proof.
  intros Hne Hv. rewrite a_decimal_unfold, Hne. cbv zeta. rewrite Hv.
  cbn [bind]. rewrite fraction_cases. cbn [fst snd].
  set (roman := upper unicode_upper s).
  assert (Hadd : forall f j,
            let r := (ri <- (result <- add (PInt (fst (NumRom.scan roman)))
                                         (PFloat f) ;; Ok (result, j)) ;;
                      (if negb (Nat.eqb (snd ri) (length roman))
                       then Raise (RomanError (RomanoInvalido roman))
                       else Ok (fst ri))) in
            (exists v, r = Ok v)
            \/ r = Raise (RomanError (RomanoInvalido roman))
            \/ (r = Raise OverflowError
                /\ float_of_int (fst (NumRom.scan roman))
                   = Raise OverflowError)).
  { intros f j. cbn [add as_float bind].
    destruct (float_of_int_cases (fst (NumRom.scan roman))) as [E | E];
      rewrite E; cbn [bind fst snd]; [now right; right|].
    destruct (negb _); [right; now left | left; eauto]. }
  destruct (endswith roman (lit "S")); [apply Hadd|].
  destruct (endswith roman [middot]); [apply Hadd|].
  cbn [bind fst snd]. destruct (negb _); [right; now left | left; eauto].
Qed.

Lemma a_decimal_invalid unicode_upper s :
  NumRom.is_empty s = false ->
  forall e,
    NumRom._valida_romano unicode_upper (upper unicode_upper s) = Raise e ->
    NumRom.a_decimal unicode_upper s = Raise e.
Proof.
  intros Hne e Hv. rewrite a_decimal_unfold, Hne. cbv zeta.
  now rewrite Hv.
Qed.



(** ** cli: the command a_decimal *)

(** X20. The command a_decimal of [cli] prints what [a_decimal]
    returns, or writes the [RomanError] that [a_decimal] raises to
    stderr and exits with status 1; the one exception that can
    escape is the [OverflowError] of an integer value too large for a
    float. *)
Theorem cli_a_decimal
    (unicode_upper : codepoint -> list codepoint)
    (unicode_lower : str -> str) (roman : str) :
  (exists v,
     NumRom.a_decimal unicode_upper roman = Ok v
     /\ Cli.cli unicode_upper unicode_lower (Cli.Command_a_decimal roman)
        = Cli.Stdout (Cli.Number v))
  \/ (exists msg,
        NumRom.a_decimal unicode_upper roman = Raise (RomanError msg)
        /\ Cli.cli unicode_upper unicode_lower (Cli.Command_a_decimal roman)
           = Cli.Stderr_exit_1 msg)
  \/ (Cli.cli unicode_upper unicode_lower (Cli.Command_a_decimal roman)
      = Cli.Traceback OverflowError
      /\ float_of_int (fst (NumRom.scan (upper unicode_upper roman)))
         = Raise OverflowError).
Proof.
  unfold Cli.cli.
  destruct (NumRom.a_decimal unicode_upper roman) as [v|e] eqn:E;
    cbn [bind]; [left; eauto|].
  destruct roman as [|c s].
  - cbn in E. injection E as <-. right. left. eauto.
  - assert (Hne : NumRom.is_empty (c :: s) = false) by reflexivity.
    destruct (NumRom._valida_romano unicode_upper
                (upper unicode_upper (c :: s))) as [[]|e'] eqn:Ev.
    + destruct (a_decimal_validated_outcome unicode_upper _ Hne Ev)
        as [[v E']|[E'|[E' Ho]]]; rewrite E' in E; [discriminate E| |];
        injection E as <-; [right; left; eauto | right; right; auto].
    + rewrite (a_decimal_invalid unicode_upper _ Hne e' Ev) in E.
      injection E as <-.
      destruct (_valida_romano_outcome unicode_upper
                  (upper unicode_upper (c :: s))) as [E|[[seq E]|E]];
        rewrite E in Ev; [discriminate Ev| |]; injection Ev as <-;
        right; left; eauto.
Qed.

(** An instance: the argument "xiv" prints 14. *)
Lemma cli_a_decimal_witness :
  Cli.cli caseless_upper caseless_lower (Cli.Command_a_decimal (lit "xiv"))
  = Cli.Stdout (Cli.Number (PInt 14)).
Proof.
  destruct (cli_a_decimal caseless_upper caseless_lower (lit "xiv"))
    as [(v & Hv & ->)|[(msg & Hm & _)|[_ Ho]]].
  - vm_compute in Hv. now injection Hv as <-.
  - vm_compute in Hm. discriminate Hm.
  - vm_compute in Ho. discriminate Ho.
Defined.
